(** * Lock compatibility, buffer pool and executor locking of the BusTub
      storage engine (CMU 15-445), as a shallow embedding.

    The development follows the sources:
    - [LockManager]: [concurrency/lock_manager.h] (request queues and
      [IsLockCompatible]);
    - [BufferPool]: [buffer/buffer_pool_manager_instance.cpp];
    - [Executors]: [execution/update_executor.cpp] and
      [execution/insert_executor.cpp].

    The integer types of the program are declared in [common/config.h]
    and [storage/page/page.h], which are not among the sources at hand.
    Page ids and the fields of the page-id allocator are modelled at their
    width (32 bits, with the wrap-around written out); transaction ids,
    frame ids and pin counts, on which no arithmetic here can overflow in
    a pool that fits in memory, are taken as mathematical integers. *)

From Stdlib Require Import ZArith Strings.Byte.
From stdpp Require Import gmap list.

Local Open Scope Z_scope.

(* ===================================================================== *)
(** * Part I: definitions                                                 *)
(* ===================================================================== *)

(** ** The lock manager's request queue ([lock_manager.h]) *)

Module LockManager.

Abbreviation txn_id_t := Z.

Inductive LockMode := SHARED | EXCLUSIVE.

#[global] Instance LockMode_eq_dec : EqDecision LockMode.
Proof. solve_decision. Defined.

(** [class LockRequest]; the constructor sets [granted_] to false. *)
Record LockRequest := mkLockRequest {
  txn_id_ : txn_id_t;
  lock_mode_ : LockMode;
  granted_ : bool
}.

Definition new_LockRequest (txn_id : txn_id_t) (lock_mode : LockMode) : LockRequest :=
  {| txn_id_ := txn_id; lock_mode_ := lock_mode; granted_ := false |}.

(** [class LockRequestQueue]: [request_queue_] is a [std::list] in arrival
    order; the latch and the condition variable have no content. *)
Record LockRequestQueue := mkLockRequestQueue {
  request_queue_ : list LockRequest;
  upgrading_ : txn_id_t
}.

(** The local [isCompatible] of the loop body:
    [granted_ && (lock_mode_ == EXCLUSIVE ? false : to_check.lock_mode_ != EXCLUSIVE)]. *)
Definition isCompatible (lock_request to_check_request : LockRequest) : bool :=
  granted_ lock_request &&
  (if decide (lock_mode_ lock_request = EXCLUSIVE) then false
   else bool_decide (lock_mode_ to_check_request ≠ EXCLUSIVE)).

(** The range-for of [IsLockCompatible], from the head of the queue. *)
Fixpoint scan_queue (queue : list LockRequest) (to_check_request : LockRequest) : bool :=
  match queue with
  | [] => true
  | lock_request :: rest =>
      if txn_id_ lock_request =? txn_id_ to_check_request then true
      else if isCompatible lock_request to_check_request
           then scan_queue rest to_check_request
           else false
  end.

Definition IsLockCompatible (lock_request_queue : LockRequestQueue)
    (to_check_request : LockRequest) : bool :=
  scan_queue (request_queue_ lock_request_queue) to_check_request.

(** What the compatibility rule asks of one earlier request [p] when [R]
    is examined: same transaction, or granted with neither side
    EXCLUSIVE. *)
Definition admits (p R : LockRequest) : Prop :=
  txn_id_ p = txn_id_ R ∨
  (granted_ p = true ∧ lock_mode_ p ≠ EXCLUSIVE ∧ lock_mode_ R ≠ EXCLUSIVE).

(** No request of [R]'s transaction among the first [i] of [queue]. *)
Definition no_earlier_own (queue : list LockRequest) (R : LockRequest) (i : nat) : Prop :=
  ∀ j q, (j < i)%nat → queue !! j = Some q → txn_id_ q ≠ txn_id_ R.

End LockManager.

(** ** The buffer pool ([buffer_pool_manager_instance.cpp]) *)

Module BufferPool.

Abbreviation page_id_t := Z.
Abbreviation frame_id_t := nat.

(** Modelled from the spec: the [INVALID_PAGE_ID] sentinel of the
    configuration surface ([common/config.h] is not among the sources).
    Its value is the [-1] that [find_replace] uses for "no page". *)
Definition INVALID_PAGE_ID : page_id_t := -1.

(** [page_id_t] is the 32-bit [int] into which [find_replace] copies a
    page id ([int replace_page_id = pid]); [num_instances_] and
    [instance_index_] are [uint32_t], as the constructor's parameters.
    [to_int32] and [to_uint32] are the conversions to these types: the
    value modulo [2^32], taken in [-2^31, 2^31) and in [0, 2^32). *)
Definition INT32_MAX : Z := 2147483647.
Definition UINT32_MAX : Z := 4294967295.

Definition to_uint32 (z : Z) : Z := z mod 4294967296.

Definition to_int32 (z : Z) : Z := (z + 2147483648) mod 4294967296 - 2147483648.

(** A frame slot ([class Page]): the data buffer, the resident page id,
    the pin count and the dirty bit. The per-page latch has no content. *)
Record Page := mkPage {
  data_ : list byte;
  page_id_ : page_id_t;
  pin_count_ : Z;
  is_dirty_ : bool
}.

(** Modelled from the spec: the state of a frame that was never loaded
    ([Page::Page] of [storage/page/page.h], not among the sources): a
    zeroed buffer of [PAGE_SIZE] bytes, no page, no pin, clean. *)
Definition new_Page (PAGE_SIZE : nat) : Page :=
  {| data_ := replicate PAGE_SIZE x00; page_id_ := INVALID_PAGE_ID;
     pin_count_ := 0; is_dirty_ := false |}.

#[global] Instance Page_inhabited : Inhabited Page := populate (new_Page 0).

Definition set_data (d : list byte) (p : Page) : Page :=
  {| data_ := d; page_id_ := page_id_ p; pin_count_ := pin_count_ p; is_dirty_ := is_dirty_ p |}.
Definition set_page_id (pid : page_id_t) (p : Page) : Page :=
  {| data_ := data_ p; page_id_ := pid; pin_count_ := pin_count_ p; is_dirty_ := is_dirty_ p |}.
Definition set_pin_count (n : Z) (p : Page) : Page :=
  {| data_ := data_ p; page_id_ := page_id_ p; pin_count_ := n; is_dirty_ := is_dirty_ p |}.
Definition set_is_dirty (b : bool) (p : Page) : Page :=
  {| data_ := data_ p; page_id_ := page_id_ p; pin_count_ := pin_count_ p; is_dirty_ := b |}.

(** Modelled from the spec: the LRU replacer ([buffer/lru_replacer.cpp] is
    not among the sources), section 4.1: a list with the most recently
    unpinned frame at the head and the victim at the tail, bounded by the
    pool size. *)
Record LRUReplacer := mkLRU {
  lru_list : list frame_id_t;
  capacity : nat
}.

Definition new_LRUReplacer (num_pages : nat) : LRUReplacer :=
  {| lru_list := []; capacity := num_pages |}.

(** [Victim]: remove and return the least recently unpinned frame. *)
Definition Victim (r : LRUReplacer) : option (frame_id_t * LRUReplacer) :=
  match reverse (lru_list r) with
  | [] => None
  | f :: older => Some (f, {| lru_list := reverse older; capacity := capacity r |})
  end.

(** [Pin]: the frame is in use, stop tracking it. *)
Definition Pin (f : frame_id_t) (r : LRUReplacer) : LRUReplacer :=
  {| lru_list := filter (λ g, g ≠ f) (lru_list r); capacity := capacity r |}.

(** [Unpin]: track the frame as most recently used, unless it is tracked
    already or the replacer is full. *)
Definition Unpin (f : frame_id_t) (r : LRUReplacer) : LRUReplacer :=
  if bool_decide (f ∈ lru_list r) then r
  else if bool_decide (capacity r ≤ length (lru_list r))%nat then r
  else {| lru_list := f :: lru_list r; capacity := capacity r |}.

Definition Size (r : LRUReplacer) : nat := length (lru_list r).

(** The order of the calls the pool makes to the disk layer, and of its
    erasures from the page table, is kept in a log. *)
Inductive Event :=
| EvWritePage (pid : page_id_t) (data : list byte)
| EvReadPage (pid : page_id_t)
| EvDeallocatePage (pid : page_id_t)
| EvTableErase (pid : page_id_t).

(** [class BufferPoolManagerInstance]. [pool_size_] is the length of
    [pages_]. [disk_] is the image the disk manager holds. *)
Record BufferPoolManagerInstance := mkBPM {
  num_instances_ : Z;
  instance_index_ : Z;
  next_page_id_ : page_id_t;
  pages_ : list Page;
  page_table_ : gmap page_id_t frame_id_t;
  free_list_ : list frame_id_t;
  replacer_ : LRUReplacer;
  disk_ : page_id_t → list byte;
  log_ : list Event
}.

Abbreviation BPM := BufferPoolManagerInstance.

Definition pool_size_ (s : BPM) : nat := length (pages_ s).

Definition set_next_page_id (n : page_id_t) (s : BPM) : BPM :=
  mkBPM (num_instances_ s) (instance_index_ s) n (pages_ s) (page_table_ s)
        (free_list_ s) (replacer_ s) (disk_ s) (log_ s).
Definition set_pages (ps : list Page) (s : BPM) : BPM :=
  mkBPM (num_instances_ s) (instance_index_ s) (next_page_id_ s) ps (page_table_ s)
        (free_list_ s) (replacer_ s) (disk_ s) (log_ s).
Definition set_page_table (t : gmap page_id_t frame_id_t) (s : BPM) : BPM :=
  mkBPM (num_instances_ s) (instance_index_ s) (next_page_id_ s) (pages_ s) t
        (free_list_ s) (replacer_ s) (disk_ s) (log_ s).
Definition set_free_list (l : list frame_id_t) (s : BPM) : BPM :=
  mkBPM (num_instances_ s) (instance_index_ s) (next_page_id_ s) (pages_ s) (page_table_ s)
        l (replacer_ s) (disk_ s) (log_ s).
Definition set_replacer (r : LRUReplacer) (s : BPM) : BPM :=
  mkBPM (num_instances_ s) (instance_index_ s) (next_page_id_ s) (pages_ s) (page_table_ s)
        (free_list_ s) r (disk_ s) (log_ s).
Definition set_disk (d : page_id_t → list byte) (s : BPM) : BPM :=
  mkBPM (num_instances_ s) (instance_index_ s) (next_page_id_ s) (pages_ s) (page_table_ s)
        (free_list_ s) (replacer_ s) d (log_ s).
Definition emit (e : Event) (s : BPM) : BPM :=
  mkBPM (num_instances_ s) (instance_index_ s) (next_page_id_ s) (pages_ s) (page_table_ s)
        (free_list_ s) (replacer_ s) (disk_ s) (log_ s ++ [e]).

(** [pages_[f]]. A frame id outside the array is undefined behaviour in
    the program; here the read gives a blank page and the write does
    nothing. The invariant [wf] below keeps every frame id in range. *)
Definition frame (s : BPM) (f : frame_id_t) : Page := pages_ s !!! f.

Definition upd_frame (f : frame_id_t) (g : Page → Page) (s : BPM) : BPM :=
  set_pages (alter g f (pages_ s)) s.

(** Modelled from the spec: the disk manager ([storage/disk] is not among
    the sources), section 6: [WritePage] persists the buffer, [ReadPage]
    gives the on-disk contents. *)
Definition WritePage (pid : page_id_t) (d : list byte) (s : BPM) : BPM :=
  emit (EvWritePage pid d)
       (set_disk (λ q, if decide (q = pid) then d else disk_ s q) s).

Definition ReadPage (pid : page_id_t) (f : frame_id_t) (s : BPM) : BPM :=
  emit (EvReadPage pid) (upd_frame f (set_data (disk_ s pid)) s).

(** Modelled from the spec: [DeallocatePage] (declared in the header, not
    among the sources) deallocates the page id at the disk layer. *)
Definition DeallocatePage (pid : page_id_t) (s : BPM) : BPM :=
  emit (EvDeallocatePage pid) s.

(** [page_table_.erase(pid)]. *)
Definition table_erase (pid : page_id_t) (s : BPM) : BPM :=
  emit (EvTableErase pid) (set_page_table (delete pid (page_table_ s)) s).

(** The two-argument constructor; [None] when a [BUSTUB_ASSERT] fails.
    [num_instances] and [instance_index] are [uint32_t]: a number above
    [UINT32_MAX] is no argument of the constructor, and gives [None] too.
    [next_page_id_(instance_index)] converts the [uint32_t] to
    [page_id_t]. *)
Definition new_BufferPoolManagerInstance (PAGE_SIZE pool_size : nat)
    (num_instances instance_index : N) (disk : page_id_t → list byte) : option BPM :=
  if ((num_instances <=? 4294967295) && (instance_index <=? 4294967295) &&
      (0 <? num_instances) && (instance_index <? num_instances))%N then
    Some {| num_instances_ := Z.of_N num_instances;
            instance_index_ := Z.of_N instance_index;
            next_page_id_ := to_int32 (Z.of_N instance_index);
            pages_ := replicate pool_size (new_Page PAGE_SIZE);
            page_table_ := ∅;
            free_list_ := seq 0 pool_size;
            replacer_ := new_LRUReplacer pool_size;
            disk_ := disk;
            log_ := [] |}
  else None.

(** [assert(page_id % num_instances_ == instance_index_)]: the operands
    are an [int] and a [uint32_t], so the page id is converted to
    [uint32_t] and the remainder is the unsigned one. *)
Definition ValidatePageId (page_id : page_id_t) (s : BPM) : bool :=
  Z.rem (to_uint32 page_id) (num_instances_ s) =? instance_index_ s.

(** [AllocatePage]; [None] when the assertion of [ValidatePageId] fails.
    [next_page_id_ += num_instances_] is an addition in 32 bits whose
    result is stored in a [page_id_t]: it wraps around. *)
Definition AllocatePage (s : BPM) : option (page_id_t * BPM) :=
  let next_page_id := next_page_id_ s in
  let s1 := set_next_page_id (to_int32 (next_page_id_ s + num_instances_ s)) s in
  if ValidatePageId next_page_id s1 then Some (next_page_id, s1) else None.

(** The loop of [find_replace] over the page table: the key of the first
    entry that maps to [f], or [-1]. *)
Definition find_resident (f : frame_id_t) (t : gmap page_id_t frame_id_t) : Z :=
  match List.find (λ p, bool_decide (p.2 = f)) (map_to_list t) with
  | Some p => p.1
  | None => -1
  end.

Definition find_replace (s : BPM) : option frame_id_t * BPM :=
  match free_list_ s with
  | f :: rest => (Some f, set_free_list rest s)
  | [] =>
      match Victim (replacer_ s) with
      | Some (f, r) =>
          let s1 := set_replacer r s in
          let replace_page_id := find_resident f (page_table_ s1) in
          if bool_decide (replace_page_id ≠ -1) then
            let replace_page := frame s1 f in
            let s2 :=
              if is_dirty_ replace_page then
                upd_frame f (set_pin_count 0)
                  (WritePage (page_id_ replace_page) (data_ replace_page) s1)
              else s1 in
            (Some f, table_erase (page_id_ (frame s2 f)) s2)
          else (Some f, s1)
      | None => (None, s)
      end
  end.

(** [NewPgImp]: the page and its id, or [nullptr]. The outer [option] is
    the assertion of [AllocatePage]. *)
Definition NewPgImp (s : BPM) : option (option (page_id_t * frame_id_t) * BPM) :=
  match AllocatePage s with
  | None => None
  | Some (new_page_id, s1) =>
      let is_all := forallb (λ p, negb (pin_count_ p =? 0)) (pages_ s1) in
      if is_all then Some (None, s1)
      else
        match find_replace s1 with
        | (None, s2) => Some (None, s2)
        | (Some victim_fid, s2) =>
            let s3 := upd_frame victim_fid (set_page_id new_page_id) s2 in
            let s4 := upd_frame victim_fid (λ p, set_pin_count (pin_count_ p + 1) p) s3 in
            let s5 := set_replacer (Pin victim_fid (replacer_ s4)) s4 in
            let s6 := set_page_table (<[new_page_id := victim_fid]> (page_table_ s5)) s5 in
            let s7 := upd_frame victim_fid (set_is_dirty false) s6 in
            Some (Some (new_page_id, victim_fid), s7)
        end
  end.

Definition FetchPgImp (page_id : page_id_t) (s : BPM) : option frame_id_t * BPM :=
  match page_table_ s !! page_id with
  | Some frame_id =>
      let s1 := upd_frame frame_id (λ p, set_pin_count (pin_count_ p + 1) p) s in
      (Some frame_id, set_replacer (Pin frame_id (replacer_ s1)) s1)
  | None =>
      match find_replace s with
      | (None, s1) => (None, s1)
      | (Some replace_fid, s1) =>
          let replacePage := frame s1 replace_fid in
          let s2 := if is_dirty_ replacePage
                    then WritePage (page_id_ replacePage) (data_ replacePage) s1
                    else s1 in
          let s3 := table_erase (page_id_ replacePage) s2 in
          let s4 := set_page_table (<[page_id := replace_fid]> (page_table_ s3)) s3 in
          let s5 := ReadPage page_id replace_fid s4 in
          let s6 := upd_frame replace_fid (set_page_id page_id) s5 in
          let s7 := upd_frame replace_fid (λ p, set_pin_count (pin_count_ p + 1) p) s6 in
          let s8 := upd_frame replace_fid (set_is_dirty false) s7 in
          (Some replace_fid, set_replacer (Pin replace_fid (replacer_ s8)) s8)
      end
  end.

Definition FlushPgImp (page_id : page_id_t) (s : BPM) : bool * BPM :=
  match page_table_ s !! page_id with
  | None => (false, s)
  | Some flush_fid =>
      if bool_decide (page_id = INVALID_PAGE_ID) then (false, s)
      else (true, WritePage page_id (data_ (frame s flush_fid)) s)
  end.

Definition FlushAllPgsImp (s : BPM) : BPM :=
  foldl (λ acc p,
           if bool_decide (page_id_ (frame acc p.2) ≠ INVALID_PAGE_ID)
           then WritePage p.1 (data_ (frame acc p.2)) acc else acc)
        s (map_to_list (page_table_ s)).

Definition DeletePgImp (page_id : page_id_t) (s : BPM) : bool * BPM :=
  match page_table_ s !! page_id with
  | None => (true, s)
  | Some frame_id =>
      let page := frame s frame_id in
      if 0 <? pin_count_ page then (false, s)
      else
        let s1 := if is_dirty_ page then (FlushPgImp page_id s).2 else s in
        let s2 := DeallocatePage page_id s1 in
        let s3 := table_erase page_id s2 in
        let s4 := upd_frame frame_id (set_is_dirty false) s3 in
        let s5 := upd_frame frame_id (set_pin_count 0) s4 in
        let s6 := upd_frame frame_id (set_page_id INVALID_PAGE_ID) s5 in
        (true, set_free_list (free_list_ s6 ++ [frame_id]) s6)
  end.

Definition UnpinPgImp (page_id : page_id_t) (is_dirty : bool) (s : BPM) : bool * BPM :=
  match page_table_ s !! page_id with
  | None => (false, s)
  | Some unpinned_Fid =>
      let s1 := if is_dirty then upd_frame unpinned_Fid (set_is_dirty true) s else s in
      if pin_count_ (frame s1 unpinned_Fid) =? 0 then (false, s1)
      else
        let s2 := upd_frame unpinned_Fid (λ p, set_pin_count (pin_count_ p - 1) p) s1 in
        if pin_count_ (frame s2 unpinned_Fid) =? 0
        then (true, set_replacer (Unpin unpinned_Fid (replacer_ s2)) s2)
        else (true, s2)
  end.

(** A caller that holds the page writes its buffer through [GetData]. *)
Definition WriteData (f : frame_id_t) (d : list byte) (s : BPM) : BPM :=
  upd_frame f (set_data d) s.

(** The calls a client makes, and the pool after a sequence of them. *)
Inductive Op :=
| OpNewPage
| OpFetchPage (page_id : page_id_t)
| OpUnpinPage (page_id : page_id_t) (is_dirty : bool)
| OpFlushPage (page_id : page_id_t)
| OpFlushAllPages
| OpDeletePage (page_id : page_id_t)
| OpWriteData (f : frame_id_t) (d : list byte).

Definition step (op : Op) (s : BPM) : option BPM :=
  match op with
  | OpNewPage => snd <$> NewPgImp s
  | OpFetchPage page_id => Some (FetchPgImp page_id s).2
  | OpUnpinPage page_id is_dirty => Some (UnpinPgImp page_id is_dirty s).2
  | OpFlushPage page_id => Some (FlushPgImp page_id s).2
  | OpFlushAllPages => Some (FlushAllPgsImp s)
  | OpDeletePage page_id => Some (DeletePgImp page_id s).2
  | OpWriteData f d => Some (WriteData f d s)
  end.

Fixpoint run (ops : list Op) (s : BPM) : option BPM :=
  match ops with
  | [] => Some s
  | op :: rest => match step op s with Some s1 => run rest s1 | None => None end
  end.

(** The number of [NewPage] calls among [ops]; each makes one call to
    [AllocatePage], and nothing else calls it. *)
Definition is_NewPage (op : Op) : bool :=
  match op with OpNewPage => true | _ => false end.

Definition count_NewPage (ops : list Op) : nat :=
  length (filter (λ op, is_NewPage op = true) ops).

(** The sentinel is not a page: a client fetches real page ids only. *)
Definition client_ok (op : Op) : Prop :=
  match op with
  | OpFetchPage page_id => page_id ≠ INVALID_PAGE_ID
  | _ => True
  end.

(** Every frame pinned: what the first loop of [NewPgImp] looks for. *)
Definition all_pinned (s : BPM) : Prop :=
  ∀ f p, pages_ s !! f = Some p → 0 < pin_count_ p.

(** The frame [f] is in the array, unpinned. *)
Definition unpinned_frame (s : BPM) (f : frame_id_t) : Prop :=
  ∃ p, pages_ s !! f = Some p ∧ pin_count_ p = 0.

(** The allocator's part of the invariant: the fields hold values of
    their types, and the assertions of the constructor hold. *)
Definition alloc_ok (s : BPM) : Prop :=
  0 < num_instances_ s ≤ UINT32_MAX ∧
  0 ≤ instance_index_ s < num_instances_ s ∧
  - INT32_MAX - 1 ≤ next_page_id_ s ≤ INT32_MAX.

(** The allocator has not run out of page ids: the id that is handed out
    next is not negative (so it is not the sentinel) and passes the
    assertion of [ValidatePageId]. *)
Definition next_id_ok (s : BPM) : Prop :=
  0 ≤ next_page_id_ s ∧
  Z.rem (next_page_id_ s) (num_instances_ s) = instance_index_ s.

(** [ops] allocates page ids of [page_id_t] only: after its NewPage calls
    [next_page_id_] is still at most [INT32_MAX]. *)
Definition ids_in_range (ops : list Op) (s : BPM) : Prop :=
  next_page_id_ s + Z.of_nat (count_NewPage ops) * num_instances_ s ≤ INT32_MAX.

(** The invariant of the pool. *)
Record wf (s : BPM) : Prop := mk_wf {
  wf_free : ∀ f, f ∈ free_list_ s → unpinned_frame s f;
  wf_lru : ∀ f, f ∈ lru_list (replacer_ s) → unpinned_frame s f;
  wf_table : ∀ pid f, page_table_ s !! pid = Some f →
     (∃ p, pages_ s !! f = Some p ∧ page_id_ p = pid) ∧ f ∉ free_list_ s;
  wf_free_nodup : NoDup (free_list_ s);
  wf_valid : page_table_ s !! INVALID_PAGE_ID = None;
  wf_alloc : alloc_ok s
}.

(** Two frame arrays that agree on pin counts and page ids: all that the
    invariant reads of them. *)
Definition same_meta (ps ps' : list Page) : Prop :=
  ∀ f, (ps !! f = None ∧ ps' !! f = None) ∨
       (∃ p p', ps !! f = Some p ∧ ps' !! f = Some p' ∧
                pin_count_ p' = pin_count_ p ∧ page_id_ p' = page_id_ p).

(** The allocator's fields after a call that does not allocate. *)
Definition same_alloc (s s' : BPM) : Prop :=
  num_instances_ s' = num_instances_ s ∧
  instance_index_ s' = instance_index_ s ∧
  next_page_id_ s' = next_page_id_ s.

(** What every call keeps of the frame array and of the replacer: the
    number of frames, and that the replacer tracks no frame twice. *)
Definition shape_kept (s s' : BPM) : Prop :=
  length (pages_ s') = length (pages_ s) ∧
  (NoDup (lru_list (replacer_ s)) → NoDup (lru_list (replacer_ s'))).

End BufferPool.

(** ** The update and insert executors ([update_executor.cpp],
       [insert_executor.cpp]) *)

Module Executors.

Abbreviation RID := (Z * Z)%type.
Abbreviation Tuple := (list Z).

Inductive TransactionState := GROWING | SHRINKING | COMMITTED | ABORTED.

Inductive WType := INSERT | DELETE | UPDATE.

(** [IndexWriteRecord], as the executors construct it. *)
Record IndexWriteRecord := mkIndexWriteRecord {
  iw_rid : RID;
  iw_table_oid : Z;
  iw_wtype : WType;
  iw_tuple : Tuple;
  iw_old_tuple : Tuple;
  iw_index_oid : Z
}.

(** Modelled from the spec: the transaction record
    ([concurrency/transaction.h] is not among the sources), section 3:
    state, the two lock sets, the index write set. *)
Record Transaction := mkTransaction {
  state_ : TransactionState;
  shared_lock_set_ : gset RID;
  exclusive_lock_set_ : gset RID;
  index_write_set_ : list IndexWriteRecord
}.

Definition IsSharedLocked (rid : RID) (txn : Transaction) : bool :=
  bool_decide (rid ∈ shared_lock_set_ txn).

Definition IsExclusiveLocked (rid : RID) (txn : Transaction) : bool :=
  bool_decide (rid ∈ exclusive_lock_set_ txn).

(** An index of the table: its oid and the columns of its key. *)
Record IndexInfo := mkIndexInfo {
  index_oid_ : Z;
  key_attrs_ : list nat
}.

(** [Tuple::KeyFromTuple]: the values of the key columns. *)
Definition KeyFromTuple (t : Tuple) (index : IndexInfo) : Tuple :=
  omap (λ i, t !! i) (key_attrs_ index).

(** The calls an executor makes to the lock manager, the table heap and
    the indexes, in order. *)
Inductive Call :=
| CallLockUpgrade (rid : RID)
| CallLockExclusive (rid : RID)
| CallUpdateTuple (t : Tuple) (rid : RID)
| CallInsertTuple (t : Tuple)
| CallDeleteEntry (index_oid : Z) (key : Tuple) (rid : RID)
| CallInsertEntry (index_oid : Z) (key : Tuple) (rid : RID).

(** What an executor acts on: the transaction of its context and the
    calls made so far. *)
Record World := mkWorld {
  txn_ : Transaction;
  calls_ : list Call
}.

Definition call (c : Call) (w : World) : World :=
  {| txn_ := txn_ w; calls_ := calls_ w ++ [c] |}.

Definition with_txn (g : Transaction → Transaction) (w : World) : World :=
  {| txn_ := g (txn_ w); calls_ := calls_ w |}.

Definition abort (txn : Transaction) : Transaction :=
  {| state_ := ABORTED; shared_lock_set_ := shared_lock_set_ txn;
     exclusive_lock_set_ := exclusive_lock_set_ txn;
     index_write_set_ := index_write_set_ txn |}.

Definition append_index_write (r : IndexWriteRecord) (txn : Transaction) : Transaction :=
  {| state_ := state_ txn; shared_lock_set_ := shared_lock_set_ txn;
     exclusive_lock_set_ := exclusive_lock_set_ txn;
     index_write_set_ := index_write_set_ txn ++ [r] |}.

(** Modelled from the spec: [LockManager::LockExclusive]
    ([concurrency/lock_manager.cpp] is not among the sources), section
    4.4. The request waits in the queue of the rid; on grant the rid is
    added to the exclusive lock set and the call returns true; on a
    failed precondition or an abort while waiting the transaction is
    ABORTED and the call returns false. Which of the two happens depends
    on the other transactions: it is the argument [granted]. *)
Definition LockExclusive (granted : bool) (rid : RID) (w : World) : bool * World :=
  let w1 := call (CallLockExclusive rid) w in
  if granted then
    (true, with_txn (λ txn,
       {| state_ := state_ txn; shared_lock_set_ := shared_lock_set_ txn;
          exclusive_lock_set_ := {[rid]} ∪ exclusive_lock_set_ txn;
          index_write_set_ := index_write_set_ txn |}) w1)
  else (false, with_txn abort w1).

(** Modelled from the spec: [LockManager::LockUpgrade], section 4.4: on
    grant the rid moves from the shared to the exclusive lock set and the
    call returns true; otherwise the transaction is ABORTED and the call
    returns false. *)
Definition LockUpgrade (granted : bool) (rid : RID) (w : World) : bool * World :=
  let w1 := call (CallLockUpgrade rid) w in
  if granted then
    (true, with_txn (λ txn,
       {| state_ := state_ txn; shared_lock_set_ := shared_lock_set_ txn ∖ {[rid]};
          exclusive_lock_set_ := {[rid]} ∪ exclusive_lock_set_ txn;
          index_write_set_ := index_write_set_ txn |}) w1)
  else (false, with_txn abort w1).

(** The results of the calls whose code is elsewhere: the child executor,
    the table heap, and the lock manager's decision. *)
Record Env := mkEnv {
  child_Next : option (Tuple * RID);
  GetTuple : RID → option Tuple;
  UpdateTuple : Tuple → RID → bool;
  InsertTuple : Tuple → option RID;
  lock_granted : bool
}.

(** [UpdateInfo] of the plan: [Add] or [Set] with an integer. *)
Inductive UpdateType := Add | Set_.

Record UpdateInfo := mkUpdateInfo {
  type_ : UpdateType;
  update_val_ : Z
}.

(** [UpdateExecutor::GenerateUpdatedTuple]. The values are integers;
    [Value::Add] is their sum. *)
Definition GenerateUpdatedTuple (update_attrs : gmap nat UpdateInfo)
    (col_count : nat) (src_tuple : Tuple) : Tuple :=
  (λ idx,
     match update_attrs !! idx with
     | None => src_tuple !!! idx
     | Some info =>
         match type_ info with
         | Add => src_tuple !!! idx + update_val_ info
         | Set_ => update_val_ info
         end
     end) <$> seq 0 col_count.

(** The plan and catalog data of an update executor. *)
Record UpdatePlan := mkUpdatePlan {
  up_table_oid : Z;
  up_col_count : nat;
  up_update_attrs : gmap nat UpdateInfo;
  up_table_indexes : list IndexInfo
}.

(** The locking step of [UpdateExecutor::Next] (lines 46 to 55): false
    when [Next] returns false there. *)
Definition update_lock (env : Env) (emit_rid : RID) (w : World) : bool * World :=
  if IsSharedLocked emit_rid (txn_ w) then
    LockUpgrade (lock_granted env) emit_rid w
  else if IsExclusiveLocked emit_rid (txn_ w) then (true, w)
  else LockExclusive (lock_granted env) emit_rid w.

(** The [for_each] over the indexes after a successful update. *)
Definition update_indexes (plan : UpdatePlan) (to_update_tuple updated_tuple : Tuple)
    (emit_rid : RID) (w : World) : World :=
  foldl (λ acc index,
           let acc1 := call (CallDeleteEntry (index_oid_ index)
                               (KeyFromTuple to_update_tuple index) emit_rid) acc in
           let acc2 := call (CallInsertEntry (index_oid_ index)
                               (KeyFromTuple updated_tuple index) emit_rid) acc1 in
           with_txn (append_index_write
                       (mkIndexWriteRecord emit_rid (up_table_oid plan) UPDATE
                          updated_tuple to_update_tuple (index_oid_ index))) acc2)
        w (up_table_indexes plan).

Definition UpdateExecutor_Next (plan : UpdatePlan) (env : Env) (w : World) : bool * World :=
  match child_Next env with
  | None => (false, w)
  | Some (dummy_tuple, emit_rid) =>
      match GetTuple env emit_rid with
      | None => (false, w)
      | Some to_update_tuple =>
          let updated_tuple :=
            GenerateUpdatedTuple (up_update_attrs plan) (up_col_count plan)
              to_update_tuple in
          match update_lock env emit_rid w with
          | (false, w1) => (false, w1)
          | (true, w1) =>
              let w2 := call (CallUpdateTuple updated_tuple emit_rid) w1 in
              let updated := UpdateTuple env updated_tuple emit_rid in
              if updated
              then (true, update_indexes plan to_update_tuple updated_tuple emit_rid w2)
              else (false, w2)
          end
      end
  end.

(** The plan and catalog data of an insert executor; [ip_raw_values] is
    [Some] for a raw insert. *)
Record InsertPlan := mkInsertPlan {
  ip_table_oid : Z;
  ip_raw_values : option (list Tuple);
  ip_table_indexes : list IndexInfo
}.

(** The [for_each] over the indexes after a successful insert. *)
Definition insert_indexes (plan : InsertPlan) (to_insert_tuple : Tuple)
    (rid : RID) (w : World) : World :=
  foldl (λ acc index,
           let acc1 := call (CallInsertEntry (index_oid_ index)
                               (KeyFromTuple to_insert_tuple index) rid) acc in
           with_txn (append_index_write
                       (mkIndexWriteRecord rid (ip_table_oid plan) INSERT
                          to_insert_tuple [] (index_oid_ index))) acc1)
        w (ip_table_indexes plan).

(** [InsertExecutor::Next]: the result, the new [next_insert], the rid
    written through the out-parameter (if any), and the world. *)
Definition InsertExecutor_Next (plan : InsertPlan) (env : Env) (next_insert : nat)
    (w : World) : bool * nat * option RID * World :=
  let source :=
    match ip_raw_values plan with
    | Some raw =>
        if bool_decide (length raw ≤ next_insert)%nat then None
        else (λ t, (t, S next_insert)) <$> raw !! next_insert
    | None => (λ p, (p.1, next_insert)) <$> child_Next env
    end in
  match source with
  | None => (false, next_insert, None, w)
  | Some (to_insert_tuple, next_insert1) =>
      let w1 := call (CallInsertTuple to_insert_tuple) w in
      match InsertTuple env to_insert_tuple with
      | None => (false, next_insert1, None, w1)
      | Some rid =>
          let w2 := (LockExclusive (lock_granted env) rid w1).2 in
          (true, next_insert1, Some rid, insert_indexes plan to_insert_tuple rid w2)
      end
  end.

(** The same environment with another decision of the lock manager. *)
Definition with_lock_granted (b : bool) (env : Env) : Env :=
  {| child_Next := child_Next env; GetTuple := GetTuple env;
     UpdateTuple := UpdateTuple env; InsertTuple := InsertTuple env;
     lock_granted := b |}.

End Executors.

(** ** Sequences of calls *)

Module Scenarios.

(** The frame that the [i]-th NewPage call on a fresh pool leaves behind:
    a zeroed buffer, the [i]-th page id, one pin, clean. *)
Definition filled_page (PAGE_SIZE : nat) (num_instances instance_index : Z) (i : nat)
    : BufferPool.Page :=
  BufferPool.mkPage (replicate PAGE_SIZE x00)
    (instance_index + Z.of_nat i * num_instances) 1 false.

(** A pool of [n] frames after [k] NewPage calls and nothing else, the
    page ids handed out so far being in the range of [page_id_t]. *)
Definition filled (PAGE_SIZE n k : nat) (num_instances instance_index : Z)
    (s : BufferPool.BufferPoolManagerInstance) : Prop :=
  BufferPool.pages_ s =
    (filled_page PAGE_SIZE num_instances instance_index <$> seq 0 k) ++
    replicate (n - k) (BufferPool.new_Page PAGE_SIZE) ∧
  BufferPool.free_list_ s = seq k (n - k) ∧
  BufferPool.lru_list (BufferPool.replacer_ s) = [] ∧
  BufferPool.num_instances_ s = num_instances ∧
  BufferPool.instance_index_ s = instance_index ∧
  BufferPool.next_page_id_ s =
    BufferPool.to_int32 (instance_index + Z.of_nat k * num_instances) ∧
  BufferPool.alloc_ok s.



End Scenarios.

(* ===================================================================== *)
(** * Part II: theorems                                                   *)
(* ===================================================================== *)

Section LockCompatibility.
Import LockManager.

Lemma isCompatible_spec p R :
  isCompatible p R = true ↔
  granted_ p = true ∧ lock_mode_ p ≠ EXCLUSIVE ∧ lock_mode_ R ≠ EXCLUSIVE.
Proof.
  unfold isCompatible. destruct (granted_ p); simpl.
  - case_decide as Hm.
    + split; [done | intros (_ & ? & _); done].
    + rewrite bool_decide_eq_true.
      split; [intros ?; done | intros (_ & _ & ?); done].
  - split; [done | intros (? & _); done].
Qed.

(** The scan answers true exactly when every request that no request of
    the examined transaction precedes is admitted. *)
Lemma scan_queue_spec queue R :
  scan_queue queue R = true ↔
  ∀ i p, queue !! i = Some p → no_earlier_own queue R i → admits p R.
Proof.
  induction queue as [|a queue IH]; simpl.
  - split; [intros _ i p Hi; done | done].
  - destruct (Z.eqb_spec (txn_id_ a) (txn_id_ R)) as [Heq|Hne].
    + split; [|done]. intros _ [|i] p Hi Hno.
      * simpl in Hi. injection Hi as <-. by left.
      * exfalso. apply (Hno 0%nat a); [lia | done | done].
    + destruct (isCompatible a R) eqn:Hc.
      * rewrite IH. split.
        -- intros H [|i] p Hi Hno.
           ++ simpl in Hi. injection Hi as <-. right. by apply isCompatible_spec.
           ++ apply (H i p Hi). intros j q Hj Hq.
              apply (Hno (S j) q); [lia | done].
        -- intros H i p Hi Hno. apply (H (S i) p Hi).
           intros [|j] q Hj Hq.
           ++ simpl in Hq. injection Hq as <-. done.
           ++ apply (Hno j q); [lia | done].
      * split; [done|]. intros H.
        destruct (H 0%nat a) as [?|Hok]; [done | | done |].
        -- intros j q Hj. lia.
        -- apply isCompatible_spec in Hok. congruence.
Qed.

End LockCompatibility.

(** C1, as amended. For a request [R] at some position of the queue,
    [IsLockCompatible] answers true exactly when every request before [R]
    that is not itself preceded by a request of [R]'s transaction is
    either of [R]'s transaction, or granted with neither it nor [R]
    EXCLUSIVE: the scan stops at the first request of [R]'s transaction
    and what follows it is not examined. *)
Theorem IsLockCompatible_iff_scanned
    (Q : LockManager.LockRequestQueue) (R : LockManager.LockRequest)
    (pre post : list LockManager.LockRequest) :
  LockManager.request_queue_ Q = pre ++ R :: post →
  (LockManager.IsLockCompatible Q R = true ↔
   ∀ i p, pre !! i = Some p → LockManager.no_earlier_own pre R i →
          LockManager.admits p R).
Proof.
  intros HQ. unfold LockManager.IsLockCompatible. rewrite HQ.
  rewrite scan_queue_spec. split.
  - intros H i p Hi Hno. apply (H i p).
    + rewrite lookup_app_l; [done | by eapply lookup_lt_Some].
    + intros j q Hj Hq. apply (Hno j q Hj).
      rewrite lookup_app_l in Hq; [done|].
      apply lookup_lt_Some in Hi. lia.
  - intros H i p Hi Hno.
    destruct (decide (i < length pre)%nat) as [Hlt|Hge].
    + rewrite lookup_app_l in Hi by done. apply (H i p Hi).
      intros j q Hj Hq. apply (Hno j q Hj).
      rewrite lookup_app_l; [done | lia].
    + destruct (decide (i = length pre)) as [->|Hne].
      * rewrite list_lookup_middle in Hi by done. injection Hi as <-. by left.
      * exfalso. apply (Hno (length pre) R); [lia | | done].
        by rewrite list_lookup_middle.
Qed.

(** The rule as the specification words it holds when [R] is the first
    request of its transaction in the queue. *)
Lemma IsLockCompatible_first_of_txn
    (Q : LockManager.LockRequestQueue) (R : LockManager.LockRequest)
    (pre post : list LockManager.LockRequest) :
  LockManager.request_queue_ Q = pre ++ R :: post →
  (∀ q, q ∈ pre → LockManager.txn_id_ q ≠ LockManager.txn_id_ R) →
  (LockManager.IsLockCompatible Q R = true ↔
   ∀ p, p ∈ pre → LockManager.admits p R).
Proof.
  intros HQ Hown. unfold LockManager.IsLockCompatible. rewrite HQ.
  rewrite scan_queue_spec. split.
  - intros H p Hp. apply list_elem_of_lookup in Hp as [i Hi].
    apply (H i p).
    + rewrite lookup_app_l; [done | by eapply lookup_lt_Some].
    + intros j q Hj Hq. apply Hown.
      rewrite lookup_app_l in Hq by (apply lookup_lt_Some in Hi; lia).
      apply list_elem_of_lookup. eauto.
  - intros H i p Hi Hno.
    destruct (decide (i < length pre)%nat) as [Hlt|Hge].
    + rewrite lookup_app_l in Hi by done. apply H.
      apply list_elem_of_lookup. eauto.
    + destruct (decide (i = length pre)) as [->|Hne].
      * rewrite list_lookup_middle in Hi by done. injection Hi as <-. by left.
      * exfalso. apply (Hno (length pre) R); [lia | | done].
        by rewrite list_lookup_middle.
Qed.

(** C1, as stated, fails: transaction 1 holds a granted SHARED request,
    transaction 2 holds another, and transaction 1 then asks for
    EXCLUSIVE. The scan stops at the first request and answers true,
    although the request of transaction 2 precedes the examined one and
    is not admitted. *)
Lemma IsLockCompatible_ignores_after_own :
  let held1 := LockManager.mkLockRequest 1 LockManager.SHARED true in
  let held2 := LockManager.mkLockRequest 2 LockManager.SHARED true in
  let R := LockManager.mkLockRequest 1 LockManager.EXCLUSIVE false in
  let Q := LockManager.mkLockRequestQueue [held1; held2; R] (-1) in
  LockManager.request_queue_ Q = [held1; held2] ++ R :: [] ∧
  ¬ (LockManager.IsLockCompatible Q R = true ↔
     ∀ p, p ∈ [held1; held2] → LockManager.admits p R).
Proof.
  simpl. split; [reflexivity|]. intros [H _].
  specialize (H eq_refl (LockManager.mkLockRequest 2 LockManager.SHARED true)).
  destruct H as [H|(_ & _ & H)].
  - apply list_elem_of_In. simpl. tauto.
  - simpl in H. lia.
  - simpl in H. congruence.
Qed.

Lemma IsLockCompatible_iff_scanned_witness :
  let held := LockManager.mkLockRequest 2 LockManager.SHARED true in
  let R := LockManager.mkLockRequest 1 LockManager.SHARED false in
  let Q := LockManager.mkLockRequestQueue [held; R] (-1) in
  LockManager.request_queue_ Q = [held] ++ R :: [] ∧
  (LockManager.IsLockCompatible Q R = true ↔
   ∀ i p, [held] !! i = Some p → LockManager.no_earlier_own [held] R i →
          LockManager.admits p R).
Proof.
  simpl. split; [reflexivity|].
  apply (IsLockCompatible_iff_scanned _ _ _ []). reflexivity.
Defined.

(* --------------------------------------------------------------------- *)
(** ** The buffer pool: frames and the replacer                           *)
(* --------------------------------------------------------------------- *)

(** Unfold the field updates of the pool state. *)
Ltac bpm_simpl :=
  cbv [BufferPool.ReadPage BufferPool.WritePage BufferPool.DeallocatePage
       BufferPool.table_erase BufferPool.upd_frame BufferPool.emit
       BufferPool.set_disk BufferPool.set_replacer BufferPool.set_free_list
       BufferPool.set_page_table BufferPool.set_pages
       BufferPool.set_next_page_id
       BufferPool.num_instances_ BufferPool.instance_index_
       BufferPool.next_page_id_ BufferPool.pages_ BufferPool.page_table_
       BufferPool.free_list_ BufferPool.replacer_ BufferPool.disk_
       BufferPool.log_ fst snd] in *.

Section BufferPoolFrames.
Import BufferPool.

Lemma frame_lookup (s : BPM) f p : pages_ s !! f = Some p → frame s f = p.
Proof. intros H. unfold frame. by apply list_lookup_total_correct. Qed.

Lemma alter_as_insert (l : list Page) f g p :
  l !! f = Some p → alter g f l = <[f := g p]> l.
Proof.
  intros H. apply list_eq. intros i.
  destruct (decide (i = f)) as [->|Hne].
  - rewrite list_lookup_alter_eq, H. simpl.
    rewrite list_lookup_insert_eq; [done | by eapply lookup_lt_Some].
  - by rewrite list_lookup_alter_ne, list_lookup_insert_ne.
Qed.

Lemma alter_insert_eq (l : list Page) f g x :
  (f < length l)%nat → alter g f (<[f := x]> l) = <[f := g x]> l.
Proof.
  intros H. rewrite (alter_as_insert (<[f := x]> l) f g x).
  - by rewrite list_insert_insert_eq.
  - by apply list_lookup_insert_eq.
Qed.

Lemma upd_frame_as_insert (s : BPM) f g p :
  pages_ s !! f = Some p →
  upd_frame f g s = set_pages (<[f := g p]> (pages_ s)) s.
Proof. intros H. unfold upd_frame. by rewrite (alter_as_insert _ _ _ p). Qed.

Lemma set_pages_same (s : BPM) : set_pages (pages_ s) s = s.
Proof. by destruct s. Qed.

Lemma Victim_None r : Victim r = None ↔ Size r = 0%nat.
Proof.
  unfold Victim, Size. destruct (reverse (lru_list r)) as [|f older] eqn:E.
  - split; [intros _|done].
    apply (f_equal length) in E. by rewrite length_reverse in E.
  - split; [done|]. intros H. apply (f_equal length) in E.
    rewrite length_reverse in E. simpl in E. lia.
Qed.

Lemma Victim_Some r f r' :
  Victim r = Some (f, r') →
  f ∈ lru_list r ∧ (∀ g, g ∈ lru_list r' → g ∈ lru_list r) ∧ capacity r' = capacity r.
Proof.
  unfold Victim. destruct (reverse (lru_list r)) as [|g older] eqn:E; [done|].
  intros [= -> <-]. simpl.
  assert (Hl : lru_list r = reverse older ++ [f]).
  { rewrite <- (reverse_involutive (lru_list r)), E. by rewrite reverse_cons. }
  rewrite Hl. split; [|split; [|done]].
  - apply elem_of_app. right. by apply list_elem_of_singleton.
  - intros h Hh. apply elem_of_app. by left.
Qed.

Lemma Pin_elem f r g : g ∈ lru_list (Pin f r) ↔ g ∈ lru_list r ∧ g ≠ f.
Proof. unfold Pin. simpl. rewrite list_elem_of_filter. tauto. Qed.

Lemma Unpin_elem f r g : g ∈ lru_list (Unpin f r) → g ∈ lru_list r ∨ g = f.
Proof.
  unfold Unpin. repeat case_bool_decide; simpl; [tauto | tauto |].
  rewrite elem_of_cons. tauto.
Qed.

(** The loop over the page table finds a key of [f] when there is one. *)
Lemma find_resident_found f (t : gmap page_id_t frame_id_t) pid :
  t !! pid = Some f → t !! find_resident f t = Some f.
Proof.
  intros H. unfold find_resident.
  destruct (List.find _ (map_to_list t)) as [[k g]|] eqn:E.
  - apply find_some in E as [Hin Hg]. simpl in *.
    apply bool_decide_eq_true in Hg as ->.
    apply list_elem_of_In in Hin. by apply elem_of_map_to_list in Hin.
  - exfalso. assert (Hin : In (pid, f) (map_to_list t)).
    { apply list_elem_of_In. by apply elem_of_map_to_list. }
    pose proof (find_none _ _ E (pid, f) Hin) as Hf. simpl in Hf.
    by apply bool_decide_eq_false in Hf.
Qed.

Lemma find_resident_none f (t : gmap page_id_t frame_id_t) :
  (∀ pid, t !! pid ≠ Some f) → find_resident f t = -1.
Proof.
  intros H. unfold find_resident.
  destruct (List.find _ (map_to_list t)) as [[k g]|] eqn:E; [|done].
  apply find_some in E as [Hin Hg]. simpl in *.
  apply bool_decide_eq_true in Hg as ->.
  apply list_elem_of_In in Hin. apply elem_of_map_to_list in Hin.
  by destruct (H k).
Qed.

Lemma lookup_invalid_absurd (t : gmap page_id_t frame_id_t) f :
  t !! INVALID_PAGE_ID = None → t !! (-1) = Some f → False.
Proof. unfold INVALID_PAGE_ID. intros H1 H2. congruence. Qed.

Lemma forallb_pinned (s : BPM) :
  all_pinned s → forallb (λ p, negb (pin_count_ p =? 0)) (pages_ s) = true.
Proof.
  intros H. apply forallb_forall. intros p Hp.
  apply list_elem_of_In, list_elem_of_lookup in Hp as [f Hf].
  specialize (H f p Hf). destruct (Z.eqb_spec (pin_count_ p) 0); [lia | done].
Qed.

End BufferPoolFrames.

(* --------------------------------------------------------------------- *)
(** ** UnpinPage, DeletePage, NewPage on a fully pinned pool, find_replace *)
(* --------------------------------------------------------------------- *)

Section FixedWidth.
Import BufferPool.

Lemma to_int32_small z : - INT32_MAX - 1 ≤ z ≤ INT32_MAX → to_int32 z = z.
Proof. unfold to_int32, INT32_MAX. intros Hz. Z.div_mod_to_equations. lia. Qed.

Lemma to_int32_range z : - INT32_MAX - 1 ≤ to_int32 z ≤ INT32_MAX.
Proof. unfold to_int32, INT32_MAX. Z.div_mod_to_equations. lia. Qed.

Lemma to_uint32_small z : 0 ≤ z ≤ UINT32_MAX → to_uint32 z = z.
Proof. unfold to_uint32, UINT32_MAX. intros Hz. by apply Z.mod_small; lia. Qed.

(** Adding a non-zero [uint32_t] always changes a [page_id_t]. *)
Lemma to_int32_add_ne z n :
  - INT32_MAX - 1 ≤ z ≤ INT32_MAX → 0 < n ≤ UINT32_MAX → to_int32 (z + n) ≠ z.
Proof.
  unfold to_int32, INT32_MAX, UINT32_MAX. intros Hz Hn. Z.div_mod_to_equations. lia.
Qed.

End FixedWidth.

Section BufferPoolCalls.
Import BufferPool.

Lemma set_is_dirty_same p : set_is_dirty (is_dirty_ p) p = p.
Proof. by destruct p. Qed.

(** With every frame pinned [NewPgImp] takes a page id and gives up. *)
Lemma NewPgImp_all_pinned (s : BPM) :
  all_pinned s →
  ValidatePageId (next_page_id_ s) s = true →
  NewPgImp s =
    Some (None, set_next_page_id (to_int32 (next_page_id_ s + num_instances_ s)) s).
Proof.
  intros Hpin Hval. apply forallb_pinned in Hpin.
  unfold NewPgImp, AllocatePage.
  destruct s as [ni ii np ps t fl r d lg].
  unfold ValidatePageId in *. cbn in *. rewrite Hval. cbn. by rewrite Hpin.
Qed.

End BufferPoolCalls.

(** C3, as amended. [UnpinPgImp] on a resident page whose pin count is
    already zero returns false; the page table, the free list, the
    replacer, the allocator, the disk and the frame's page id, data and
    pin count are as before, and the frame's dirty bit is set when
    [is_dirty] is true (the dirty step runs before the pin-count check). *)
Theorem UnpinPgImp_zero_pin (page_id : BufferPool.page_id_t) (is_dirty : bool)
    (s : BufferPool.BufferPoolManagerInstance) (f : BufferPool.frame_id_t)
    (p : BufferPool.Page) :
  BufferPool.page_table_ s !! page_id = Some f →
  BufferPool.pages_ s !! f = Some p →
  BufferPool.pin_count_ p = 0 →
  BufferPool.UnpinPgImp page_id is_dirty s =
    (false,
     BufferPool.set_pages
       (<[f := BufferPool.set_is_dirty (is_dirty || BufferPool.is_dirty_ p) p]>
          (BufferPool.pages_ s)) s).
Proof.
  intros Ht Hp Hpin. unfold BufferPool.UnpinPgImp. rewrite Ht.
  destruct is_dirty; simpl.
  - rewrite (upd_frame_as_insert s f _ p Hp).
    rewrite (frame_lookup _ f (BufferPool.set_is_dirty true p)).
    + simpl. by rewrite Hpin.
    + simpl. apply list_lookup_insert_eq. by eapply lookup_lt_Some.
  - rewrite (frame_lookup s f p Hp), Hpin. simpl.
    by rewrite set_is_dirty_same, list_insert_id, set_pages_same.
Qed.

Lemma UnpinPgImp_zero_pin_witness :
  let p := BufferPool.mkPage [x00] 0 0 false in
  let s := BufferPool.mkBPM 1 0 1 [p] {[ 0 := 0%nat ]} []
             (BufferPool.mkLRU [0%nat] 1) (λ _, []) [] in
  BufferPool.page_table_ s !! 0 = Some 0%nat ∧
  BufferPool.UnpinPgImp 0 true s =
    (false, BufferPool.set_pages [BufferPool.set_is_dirty true p] s).
Proof.
  intros p s. split; [reflexivity|].
  apply (UnpinPgImp_zero_pin 0 true s 0%nat p); reflexivity.
Defined.

(** C3, as stated, fails. After NewPage and one Unpin the page 0 is
    resident with pin count zero and clean; a second Unpin with
    [is_dirty = true] returns false and leaves the frame dirty. *)
Lemma Unpin_at_zero_sets_dirty_bit :
  ∃ s0 s,
    BufferPool.new_BufferPoolManagerInstance 4 1 1 0 (λ _, []) = Some s0 ∧
    BufferPool.run [BufferPool.OpNewPage; BufferPool.OpUnpinPage 0 false] s0 = Some s ∧
    BufferPool.page_table_ s !! 0 = Some 0%nat ∧
    BufferPool.pin_count_ (BufferPool.frame s 0%nat) = 0 ∧
    BufferPool.is_dirty_ (BufferPool.frame s 0%nat) = false ∧
    (BufferPool.UnpinPgImp 0 true s).1 = false ∧
    BufferPool.is_dirty_
      (BufferPool.frame (BufferPool.UnpinPgImp 0 true s).2 0%nat) = true.
Proof.
  eexists _, _. split; [reflexivity|]. split; [vm_compute; reflexivity|].
  vm_compute. repeat split.
Qed.

(** C5, as amended. [DeletePgImp] on a page that is not resident returns
    true and changes nothing; on a resident pinned page it returns false
    and changes nothing; on a resident unpinned page it writes the page
    out when it is dirty and its id is not the sentinel, deallocates the
    id, erases the mapping, resets the frame, appends the frame to the
    free list and returns true. For the sentinel [FlushPgImp] refuses the
    write: the same steps are taken without it. *)
Theorem DeletePgImp_spec (page_id : BufferPool.page_id_t)
    (s : BufferPool.BufferPoolManagerInstance) :
  (BufferPool.page_table_ s !! page_id = None →
   BufferPool.DeletePgImp page_id s = (true, s)) ∧
  (∀ f p, BufferPool.page_table_ s !! page_id = Some f →
     BufferPool.pages_ s !! f = Some p → 0 < BufferPool.pin_count_ p →
     BufferPool.DeletePgImp page_id s = (false, s)) ∧
  (∀ f p, BufferPool.page_table_ s !! page_id = Some f →
     BufferPool.pages_ s !! f = Some p → BufferPool.pin_count_ p ≤ 0 →
     page_id ≠ BufferPool.INVALID_PAGE_ID →
     BufferPool.DeletePgImp page_id s =
       (true,
        BufferPool.mkBPM
          (BufferPool.num_instances_ s) (BufferPool.instance_index_ s)
          (BufferPool.next_page_id_ s)
          (<[f := BufferPool.mkPage (BufferPool.data_ p)
                    BufferPool.INVALID_PAGE_ID 0 false]> (BufferPool.pages_ s))
          (delete page_id (BufferPool.page_table_ s))
          (BufferPool.free_list_ s ++ [f])
          (BufferPool.replacer_ s)
          (if BufferPool.is_dirty_ p
           then λ q, if decide (q = page_id) then BufferPool.data_ p
                     else BufferPool.disk_ s q
           else BufferPool.disk_ s)
          (BufferPool.log_ s ++
           (if BufferPool.is_dirty_ p
            then [BufferPool.EvWritePage page_id (BufferPool.data_ p)] else []) ++
           [BufferPool.EvDeallocatePage page_id; BufferPool.EvTableErase page_id]))) ∧
  (∀ f p, page_id = BufferPool.INVALID_PAGE_ID →
     BufferPool.page_table_ s !! page_id = Some f →
     BufferPool.pages_ s !! f = Some p → BufferPool.pin_count_ p ≤ 0 →
     BufferPool.DeletePgImp page_id s =
       (true,
        BufferPool.mkBPM
          (BufferPool.num_instances_ s) (BufferPool.instance_index_ s)
          (BufferPool.next_page_id_ s)
          (<[f := BufferPool.mkPage (BufferPool.data_ p)
                    BufferPool.INVALID_PAGE_ID 0 false]> (BufferPool.pages_ s))
          (delete page_id (BufferPool.page_table_ s))
          (BufferPool.free_list_ s ++ [f])
          (BufferPool.replacer_ s)
          (BufferPool.disk_ s)
          (BufferPool.log_ s ++
           [BufferPool.EvDeallocatePage page_id; BufferPool.EvTableErase page_id]))).
Proof.
  split; [|split; [|split]]; cycle 3.
  { intros f p Hinv Ht Hp Hpin. unfold BufferPool.DeletePgImp.
    rewrite Ht, (frame_lookup s f p Hp).
    destruct (Z.ltb_spec 0 (BufferPool.pin_count_ p)); [lia|].
    unfold BufferPool.FlushPgImp. rewrite Ht.
    rewrite bool_decide_eq_true_2 by done.
    assert (Hps : alter (BufferPool.set_page_id BufferPool.INVALID_PAGE_ID) f
                    (alter (BufferPool.set_pin_count 0) f
                       (alter (BufferPool.set_is_dirty false) f (BufferPool.pages_ s))) =
                  <[f := BufferPool.mkPage (BufferPool.data_ p)
                           BufferPool.INVALID_PAGE_ID 0 false]> (BufferPool.pages_ s)).
    { assert (Hlen : (f < length (BufferPool.pages_ s))%nat) by by eapply lookup_lt_Some.
      rewrite (alter_as_insert (BufferPool.pages_ s) f _ p Hp).
      by rewrite !alter_insert_eq. }
    destruct s as [ni ii np ps t fl r d lg].
    destruct (BufferPool.is_dirty_ p); bpm_simpl; rewrite Hps;
      by rewrite <- (app_assoc lg [_] [_]). }
  - intros Ht. unfold BufferPool.DeletePgImp. by rewrite Ht.
  - intros f p Ht Hp Hpin. unfold BufferPool.DeletePgImp.
    rewrite Ht, (frame_lookup s f p Hp).
    by destruct (Z.ltb_spec 0 (BufferPool.pin_count_ p)); [|lia].
  - intros f p Ht Hp Hpin Hvalid. unfold BufferPool.DeletePgImp.
    rewrite Ht, (frame_lookup s f p Hp).
    destruct (Z.ltb_spec 0 (BufferPool.pin_count_ p)); [lia|].
    unfold BufferPool.FlushPgImp. rewrite Ht.
    rewrite bool_decide_eq_false_2 by done.
    rewrite (frame_lookup s f p Hp).
    assert (Hlen : (f < length (BufferPool.pages_ s))%nat) by by eapply lookup_lt_Some.
    assert (Hps : alter (BufferPool.set_page_id BufferPool.INVALID_PAGE_ID) f
                    (alter (BufferPool.set_pin_count 0) f
                       (alter (BufferPool.set_is_dirty false) f (BufferPool.pages_ s))) =
                  <[f := BufferPool.mkPage (BufferPool.data_ p)
                           BufferPool.INVALID_PAGE_ID 0 false]> (BufferPool.pages_ s)).
    { rewrite (alter_as_insert (BufferPool.pages_ s) f _ p Hp).
      by rewrite !alter_insert_eq. }
    destruct s as [ni ii np ps t fl r d lg].
    destruct (BufferPool.is_dirty_ p); bpm_simpl; rewrite Hps.
    + rewrite <- (app_assoc lg [_] [_]), <- (app_assoc lg _ [_]). done.
    + rewrite <- (app_assoc lg [_] [_]). done.
Qed.

Lemma DeletePgImp_spec_witness :
  let p := BufferPool.mkPage [x07] 3 0 true in
  let s := BufferPool.mkBPM 1 0 4 [p] {[ 3 := 0%nat ]} []
             (BufferPool.mkLRU [0%nat] 1) (λ _, []) [] in
  (BufferPool.DeletePgImp 5 s).1 = true ∧
  (BufferPool.DeletePgImp 3 s).1 = true ∧
  BufferPool.log_ (BufferPool.DeletePgImp 3 s).2 =
    [BufferPool.EvWritePage 3 [x07]; BufferPool.EvDeallocatePage 3;
     BufferPool.EvTableErase 3] ∧
  BufferPool.free_list_ (BufferPool.DeletePgImp 3 s).2 = [0%nat].
Proof.
  intros p s. split.
  - by rewrite (proj1 (DeletePgImp_spec 5 s)).
  - rewrite (proj1 (proj2 (proj2 (DeletePgImp_spec 3 s))) 0%nat p);
      [ simpl; repeat split | reflexivity | reflexivity | simpl; lia | done ].
Defined.

(** The state in which the sentinel is resident: [FetchPgImp] does not
    refuse [INVALID_PAGE_ID], so after FetchPage(-1), a write to the
    buffer and UnpinPage(-1, true) on a pool of one frame, the page table
    maps [-1] to frame 0, which is dirty and unpinned. *)
Lemma sentinel_resident_state :
  ∃ s0 s,
    BufferPool.new_BufferPoolManagerInstance 4 1 1 0 (λ _, []) = Some s0 ∧
    BufferPool.run [BufferPool.OpFetchPage (-1);
                    BufferPool.OpWriteData 0%nat [x01; x02; x03; x04];
                    BufferPool.OpUnpinPage (-1) true] s0 = Some s ∧
    s = BufferPool.mkBPM 1 0 0
          [BufferPool.mkPage [x01; x02; x03; x04] (-1) 0 true]
          {[ -1 := 0%nat ]} [] (BufferPool.mkLRU [0%nat] 1) (λ _, [])
          [BufferPool.EvTableErase (-1); BufferPool.EvReadPage (-1)].
Proof.
  eexists _, _. split; [reflexivity|]. split; [|reflexivity].
  vm_compute. reflexivity.
Qed.

(** C5, as stated, fails for the sentinel. In the state above the page
    [-1] is resident, unpinned and dirty; DeletePage(-1) returns true,
    deallocates, erases the mapping and frees the frame, but no
    [WritePage] is made: the disk is as before and the log has no write. *)
Lemma DeletePgImp_sentinel_not_flushed :
  let s := BufferPool.mkBPM 1 0 0
             [BufferPool.mkPage [x01; x02; x03; x04] (-1) 0 true]
             {[ -1 := 0%nat ]} [] (BufferPool.mkLRU [0%nat] 1) (λ _, [])
             [BufferPool.EvTableErase (-1); BufferPool.EvReadPage (-1)] in
  (∃ s0, BufferPool.new_BufferPoolManagerInstance 4 1 1 0 (λ _, []) = Some s0 ∧
         BufferPool.run [BufferPool.OpFetchPage (-1);
                         BufferPool.OpWriteData 0%nat [x01; x02; x03; x04];
                         BufferPool.OpUnpinPage (-1) true] s0 = Some s) ∧
  BufferPool.page_table_ s !! (-1) = Some 0%nat ∧
  BufferPool.pin_count_ (BufferPool.frame s 0%nat) = 0 ∧
  BufferPool.is_dirty_ (BufferPool.frame s 0%nat) = true ∧
  (BufferPool.DeletePgImp (-1) s).1 = true ∧
  BufferPool.log_ (BufferPool.DeletePgImp (-1) s).2 =
    BufferPool.log_ s ++
    [BufferPool.EvDeallocatePage (-1); BufferPool.EvTableErase (-1)] ∧
  BufferPool.disk_ (BufferPool.DeletePgImp (-1) s).2 (-1) = [] ∧
  BufferPool.disk_ (BufferPool.DeletePgImp (-1) s).2 (-1) ≠
    BufferPool.data_ (BufferPool.frame s 0%nat).
Proof.
  intros s. split.
  { destruct sentinel_resident_state as (s0 & s1 & H0 & H1 & ->).
    exists s0. by split. }
  vm_compute. repeat split. discriminate.
Qed.



(** C9, as amended. When [NewPgImp] returns no page because every frame
    is pinned, [next_page_id_] has advanced by [num_instances_] all the
    same, in the arithmetic of [page_id_t]: the new value is the sum when
    the sum is at most [INT32_MAX] and the sum wrapped around otherwise,
    and in both cases it differs from the old value, so the failed call
    has consumed a page id. The fields of the allocator hold values of
    their types ([alloc_ok]). *)
Theorem NewPgImp_all_pinned_consumes_id (s : BufferPool.BufferPoolManagerInstance) :
  BufferPool.all_pinned s →
  BufferPool.ValidatePageId (BufferPool.next_page_id_ s) s = true →
  BufferPool.alloc_ok s →
  ∃ s', BufferPool.NewPgImp s = Some (None, s') ∧
        BufferPool.next_page_id_ s' =
          BufferPool.to_int32 (BufferPool.next_page_id_ s + BufferPool.num_instances_ s) ∧
        BufferPool.next_page_id_ s' ≠ BufferPool.next_page_id_ s ∧
        (BufferPool.next_page_id_ s + BufferPool.num_instances_ s ≤ BufferPool.INT32_MAX →
         BufferPool.next_page_id_ s' =
           BufferPool.next_page_id_ s + BufferPool.num_instances_ s) ∧
        BufferPool.num_instances_ s' = BufferPool.num_instances_ s.
Proof.
  intros Hpin Hval (Hni & Hii & Hnp). eexists. split; [by apply NewPgImp_all_pinned|].
  destruct s as [ni ii np ps t fl r d lg]; simpl in *.
  split; [done|]. split; [by apply to_int32_add_ne|]. split; [|done].
  intros Hle. apply to_int32_small. lia.
Qed.

Lemma NewPgImp_all_pinned_consumes_id_witness :
  let s := BufferPool.mkBPM 2 1 5 [BufferPool.mkPage [x00] 3 1 false]
             {[ 3 := 0%nat ]} [] (BufferPool.mkLRU [] 1) (λ _, []) [] in
  ∃ s', BufferPool.NewPgImp s = Some (None, s') ∧
        BufferPool.next_page_id_ s' = 5 + 2 ∧
        BufferPool.next_page_id_ s' ≠ 5 ∧
        BufferPool.num_instances_ s' = 2.
Proof.
  intros s.
  destruct (NewPgImp_all_pinned_consumes_id s) as (s' & H1 & _ & H3 & H4 & H5).
  - intros [|f] p Hf; simpl in Hf; [|done]. injection Hf as <-. simpl. lia.
  - reflexivity.
  - unfold BufferPool.alloc_ok, BufferPool.INT32_MAX, BufferPool.UINT32_MAX. simpl. lia.
  - exists s'. split; [exact H1|]. split; [|split; [exact H3 | exact H5]].
    apply H4. unfold BufferPool.INT32_MAX. simpl. lia.
Defined.

(** C9, as stated, fails where the sum does not fit in [page_id_t]. A
    pool of one frame with [num_instances = 2^30]: the first NewPage takes
    id 0 and pins the frame; the second finds every frame pinned and
    returns no page, and [next_page_id_], which was [2^30], is now
    [-2^31] and not [2^30 + 2^30]. *)
Lemma NewPgImp_all_pinned_next_id_wraps :
  ∃ s0 s s',
    BufferPool.new_BufferPoolManagerInstance 4 1 1073741824 0 (λ _, []) = Some s0 ∧
    BufferPool.run [BufferPool.OpNewPage] s0 = Some s ∧
    BufferPool.all_pinned s ∧
    BufferPool.NewPgImp s = Some (None, s') ∧
    BufferPool.next_page_id_ s = 1073741824 ∧
    BufferPool.num_instances_ s = 1073741824 ∧
    BufferPool.next_page_id_ s' = -2147483648 ∧
    BufferPool.next_page_id_ s' ≠
      BufferPool.next_page_id_ s + BufferPool.num_instances_ s.
Proof.
  eexists _, _, _. split; [reflexivity|]. split; [vm_compute; reflexivity|].
  split.
  { intros [|f] p Hf; simpl in Hf; [|done]. injection Hf as <-. simpl. lia. }
  split; [vm_compute; reflexivity|]. simpl. repeat split. lia.
Qed.

(** C4, as amended. [find_replace] takes the head of the free list when
    there is one. Otherwise it takes the replacer's victim; when that
    frame holds a resident page with a real page id (the frame carries
    the id of its page-table entry, and the sentinel is not a key of the
    page table) and the page is dirty, the page's data is written to disk
    and then its page-table entry is erased (when it is clean, the entry
    is erased without a write). It returns false exactly when the free
    list and the replacer are both empty, and changes nothing then. *)
Theorem find_replace_spec (s : BufferPool.BufferPoolManagerInstance) :
  (∀ f rest, BufferPool.free_list_ s = f :: rest →
     BufferPool.find_replace s = (Some f, BufferPool.set_free_list rest s)) ∧
  (∀ f r, BufferPool.free_list_ s = [] →
     BufferPool.Victim (BufferPool.replacer_ s) = Some (f, r) →
     (BufferPool.find_replace s).1 = Some f ∧
     ∀ pid p,
       BufferPool.page_table_ s !! pid = Some f →
       BufferPool.pages_ s !! f = Some p →
       BufferPool.page_id_ p = pid →
       BufferPool.page_table_ s !! BufferPool.INVALID_PAGE_ID = None →
       BufferPool.find_replace s =
         (Some f,
          BufferPool.mkBPM
            (BufferPool.num_instances_ s) (BufferPool.instance_index_ s)
            (BufferPool.next_page_id_ s)
            (if BufferPool.is_dirty_ p
             then <[f := BufferPool.set_pin_count 0 p]> (BufferPool.pages_ s)
             else BufferPool.pages_ s)
            (delete pid (BufferPool.page_table_ s))
            []
            r
            (if BufferPool.is_dirty_ p
             then λ q, if decide (q = pid) then BufferPool.data_ p
                       else BufferPool.disk_ s q
             else BufferPool.disk_ s)
            (BufferPool.log_ s ++
             (if BufferPool.is_dirty_ p
              then [BufferPool.EvWritePage pid (BufferPool.data_ p)] else []) ++
             [BufferPool.EvTableErase pid]))) ∧
  ((BufferPool.find_replace s).1 = None ↔
   BufferPool.free_list_ s = [] ∧ BufferPool.Size (BufferPool.replacer_ s) = 0%nat) ∧
  ((BufferPool.find_replace s).1 = None → (BufferPool.find_replace s).2 = s).
Proof.
  split; [|split; [|split]].
  - intros f rest Hfl. unfold BufferPool.find_replace. by rewrite Hfl.
  - intros f r Hfl Hv. unfold BufferPool.find_replace. rewrite Hfl, Hv.
    split; [by case_bool_decide|].
    intros pid p Ht Hp Hpid Hvalid.
    pose proof (find_resident_found f _ pid Ht) as Hk.
    replace (BufferPool.page_table_ (BufferPool.set_replacer r s))
      with (BufferPool.page_table_ s) by (by destruct s).
    rewrite bool_decide_eq_true_2.
    2:{ intros Heq. rewrite Heq in Hk.
        exact (lookup_invalid_absurd _ _ Hvalid Hk). }
    assert (Hf1 : BufferPool.frame (BufferPool.set_replacer r s) f = p).
    { by apply frame_lookup. }
    rewrite Hf1. destruct (BufferPool.is_dirty_ p) eqn:Hd.
    + rewrite (frame_lookup _ f (BufferPool.set_pin_count 0 p)).
      2:{ bpm_simpl. rewrite list_lookup_alter_eq. destruct s; simpl in *.
          by rewrite Hp. }
      simpl. rewrite Hpid.
      rewrite (upd_frame_as_insert _ f _ p) by (by destruct s).
      destruct s as [ni ii np ps t fl rr d lg]; bpm_simpl. subst.
      by rewrite <- (app_assoc lg [_] [_]).
    + rewrite Hf1, Hpid. destruct s; bpm_simpl. by subst.
  - unfold BufferPool.find_replace.
    destruct (BufferPool.free_list_ s) as [|f rest] eqn:Hfl.
    + destruct (BufferPool.Victim (BufferPool.replacer_ s)) as [[f r]|] eqn:Hv.
      * split.
        -- by case_bool_decide.
        -- intros [_ Hsz]. apply Victim_None in Hsz. congruence.
      * split; [|done]. intros _. split; [done|]. by apply Victim_None.
    + split; [done|]. by intros [? _].
  - unfold BufferPool.find_replace.
    destruct (BufferPool.free_list_ s) as [|f rest]; [|done].
    destruct (BufferPool.Victim (BufferPool.replacer_ s)) as [[f r]|]; [|done].
    by case_bool_decide.
Qed.

Lemma find_replace_spec_witness :
  let p := BufferPool.mkPage [x07] 3 0 true in
  let s := BufferPool.mkBPM 1 0 4 [p] {[ 3 := 0%nat ]} []
             (BufferPool.mkLRU [0%nat] 1) (λ _, []) [] in
  (BufferPool.find_replace s).1 = Some 0%nat ∧
  BufferPool.log_ (BufferPool.find_replace s).2 =
    [BufferPool.EvWritePage 3 [x07]; BufferPool.EvTableErase 3] ∧
  BufferPool.page_table_ (BufferPool.find_replace s).2 = delete 3 {[ 3 := 0%nat ]}.
Proof.
  intros p s.
  destruct (proj1 (proj2 (find_replace_spec s)) 0%nat (BufferPool.mkLRU [] 1)
              eq_refl eq_refl) as [H1 H2].
  split; [exact H1|].
  rewrite (H2 3 p eq_refl eq_refl eq_refl eq_refl). simpl. split; reflexivity.
Defined.

(** C4, as stated, fails when the victim's page is the sentinel. In the
    state where [-1] is resident in frame 0, dirty and unpinned, the free
    list is empty and the replacer's victim is frame 0; [find_replace]
    returns the frame but takes the key [-1] for "no page": nothing is
    written (disk and log are as before) and the entry is not erased. *)
Lemma find_replace_skips_sentinel_page :
  let s := BufferPool.mkBPM 1 0 0
             [BufferPool.mkPage [x01; x02; x03; x04] (-1) 0 true]
             {[ -1 := 0%nat ]} [] (BufferPool.mkLRU [0%nat] 1) (λ _, [])
             [BufferPool.EvTableErase (-1); BufferPool.EvReadPage (-1)] in
  (∃ s0, BufferPool.new_BufferPoolManagerInstance 4 1 1 0 (λ _, []) = Some s0 ∧
         BufferPool.run [BufferPool.OpFetchPage (-1);
                         BufferPool.OpWriteData 0%nat [x01; x02; x03; x04];
                         BufferPool.OpUnpinPage (-1) true] s0 = Some s) ∧
  BufferPool.free_list_ s = [] ∧
  BufferPool.Victim (BufferPool.replacer_ s) = Some (0%nat, BufferPool.mkLRU [] 1) ∧
  BufferPool.page_table_ s !! (-1) = Some 0%nat ∧
  BufferPool.is_dirty_ (BufferPool.frame s 0%nat) = true ∧
  (BufferPool.find_replace s).1 = Some 0%nat ∧
  BufferPool.log_ (BufferPool.find_replace s).2 = BufferPool.log_ s ∧
  BufferPool.disk_ (BufferPool.find_replace s).2 (-1) ≠
    BufferPool.data_ (BufferPool.frame s 0%nat) ∧
  BufferPool.page_table_ (BufferPool.find_replace s).2 !! (-1) = Some 0%nat.
Proof.
  intros s. split.
  { destruct sentinel_resident_state as (s0 & s1 & H0 & H1 & ->).
    exists s0. by split. }
  vm_compute. repeat split. discriminate.
Qed.

(* --------------------------------------------------------------------- *)
(** ** The invariant of the pool                                          *)
(* --------------------------------------------------------------------- *)

Section BufferPoolInvariant.
Import BufferPool.

Lemma lookup_alter_pages (ps : list Page) f h j :
  alter h f ps !! j = if decide (j = f) then h <$> ps !! f else ps !! j.
Proof.
  case_decide as Hj.
  - subst. apply list_lookup_alter_eq.
  - by apply list_lookup_alter_ne.
Qed.

Lemma same_meta_refl ps : same_meta ps ps.
Proof. intros f. destruct (ps !! f) as [p|] eqn:E; [right|left]; eauto 10. Qed.

Lemma same_meta_alter ps f h :
  (∀ p, pin_count_ (h p) = pin_count_ p ∧ page_id_ (h p) = page_id_ p) →
  same_meta ps (alter h f ps).
Proof.
  intros Hh j. rewrite lookup_alter_pages. case_decide as Hj.
  - subst. destruct (ps !! f) as [p|] eqn:E; simpl; [right|left; done].
    exists p, (h p). by destruct (Hh p).
  - destruct (ps !! j) as [p|] eqn:E; [right|left]; eauto 10.
Qed.

Lemma same_meta_trans ps1 ps2 ps3 :
  same_meta ps1 ps2 → same_meta ps2 ps3 → same_meta ps1 ps3.
Proof.
  intros H12 H23 f. destruct (H12 f) as [[? ?]|(p & p' & ? & ? & ? & ?)];
    destruct (H23 f) as [[? ?]|(q & q' & ? & ? & ? & ?)]; simplify_eq.
  - by left.
  - right. exists p, q'. repeat split; congruence.
Qed.

Lemma wf_same_meta (s s' : BPM) :
  wf s →
  same_meta (pages_ s) (pages_ s') →
  page_table_ s' = page_table_ s →
  free_list_ s' = free_list_ s →
  lru_list (replacer_ s') = lru_list (replacer_ s) →
  num_instances_ s' = num_instances_ s →
  instance_index_ s' = instance_index_ s →
  next_page_id_ s' = next_page_id_ s →
  wf s'.
Proof.
  intros [Hfree Hlru Htab Hnd Hval Hal] Hm Ht Hf Hr Hn Hi Hnp.
  assert (Hun : ∀ f, unpinned_frame s f → unpinned_frame s' f).
  { intros f (p & Hp & Hpin). unfold unpinned_frame.
    destruct (Hm f) as [[? ?]|(q & q' & ? & ? & ? & ?)]; simplify_eq.
    exists q'. split; [done | congruence]. }
  constructor.
  - rewrite Hf. auto.
  - rewrite Hr. auto.
  - rewrite Ht, Hf. intros pid f Hpf.
    destruct (Htab pid f Hpf) as [(p & Hp & Hpid) Hnf]. split; [|done].
    destruct (Hm f) as [[? ?]|(q & q' & ? & ? & ? & ?)]; simplify_eq.
    exists q'. split; [done | congruence].
  - by rewrite Hf.
  - by rewrite Ht.
  - unfold alloc_ok. by rewrite Hn, Hi, Hnp.
Qed.

(** What the constructor builds, and when. *)
Lemma new_BufferPoolManagerInstance_Some PAGE_SIZE pool_size ni ii disk s0 :
  new_BufferPoolManagerInstance PAGE_SIZE pool_size ni ii disk = Some s0 →
  0 < Z.of_N ni ≤ UINT32_MAX ∧ 0 ≤ Z.of_N ii < Z.of_N ni ∧
  s0 = mkBPM (Z.of_N ni) (Z.of_N ii) (to_int32 (Z.of_N ii))
         (replicate pool_size (new_Page PAGE_SIZE)) ∅ (seq 0 pool_size)
         (new_LRUReplacer pool_size) disk [].
Proof.
  unfold new_BufferPoolManagerInstance, UINT32_MAX.
  destruct (N.leb_spec ni 4294967295); [|done].
  destruct (N.leb_spec ii 4294967295); [|done].
  destruct (N.ltb_spec 0 ni); [|done].
  destruct (N.ltb_spec ii ni); [|done]. simpl. intros [= <-].
  split; [lia|]. split; [lia|done].
Qed.

(** The constructor establishes the invariant. *)
Lemma new_BufferPoolManagerInstance_wf PAGE_SIZE pool_size ni ii disk s0 :
  new_BufferPoolManagerInstance PAGE_SIZE pool_size ni ii disk = Some s0 → wf s0.
Proof.
  intros Hnew.
  apply new_BufferPoolManagerInstance_Some in Hnew as (Hni & Hii & ->).
  constructor; simpl.
  - intros f Hf. apply elem_of_seq in Hf. exists (new_Page PAGE_SIZE).
    split; [|done]. apply lookup_replicate_2. lia.
  - intros f Hf. by apply elem_of_nil in Hf.
  - intros pid f Hpf. by rewrite lookup_empty in Hpf.
  - apply NoDup_seq.
  - apply lookup_empty.
  - unfold alloc_ok; simpl.
    split; [done|]. split; [done|]. apply to_int32_range.
Qed.

(** [AllocatePage] returns when its assertion holds, and the invariant
    holds of the state it leaves. *)
Lemma AllocatePage_Some (s : BPM) :
  ValidatePageId (next_page_id_ s) s = true →
  AllocatePage s =
    Some (next_page_id_ s,
          set_next_page_id (to_int32 (next_page_id_ s + num_instances_ s)) s).
Proof.
  intros Hval. unfold AllocatePage.
  replace (ValidatePageId (next_page_id_ s)
             (set_next_page_id (to_int32 (next_page_id_ s + num_instances_ s)) s))
    with (ValidatePageId (next_page_id_ s) s) by (by destruct s).
  by rewrite Hval.
Qed.

Lemma AllocatePage_None (s : BPM) :
  ValidatePageId (next_page_id_ s) s = false → AllocatePage s = None.
Proof.
  intros Hval. unfold AllocatePage.
  replace (ValidatePageId (next_page_id_ s)
             (set_next_page_id (to_int32 (next_page_id_ s + num_instances_ s)) s))
    with (ValidatePageId (next_page_id_ s) s) by (by destruct s).
  by rewrite Hval.
Qed.

Lemma NewPgImp_Some_valid (s : BPM) r :
  NewPgImp s = Some r → ValidatePageId (next_page_id_ s) s = true.
Proof.
  intros Hnew. destruct (ValidatePageId (next_page_id_ s) s) eqn:E; [done|].
  unfold NewPgImp in Hnew. by rewrite (AllocatePage_None s E) in Hnew.
Qed.

Lemma AllocatePage_wf (s : BPM) :
  wf s → wf (set_next_page_id (to_int32 (next_page_id_ s + num_instances_ s)) s).
Proof.
  intros [Hfree Hlru Htab Hnd Hval (Hni & Hii & Hnp)].
  destruct s as [ni ii np ps t fl r d lg]; simpl in *.
  constructor; simpl; try done. unfold alloc_ok; simpl.
  split; [done|]. split; [done|]. apply to_int32_range.
Qed.

(** While the allocator has page ids left, its assertion holds. *)
Lemma ValidatePageId_ok (s : BPM) :
  alloc_ok s → next_id_ok s → ValidatePageId (next_page_id_ s) s = true.
Proof.
  intros (Hni & Hii & Hnp) (Hnn & Hrem). unfold ValidatePageId.
  rewrite to_uint32_small; [by apply Z.eqb_eq|].
  unfold INT32_MAX, UINT32_MAX in *. lia.
Qed.

(** Under the invariant a resident page has a real page id, and its
    frame is in the array and carries that id. *)
Lemma wf_resident (s : BPM) pid f :
  wf s → page_table_ s !! pid = Some f →
  pid ≠ INVALID_PAGE_ID ∧ ∃ p, pages_ s !! f = Some p ∧ page_id_ p = pid.
Proof.
  intros Hwf Ht. split.
  - intros ->. pose proof (wf_valid _ Hwf) as Hv. congruence.
  - by destruct (wf_table _ Hwf _ _ Ht).
Qed.

End BufferPoolInvariant.

Section FindReplaceInvariant.
Import BufferPool.

(** Dropping frames from the free list or the replacer, or entries from
    the page table, keeps the invariant. *)
Lemma wf_shrink (s s' : BPM) :
  wf s →
  pages_ s' = pages_ s →
  (∀ pid g, page_table_ s' !! pid = Some g → page_table_ s !! pid = Some g) →
  (∀ g, g ∈ free_list_ s' → g ∈ free_list_ s) →
  NoDup (free_list_ s') →
  (∀ g, g ∈ lru_list (replacer_ s') → g ∈ lru_list (replacer_ s)) →
  num_instances_ s' = num_instances_ s →
  instance_index_ s' = instance_index_ s →
  next_page_id_ s' = next_page_id_ s →
  wf s'.
Proof.
  intros [Hfree Hlru Htab Hnd Hval Hal] Hp Ht Hf Hnd' Hr Hn Hi Hnp.
  constructor.
  - intros g Hg. unfold unpinned_frame. rewrite Hp. by apply Hfree, Hf.
  - intros g Hg. unfold unpinned_frame. rewrite Hp. by apply Hlru, Hr.
  - intros pid g Hg. rewrite Hp.
    destruct (Htab pid g (Ht _ _ Hg)) as [? Hnf]. split; [done|].
    intros Hin. by apply Hnf, Hf.
  - done.
  - destruct (page_table_ s' !! INVALID_PAGE_ID) as [g|] eqn:E; [|done].
    apply Ht in E. congruence.
  - unfold alloc_ok. by rewrite Hn, Hi, Hnp.
Qed.

Lemma find_resident_cases f (t : gmap page_id_t frame_id_t) :
  find_resident f t = -1 ∨ t !! find_resident f t = Some f.
Proof.
  unfold find_resident.
  destruct (List.find _ (map_to_list t)) as [[k g]|] eqn:E; [right|by left].
  apply find_some in E as [Hin Hg]. simpl in *.
  apply bool_decide_eq_true in Hg as ->.
  apply list_elem_of_In in Hin. by apply elem_of_map_to_list in Hin.
Qed.

Lemma find_replace_None (s s' : BPM) : find_replace s = (None, s') → s' = s.
Proof.
  unfold find_replace.
  destruct (free_list_ s) as [|f rest]; [|done].
  destruct (Victim (replacer_ s)) as [[f r]|]; [|by intros [= <-]].
  by case_bool_decide.
Qed.

Lemma set_pin_count_same p : pin_count_ p = 0 → set_pin_count 0 p = p.
Proof. destruct p. simpl. by intros ->. Qed.

(** Under the invariant the frame that [find_replace] hands out is in the
    array and unpinned, no page-table entry maps to it any more, it is
    not in the free list, and the array itself is as before. *)
Lemma find_replace_Some_wf (s s' : BPM) f :
  wf s → find_replace s = (Some f, s') →
  wf s' ∧ pages_ s' = pages_ s ∧ unpinned_frame s f ∧
  (∀ pid, page_table_ s' !! pid ≠ Some f) ∧ (f ∉ free_list_ s') ∧
  (∀ pid g, page_table_ s' !! pid = Some g → page_table_ s !! pid = Some g).
Proof.
  intros Hwf. unfold find_replace.
  destruct (free_list_ s) as [|f0 rest] eqn:Hfl.
  - destruct (Victim (replacer_ s)) as [[f0 r]|] eqn:Hv; [|done].
    apply Victim_Some in Hv as (Hin & Hsub & Hcap).
    destruct (wf_lru _ Hwf f0 Hin) as (p & Hp & Hpin).
    assert (Hf1 : frame (set_replacer r s) f0 = p) by by apply frame_lookup.
    destruct (find_resident_cases f0 (page_table_ s)) as [Hk|Hk].
    + (* no entry for the frame *)
      replace (page_table_ (set_replacer r s)) with (page_table_ s) by (by destruct s).
      rewrite Hk. rewrite bool_decide_eq_false_2 by (intros H; apply H; done).
      intros [= <- <-].
      assert (Hnone : ∀ pid, page_table_ s !! pid ≠ Some f0).
      { intros pid Hpid. apply find_resident_found in Hpid.
        rewrite Hk in Hpid.
        exact (lookup_invalid_absurd _ _ (wf_valid _ Hwf) Hpid). }
      split; [|split; [by destruct s|split; [by exists p|split; [by destruct s|]]]].
      * apply (wf_shrink s); try (by destruct s).
        destruct s; simpl in *. rewrite Hfl. apply NoDup_nil_2.
      * split; [destruct s; simpl in *; rewrite Hfl; apply not_elem_of_nil|].
        by destruct s.
    + (* the frame holds page [k] *)
      replace (page_table_ (set_replacer r s)) with (page_table_ s) by (by destruct s).
      destruct (wf_table _ Hwf _ _ Hk) as [(p' & Hp' & Hpid) _].
      assert (p' = p) as -> by congruence.
      rewrite bool_decide_eq_true_2.
      2:{ intros Heq. rewrite Heq in Hk.
          exact (lookup_invalid_absurd _ _ (wf_valid _ Hwf) Hk). }
      rewrite Hf1.
      assert (Hs2 : (if is_dirty_ p
                     then upd_frame f0 (set_pin_count 0)
                            (WritePage (page_id_ p) (data_ p) (set_replacer r s))
                     else set_replacer r s) =
                    (if is_dirty_ p
                     then WritePage (page_id_ p) (data_ p) (set_replacer r s)
                     else set_replacer r s)).
      { destruct (is_dirty_ p); [|done].
        rewrite (upd_frame_as_insert _ f0 _ p) by (by destruct s).
        rewrite set_pin_count_same by done.
        destruct s; bpm_simpl. by rewrite list_insert_id. }
      rewrite Hs2. clear Hs2.
      assert (Hf2 : frame (if is_dirty_ p
                     then WritePage (page_id_ p) (data_ p) (set_replacer r s)
                     else set_replacer r s) f0 = p).
      { apply frame_lookup. by destruct (is_dirty_ p), s. }
      rewrite Hf2. intros [= <- <-].
      assert (Hpages : pages_ (table_erase (page_id_ p)
                 (if is_dirty_ p
                  then WritePage (page_id_ p) (data_ p) (set_replacer r s)
                  else set_replacer r s)) = pages_ s).
      { by destruct (is_dirty_ p), s. }
      assert (Htab : page_table_ (table_erase (page_id_ p)
                 (if is_dirty_ p
                  then WritePage (page_id_ p) (data_ p) (set_replacer r s)
                  else set_replacer r s)) = delete (page_id_ p) (page_table_ s)).
      { by destruct (is_dirty_ p), s. }
      assert (Hfree : free_list_ (table_erase (page_id_ p)
                 (if is_dirty_ p
                  then WritePage (page_id_ p) (data_ p) (set_replacer r s)
                  else set_replacer r s)) = []).
      { rewrite <- Hfl. by destruct (is_dirty_ p), s. }
      split; [|split; [done|split; [by exists p|split; [|split]]]].
      * apply (wf_shrink s); try done; try (by destruct (is_dirty_ p), s).
        -- rewrite Htab. intros pid g Hg.
           apply lookup_delete_Some in Hg. tauto.
        -- rewrite Hfree. apply NoDup_nil_2.
      * rewrite Htab. intros pid Hq.
        apply lookup_delete_Some in Hq as [Hne Hq].
        destruct (wf_table _ Hwf _ _ Hq) as [(q & Hq' & Hqid) _].
        congruence.
      * rewrite Hfree. apply not_elem_of_nil.
      * rewrite Htab. intros pid g Hg.
        apply lookup_delete_Some in Hg. tauto.
  - intros [= <- <-].
    pose proof (wf_free_nodup _ Hwf) as Hnd. rewrite Hfl in Hnd.
    apply NoDup_cons in Hnd as [Hnotin Hnd].
    split; [|split; [by destruct s|split; [|split; [|split]]]].
    + apply (wf_shrink s); try done; try (by destruct s).
      intros g Hg. rewrite Hfl. apply elem_of_cons. right. by destruct s.
    + apply (wf_free _ Hwf). rewrite Hfl. apply elem_of_cons. by left.
    + intros pid Hpid.
      assert (Hpid' : page_table_ s !! pid = Some f0) by (by destruct s).
      destruct (wf_table _ Hwf _ _ Hpid') as [_ Hnf]. apply Hnf.
      rewrite Hfl. apply elem_of_cons. by left.
    + by destruct s.
    + by destruct s.
Qed.

Lemma find_replace_alloc (s : BPM) :
  num_instances_ (find_replace s).2 = num_instances_ s ∧
  instance_index_ (find_replace s).2 = instance_index_ s ∧
  next_page_id_ (find_replace s).2 = next_page_id_ s.
Proof.
  unfold find_replace.
  destruct (free_list_ s) as [|f0 rest]; [|by destruct s].
  destruct (Victim (replacer_ s)) as [[f0 r]|]; [|done].
  case_bool_decide; [|by destruct s].
  destruct (is_dirty_ (frame (set_replacer r s) f0)); by destruct s.
Qed.

End FindReplaceInvariant.

Section NewPageInvariant.
Import BufferPool.

(** Installing a page in a frame that is unmapped and outside the free
    list: the frame is overwritten, the page table gets the entry, the
    replacer stops tracking the frame. *)
Lemma wf_install (s s' : BPM) f pid P :
  wf s →
  (f < length (pages_ s))%nat →
  f ∉ free_list_ s →
  (∀ q, page_table_ s !! q ≠ Some f) →
  pid ≠ INVALID_PAGE_ID →
  page_id_ P = pid →
  pages_ s' = <[f := P]> (pages_ s) →
  page_table_ s' = <[pid := f]> (page_table_ s) →
  free_list_ s' = free_list_ s →
  lru_list (replacer_ s') = lru_list (Pin f (replacer_ s)) →
  num_instances_ s' = num_instances_ s →
  instance_index_ s' = instance_index_ s →
  next_page_id_ s' = next_page_id_ s →
  wf s'.
Proof.
  intros [Hfree Hlru Htab Hnd Hval Hal] Hlen Hnf Hun Hpid HP Hps Ht Hfl Hr Hn Hi Hnp.
  constructor.
  - rewrite Hfl. intros g Hg. unfold unpinned_frame. rewrite Hps.
    rewrite list_lookup_insert_ne by (intros ->; done). by apply Hfree.
  - rewrite Hr. intros g Hg. apply Pin_elem in Hg as [Hg Hne].
    unfold unpinned_frame. rewrite Hps.
    rewrite list_lookup_insert_ne by done. by apply Hlru.
  - rewrite Ht, Hps, Hfl. intros q g Hg.
    apply lookup_insert_Some in Hg as [[<- <-]|[Hne Hg]].
    + split; [|done]. exists P. split; [|done].
      by apply list_lookup_insert_eq.
    + assert (g ≠ f) by (intros ->; by apply (Hun q)).
      rewrite list_lookup_insert_ne by done. by apply Htab.
  - by rewrite Hfl.
  - rewrite Ht. rewrite lookup_insert_ne by done. done.
  - unfold alloc_ok. by rewrite Hn, Hi, Hnp.
Qed.

(** [NewPgImp] under the invariant, when the allocator's assertion
    holds: it returns, the invariant holds afterwards unless the id
    handed out is the sentinel, the allocator has advanced, and a frame
    that is handed out was unpinned and is initialised as shown. *)
Lemma NewPgImp_wf (s : BPM) :
  wf s →
  ValidatePageId (next_page_id_ s) s = true →
  ∃ res s', NewPgImp s = Some (res, s') ∧
    (next_page_id_ s ≠ INVALID_PAGE_ID → wf s') ∧
    next_page_id_ s' = to_int32 (next_page_id_ s + num_instances_ s) ∧
    num_instances_ s' = num_instances_ s ∧
    instance_index_ s' = instance_index_ s ∧
    match res with
    | None => True
    | Some (pid, f) =>
        pid = next_page_id_ s ∧
        ∃ p, pages_ s !! f = Some p ∧ pin_count_ p = 0 ∧
             pages_ s' = <[f := mkPage (data_ p) pid 1 false]> (pages_ s) ∧
             page_table_ s' !! pid = Some f
    end.
Proof.
  intros Hwf Hvalid. pose proof (AllocatePage_wf s Hwf) as Hwf1.
  pose proof (AllocatePage_Some s Hvalid) as Ha.
  unfold NewPgImp. rewrite Ha.
  set (s1 := set_next_page_id (to_int32 (next_page_id_ s + num_instances_ s)) s) in *.
  assert (Hs1 : next_page_id_ s1 = to_int32 (next_page_id_ s + num_instances_ s) ∧
                num_instances_ s1 = num_instances_ s ∧
                instance_index_ s1 = instance_index_ s ∧ pages_ s1 = pages_ s)
    by (by destruct s).
  destruct Hs1 as (Hs1a & Hs1b & Hs1c & Hs1d).
  destruct (forallb _ (pages_ s1)).
  { exists None, s1. by split_and!. }
  destruct (find_replace s1) as [[f|] s2] eqn:E.
  2:{ apply find_replace_None in E as ->. exists None, s1. by split_and!. }
  pose proof (find_replace_alloc s1) as (Hn2 & Hi2 & Hnp2). rewrite E in *. simpl in *.
  destruct (find_replace_Some_wf s1 s2 f Hwf1 E)
    as (Hwf2 & Hps2 & (p & Hp & Hpin) & Hun & Hnf & _).
  eexists _, _. split; [reflexivity|].
  assert (Hlen : (f < length (pages_ s2))%nat).
  { rewrite Hps2. by eapply lookup_lt_Some. }
  assert (Hp2 : pages_ s2 !! f = Some p) by by rewrite Hps2.
  assert (Hpages :
    alter (set_is_dirty false) f
      (alter (λ p, set_pin_count (pin_count_ p + 1) p) f
         (alter (set_page_id (next_page_id_ s)) f (pages_ s2))) =
    <[f := mkPage (data_ p) (next_page_id_ s) 1 false]> (pages_ s2)).
  { rewrite (alter_as_insert (pages_ s2) f _ p Hp2).
    rewrite !alter_insert_eq by done. simpl. by rewrite Hpin. }
  split; [|split; [|split; [|split; [|split]]]].
  - intros Hne.
    apply (wf_install s2 _ f (next_page_id_ s)
             (mkPage (data_ p) (next_page_id_ s) 1 false)); done.
  - destruct s2; bpm_simpl. congruence.
  - destruct s2; bpm_simpl. congruence.
  - destruct s2; bpm_simpl. congruence.
  - done.
  - exists p. split; [done|]. split; [done|]. split.
    + transitivity (<[f := mkPage (data_ p) (next_page_id_ s) 1 false]> (pages_ s2)).
      * destruct s2; bpm_simpl. done.
      * rewrite Hps2. reflexivity.
    + destruct s2; bpm_simpl. apply lookup_insert_eq.
Qed.

End NewPageInvariant.

Section CallsKeepInvariant.
Import BufferPool.

Lemma FetchPgImp_wf page_id (s : BPM) :
  wf s → page_id ≠ INVALID_PAGE_ID → wf (FetchPgImp page_id s).2.
Proof.
  intros Hwf Hvalid. unfold FetchPgImp.
  destruct (page_table_ s !! page_id) as [f|] eqn:Ht.
  - (* resident: one more pin *)
    destruct (wf_table _ Hwf _ _ Ht) as [(p & Hp & Hpid) Hnf].
    destruct Hwf as [Hfree Hlru Htab Hnd Hval Hal].
    destruct s as [ni ii np ps t fl r d lg]; bpm_simpl.
    constructor; simpl; try done.
    + intros g Hg. unfold unpinned_frame; simpl.
      rewrite list_lookup_alter_ne by (intros ->; done). by apply Hfree.
    + intros g Hg. apply list_elem_of_filter in Hg as [Hne Hg].
      unfold unpinned_frame; simpl.
      rewrite list_lookup_alter_ne by done. by apply Hlru.
    + intros q g Hg. destruct (Htab q g Hg) as [(pg & Hpg & Hq) Hnfg].
      split; [|done]. rewrite lookup_alter_pages. case_decide as Hgf.
      * subst g. rewrite Hpg. simpl. eexists. split; [done|]. done.
      * eauto.
  - destruct (find_replace s) as [[f|] s1] eqn:E.
    2:{ apply find_replace_None in E as ->. done. }
    pose proof (find_replace_alloc s) as (Hn1 & Hi1 & Hnp1). rewrite E in *. simpl in *.
    destruct (find_replace_Some_wf s s1 f Hwf E)
      as (Hwf1 & Hps1 & (p & Hp & Hpin) & Hun & Hnf & Hsub).
    assert (Hp1 : pages_ s1 !! f = Some p) by by rewrite Hps1.
    rewrite (frame_lookup s1 f p Hp1).
    assert (Hlen : (f < length (pages_ s1))%nat) by by eapply lookup_lt_Some.
    set (s3 := table_erase (page_id_ p)
                 (if is_dirty_ p then WritePage (page_id_ p) (data_ p) s1 else s1)).
    assert (Hs3 : pages_ s3 = pages_ s1 ∧
                  page_table_ s3 = delete (page_id_ p) (page_table_ s1) ∧
                  free_list_ s3 = free_list_ s1 ∧ replacer_ s3 = replacer_ s1 ∧
                  num_instances_ s3 = num_instances_ s1 ∧
                  instance_index_ s3 = instance_index_ s1 ∧
                  next_page_id_ s3 = next_page_id_ s1).
    { unfold s3. by destruct (is_dirty_ p), s1. }
    destruct Hs3 as (Hps3 & Ht3 & Hfl3 & Hr3 & Hn3 & Hi3 & Hnp3).
    assert (Hwf3 : wf s3).
    { apply (wf_shrink s1); try done.
      - rewrite Ht3. intros q g Hg. apply lookup_delete_Some in Hg. tauto.
      - by rewrite Hfl3.
      - rewrite Hfl3. by apply (wf_free_nodup _ Hwf1).
      - by rewrite Hr3. }
    assert (Hun3 : ∀ q, page_table_ s3 !! q ≠ Some f).
    { rewrite Ht3. intros q Hq. apply lookup_delete_Some in Hq as [_ Hq].
      by apply (Hun q). }
    assert (Hp3 : pages_ s3 !! f = Some p) by by rewrite Hps3.
    apply (wf_install s3 _ f page_id (mkPage (disk_ s3 page_id) page_id 1 false));
      try done.
    + by rewrite Hps3.
    + by rewrite Hfl3.
    + rewrite <- Hps3 in Hlen. clearbody s3.
      destruct s3 as [ni ii np ps t fl r d lg]; bpm_simpl.
      rewrite (alter_as_insert ps f _ p Hp3).
      rewrite !alter_insert_eq by done.
      simpl. by rewrite Hpin.
Qed.

Lemma UnpinPgImp_wf page_id is_dirty (s : BPM) :
  wf s → wf (UnpinPgImp page_id is_dirty s).2.
Proof.
  intros Hwf. unfold UnpinPgImp.
  destruct (page_table_ s !! page_id) as [f|] eqn:Ht; [|done].
  destruct (wf_table _ Hwf _ _ Ht) as [(p & Hp & Hpid) Hnf].
  set (s1 := if is_dirty then upd_frame f (set_is_dirty true) s else s).
  assert (Hwf1 : wf s1).
  { unfold s1. destruct is_dirty; [|done].
    apply (wf_same_meta s); try done; try (by destruct s).
    destruct s; bpm_simpl. by apply same_meta_alter. }
  assert (Hs1 : ∃ p1, pages_ s1 !! f = Some p1 ∧ pin_count_ p1 = pin_count_ p ∧
                      free_list_ s1 = free_list_ s).
  { unfold s1. destruct is_dirty.
    - exists (set_is_dirty true p). destruct s; bpm_simpl.
      rewrite list_lookup_alter_eq, Hp. done.
    - by exists p. }
  destruct Hs1 as (p1 & Hp1 & Hpin1 & Hfl1).
  rewrite (frame_lookup s1 f p1 Hp1).
  destruct (Z.eqb_spec (pin_count_ p1) 0) as [Hz|Hnz]; [done|].
  rewrite (frame_lookup _ f (set_pin_count (pin_count_ p1 - 1) p1)).
  2:{ destruct s1; bpm_simpl. by rewrite list_lookup_alter_eq, Hp1. }
  simpl.
  assert (Hnf1 : f ∉ free_list_ s1) by by rewrite Hfl1.
  clearbody s1. clear Hwf Ht Hp Hpid Hnf Hfl1 Hpin1 s p.
  destruct Hwf1 as [Hfree Hlru Htab Hnd Hval Hal].
  assert (Hnl : f ∉ lru_list (replacer_ s1)).
  { intros Hin. destruct (Hlru f Hin) as (q & Hq & Hq0). congruence. }
  destruct (Z.eqb_spec (pin_count_ p1 - 1) 0) as [Hz|Hnz'].
  - destruct s1 as [ni ii np ps t fl r d lg]; bpm_simpl.
    constructor; simpl; try done.
    + intros g Hg. unfold unpinned_frame; simpl.
      rewrite list_lookup_alter_ne by (intros ->; done). by apply Hfree.
    + intros g Hg. apply Unpin_elem in Hg as [Hg| ->].
      * unfold unpinned_frame; simpl.
        rewrite list_lookup_alter_ne by (intros ->; done). by apply Hlru.
      * unfold unpinned_frame; simpl. rewrite list_lookup_alter_eq, Hp1.
        simpl. eexists. split; [done|]. done.
    + intros q g Hg. destruct (Htab q g Hg) as [(pg & Hpg & Hq) Hnfg].
      split; [|done]. rewrite lookup_alter_pages. case_decide as Hgf.
      * subst g. rewrite Hpg. simpl. eexists. split; [done|]. done.
      * eauto.
  - destruct s1 as [ni ii np ps t fl r d lg]; bpm_simpl.
    constructor; simpl; try done.
    + intros g Hg. unfold unpinned_frame; simpl.
      rewrite list_lookup_alter_ne by (intros ->; done). by apply Hfree.
    + intros g Hg. unfold unpinned_frame; simpl.
      rewrite list_lookup_alter_ne by (intros ->; done). by apply Hlru.
    + intros q g Hg. destruct (Htab q g Hg) as [(pg & Hpg & Hq) Hnfg].
      split; [|done]. rewrite lookup_alter_pages. case_decide as Hgf.
      * subst g. rewrite Hpg. simpl. eexists. split; [done|]. done.
      * eauto.
Qed.

End CallsKeepInvariant.

Section MoreCallsKeepInvariant.
Import BufferPool.

Lemma FlushPgImp_fields page_id (s : BPM) :
  pages_ (FlushPgImp page_id s).2 = pages_ s ∧
  page_table_ (FlushPgImp page_id s).2 = page_table_ s ∧
  free_list_ (FlushPgImp page_id s).2 = free_list_ s ∧
  replacer_ (FlushPgImp page_id s).2 = replacer_ s ∧
  num_instances_ (FlushPgImp page_id s).2 = num_instances_ s ∧
  instance_index_ (FlushPgImp page_id s).2 = instance_index_ s ∧
  next_page_id_ (FlushPgImp page_id s).2 = next_page_id_ s.
Proof.
  unfold FlushPgImp. destruct (page_table_ s !! page_id); [|done].
  case_bool_decide; [done|]. by destruct s.
Qed.

Lemma FlushPgImp_wf page_id (s : BPM) : wf s → wf (FlushPgImp page_id s).2.
Proof.
  intros Hwf.
  destruct (FlushPgImp_fields page_id s) as (Hp & Ht & Hf & Hr & Hn & Hi & Hnp).
  apply (wf_same_meta s); try done.
  - rewrite Hp. apply same_meta_refl.
  - by rewrite Hr.
Qed.

Lemma FlushAll_fold_fields (l : list (page_id_t * frame_id_t)) (s : BPM) :
  let s' := foldl (λ acc p,
                     if bool_decide (page_id_ (frame acc p.2) ≠ INVALID_PAGE_ID)
                     then WritePage p.1 (data_ (frame acc p.2)) acc else acc) s l in
  pages_ s' = pages_ s ∧ page_table_ s' = page_table_ s ∧
  free_list_ s' = free_list_ s ∧ replacer_ s' = replacer_ s ∧
  num_instances_ s' = num_instances_ s ∧
  instance_index_ s' = instance_index_ s ∧
  next_page_id_ s' = next_page_id_ s.
Proof.
  revert s. induction l as [|[pid f] l IH]; intros s; simpl; [done|].
  match goal with
  | |- context [foldl ?F ?a l] =>
      destruct (IH a) as (Hp & Ht & Hf & Hr & Hn & Hi & Hnp)
  end.
  simpl in *. rewrite Hp, Ht, Hf, Hr, Hn, Hi, Hnp.
  case_bool_decide; [|done]. by destruct s.
Qed.

Lemma FlushAllPgsImp_wf (s : BPM) : wf s → wf (FlushAllPgsImp s).
Proof.
  intros Hwf. unfold FlushAllPgsImp.
  destruct (FlushAll_fold_fields (map_to_list (page_table_ s)) s)
    as (Hp & Ht & Hf & Hr & Hn & Hi & Hnp).
  apply (wf_same_meta s); try done.
  - rewrite Hp. apply same_meta_refl.
  - by rewrite Hr.
Qed.

Lemma WriteData_wf f d (s : BPM) : wf s → wf (WriteData f d s).
Proof.
  intros Hwf. apply (wf_same_meta s); try done; try (by destruct s).
  destruct s; bpm_simpl. unfold WriteData. bpm_simpl.
  by apply same_meta_alter.
Qed.

Lemma DeletePgImp_wf page_id (s : BPM) : wf s → wf (DeletePgImp page_id s).2.
Proof.
  intros Hwf. unfold DeletePgImp.
  destruct (page_table_ s !! page_id) as [f|] eqn:Ht; [|done].
  destruct (wf_table _ Hwf _ _ Ht) as [(p & Hp & Hpid) Hnf].
  rewrite (frame_lookup s f p Hp).
  destruct (0 <? pin_count_ p); [done|].
  set (s1 := if is_dirty_ p then (FlushPgImp page_id s).2 else s).
  assert (Hs1 : pages_ s1 = pages_ s ∧ page_table_ s1 = page_table_ s ∧
                free_list_ s1 = free_list_ s ∧ replacer_ s1 = replacer_ s ∧
                num_instances_ s1 = num_instances_ s ∧
                instance_index_ s1 = instance_index_ s ∧
                next_page_id_ s1 = next_page_id_ s).
  { unfold s1. destruct (is_dirty_ p); [apply FlushPgImp_fields | done]. }
  destruct Hs1 as (Hp1 & Ht1 & Hf1 & Hr1 & Hn1 & Hi1 & Hnp1).
  clearbody s1.
  destruct Hwf as [Hfree Hlru Htab Hnd Hval Hal].
  destruct s1 as [ni ii np ps t fl r d lg]; bpm_simpl. subst.
  constructor; cbn [free_list_ replacer_ pages_ page_table_ num_instances_
                    instance_index_ next_page_id_]; try done.
  - intros g Hg. unfold unpinned_frame; cbn [pages_].
    apply elem_of_app in Hg as [Hg|Hg].
    + rewrite !list_lookup_alter_ne by (intros ->; done). by apply Hfree.
    + apply list_elem_of_singleton in Hg as ->.
      rewrite !list_lookup_alter_eq, Hp. simpl. eexists. split; [done|]. done.
  - intros g Hg. unfold unpinned_frame; cbn [pages_].
    destruct (decide (g = f)) as [->|Hne].
    + rewrite !list_lookup_alter_eq, Hp. simpl. eexists. split; [done|]. done.
    + rewrite !list_lookup_alter_ne by done. by apply Hlru.
  - intros q g Hg. apply lookup_delete_Some in Hg as [Hne Hg].
    destruct (Htab q g Hg) as [(pg & Hpg & Hq) Hnfg].
    assert (g ≠ f) by (intros ->; congruence).
    split.
    + rewrite !list_lookup_alter_ne by done. eauto.
    + rewrite elem_of_app, list_elem_of_singleton. tauto.
  - apply NoDup_app. split; [done|]. split; [|apply NoDup_singleton].
    intros g Hg Hgf. apply list_elem_of_singleton in Hgf as ->. done.
  - apply lookup_delete_None. by right.
Qed.

End MoreCallsKeepInvariant.

(* --------------------------------------------------------------------- *)
(** ** The page-id allocator                                              *)
(* --------------------------------------------------------------------- *)

Section Allocator.
Import BufferPool.

Lemma FetchPgImp_alloc page_id (s : BPM) : same_alloc s (FetchPgImp page_id s).2.
Proof.
  unfold FetchPgImp, same_alloc.
  destruct (page_table_ s !! page_id) as [f|]; [by destruct s|].
  pose proof (find_replace_alloc s) as H.
  destruct (find_replace s) as [[f|] s1]; [|done]. simpl in H.
  destruct (is_dirty_ (frame s1 f)); by destruct s1.
Qed.

Lemma UnpinPgImp_alloc page_id is_dirty (s : BPM) :
  same_alloc s (UnpinPgImp page_id is_dirty s).2.
Proof.
  unfold UnpinPgImp, same_alloc.
  destruct (page_table_ s !! page_id) as [f|]; [|done].
  destruct is_dirty; repeat case_match; by destruct s.
Qed.

Lemma DeletePgImp_alloc page_id (s : BPM) : same_alloc s (DeletePgImp page_id s).2.
Proof.
  unfold DeletePgImp, same_alloc.
  destruct (page_table_ s !! page_id) as [f|]; [|done].
  destruct (0 <? pin_count_ (frame s f)); [done|].
  destruct (is_dirty_ (frame s f)); [|by destruct s].
  destruct (FlushPgImp_fields page_id s) as (_ & _ & _ & _ & Hn & Hi & Hnp).
  destruct (FlushPgImp page_id s) as [b s1]. simpl in *. by destruct s1.
Qed.

(** After an allocation that stays in range the allocator has page ids
    left. *)
Lemma alloc_ok_advance (s s' : BPM) :
  alloc_ok s → next_id_ok s →
  next_page_id_ s + num_instances_ s ≤ INT32_MAX →
  num_instances_ s' = num_instances_ s →
  instance_index_ s' = instance_index_ s →
  next_page_id_ s' = to_int32 (next_page_id_ s + num_instances_ s) →
  alloc_ok s' ∧ next_id_ok s' ∧
  next_page_id_ s' = next_page_id_ s + num_instances_ s.
Proof.
  intros (Hni & Hii & Hnp) (Hnn & Hrem) Hle Hn Hi Hnext.
  rewrite to_int32_small in Hnext by lia.
  unfold alloc_ok, next_id_ok. rewrite Hn, Hi, Hnext.
  split; [split_and!; lia|]. split; [|done]. split; [lia|].
  rewrite <- Hrem. rewrite !Z.rem_mod_nonneg by lia.
  rewrite <- (Z.mul_1_l (num_instances_ s)) at 1. by rewrite Z.mod_add by lia.
Qed.

(** [NewPgImp] returns whenever the allocator's assertion holds, and it
    has then taken exactly one page id. *)
Lemma NewPgImp_alloc (s : BPM) :
  ValidatePageId (next_page_id_ s) s = true →
  ∃ res s', NewPgImp s = Some (res, s') ∧
    num_instances_ s' = num_instances_ s ∧
    instance_index_ s' = instance_index_ s ∧
    next_page_id_ s' = to_int32 (next_page_id_ s + num_instances_ s).
Proof.
  intros Hok. unfold NewPgImp. rewrite (AllocatePage_Some s Hok).
  set (s1 := set_next_page_id (to_int32 (next_page_id_ s + num_instances_ s)) s).
  assert (Hs1 : num_instances_ s1 = num_instances_ s ∧
                instance_index_ s1 = instance_index_ s ∧
                next_page_id_ s1 = to_int32 (next_page_id_ s + num_instances_ s))
    by (by destruct s).
  clearbody s1.
  destruct (forallb _ (pages_ s1)); [by eexists _, _|].
  pose proof (find_replace_alloc s1) as H.
  destruct (find_replace s1) as [[f|] s2]; simpl in H.
  - destruct Hs1 as (Ha & Hb & Hc), H as (Hd & He & Hf).
    eexists _, _. split; [done|]. destruct s2; bpm_simpl.
    split_and!; congruence.
  - destruct Hs1 as (Ha & Hb & Hc), H as (Hd & He & Hf).
    eexists _, _. split; [done|]. split_and!; congruence.
Qed.

(** A call other than NewPage leaves the allocator alone. *)
Lemma step_same_alloc op (s : BPM) :
  is_NewPage op = false → ∃ s', step op s = Some s' ∧ same_alloc s s'.
Proof.
  intros Hop. destruct op; simpl in *; [done|..].
  - eexists. split; [done|]. apply FetchPgImp_alloc.
  - eexists. split; [done|]. apply UnpinPgImp_alloc.
  - eexists. split; [done|].
    destruct (FlushPgImp_fields page_id s) as (_ & _ & _ & _ & ? & ? & ?). done.
  - eexists. split; [done|].
    destruct (FlushAll_fold_fields (map_to_list (page_table_ s)) s)
      as (_ & _ & _ & _ & ? & ? & ?). done.
  - eexists. split; [done|]. apply DeletePgImp_alloc.
  - eexists. split; [done|]. by destruct s.
Qed.

Lemma step_alloc op (s : BPM) :
  alloc_ok s → next_id_ok s →
  (is_NewPage op = true → next_page_id_ s + num_instances_ s ≤ INT32_MAX) →
  ∃ s', step op s = Some s' ∧ alloc_ok s' ∧ next_id_ok s' ∧
    num_instances_ s' = num_instances_ s ∧
    instance_index_ s' = instance_index_ s ∧
    next_page_id_ s' =
      next_page_id_ s + (if is_NewPage op then num_instances_ s else 0).
Proof.
  intros Hok Hid Hle. destruct (is_NewPage op) eqn:Hop.
  - destruct op; try done. simpl.
    destruct (NewPgImp_alloc s (ValidatePageId_ok s Hok Hid))
      as (res & s' & -> & Hn & Hi & Hnp).
    exists s'. split; [done|].
    destruct (alloc_ok_advance s s' Hok Hid (Hle eq_refl) Hn Hi Hnp) as (? & ? & ?).
    done.
  - destruct (step_same_alloc op s Hop) as (s' & Hstep & Hn & Hi & Hnp).
    exists s'. split; [done|]. unfold alloc_ok, next_id_ok.
    rewrite Hn, Hi, Hnp. split; [done|]. split; [done|]. split; [done|].
    split; [done|]. lia.
Qed.

Lemma count_NewPage_cons op ops :
  count_NewPage (op :: ops) =
    ((if is_NewPage op then 1 else 0) + count_NewPage ops)%nat.
Proof. unfold count_NewPage. rewrite filter_cons. by destruct op. Qed.

(** The range of a sequence of calls, call by call. *)
Lemma ids_in_range_cons op ops (s s1 : BPM) :
  0 < num_instances_ s →
  ids_in_range (op :: ops) s →
  num_instances_ s1 = num_instances_ s →
  next_page_id_ s1 =
    next_page_id_ s + (if is_NewPage op then num_instances_ s else 0) →
  (is_NewPage op = true → next_page_id_ s + num_instances_ s ≤ INT32_MAX) ∧
  ids_in_range ops s1.
Proof.
  unfold ids_in_range. rewrite count_NewPage_cons. intros Hni Hr Hn Hnp.
  rewrite Hn, Hnp.
  assert (0 ≤ Z.of_nat (count_NewPage ops) * num_instances_ s) by nia.
  destruct (is_NewPage op); split; try done; intros; nia.
Qed.

Lemma run_alloc ops (s : BPM) :
  alloc_ok s → next_id_ok s → ids_in_range ops s →
  ∃ s', run ops s = Some s' ∧ alloc_ok s' ∧ next_id_ok s' ∧
    num_instances_ s' = num_instances_ s ∧
    instance_index_ s' = instance_index_ s ∧
    next_page_id_ s' =
      next_page_id_ s + Z.of_nat (count_NewPage ops) * num_instances_ s.
Proof.
  revert s. induction ops as [|op ops IH]; intros s Hok Hid Hr.
  - exists s. simpl. split; [done|]. split; [done|]. split; [done|].
    split; [done|]. split; [done|]. unfold count_NewPage. simpl. lia.
  - simpl.
    assert (Hstep : is_NewPage op = true →
                    next_page_id_ s + num_instances_ s ≤ INT32_MAX).
    { intros Hop. unfold ids_in_range in Hr. rewrite count_NewPage_cons, Hop in Hr.
      destruct Hok as (Hni & _). nia. }
    destruct (step_alloc op s Hok Hid Hstep) as (s1 & -> & Hok1 & Hid1 & Hn1 & Hi1 & Hnp1).
    destruct (ids_in_range_cons op ops s s1 (proj1 (proj1 Hok)) Hr Hn1 Hnp1) as [_ Hr1].
    destruct (IH s1 Hok1 Hid1 Hr1) as (s' & Hrun & Hok' & Hid' & Hn' & Hi' & Hnp').
    exists s'. split; [done|]. split; [done|]. split; [done|].
    split; [congruence|]. split; [congruence|].
    rewrite Hnp', Hnp1, Hn1, count_NewPage_cons. destruct (is_NewPage op); lia.
Qed.

(** Every call of a client keeps the invariant, and every call returns,
    as long as the allocator stays in the range of [page_id_t]. *)
Lemma step_wf op (s : BPM) :
  wf s → next_id_ok s → client_ok op →
  (is_NewPage op = true → next_page_id_ s + num_instances_ s ≤ INT32_MAX) →
  ∃ s', step op s = Some s' ∧ wf s'.
Proof.
  intros Hwf Hid Hok Hle. destruct op; simpl in *.
  - destruct (NewPgImp_wf s Hwf (ValidatePageId_ok s (wf_alloc _ Hwf) Hid))
      as (res & s' & -> & Hwf' & _).
    simpl. exists s'. split; [done|]. apply Hwf'.
    destruct Hid as [Hnn _]. unfold INVALID_PAGE_ID. lia.
  - eexists. split; [done|]. by apply FetchPgImp_wf.
  - eexists. split; [done|]. by apply UnpinPgImp_wf.
  - eexists. split; [done|]. by apply FlushPgImp_wf.
  - eexists. split; [done|]. by apply FlushAllPgsImp_wf.
  - eexists. split; [done|]. by apply DeletePgImp_wf.
  - eexists. split; [done|]. by apply WriteData_wf.
Qed.

Lemma run_wf ops (s : BPM) :
  wf s → next_id_ok s → Forall client_ok ops → ids_in_range ops s →
  ∃ s', run ops s = Some s' ∧ wf s' ∧ next_id_ok s'.
Proof.
  revert s. induction ops as [|op ops IH]; intros s Hwf Hid Hok Hr; simpl.
  - eauto.
  - apply Forall_cons in Hok as [Hop Hok].
    pose proof (wf_alloc _ Hwf) as Hal.
    assert (Hstep : is_NewPage op = true →
                    next_page_id_ s + num_instances_ s ≤ INT32_MAX).
    { intros Hnew. unfold ids_in_range in Hr. rewrite count_NewPage_cons, Hnew in Hr.
      destruct Hal as (Hni & _). nia. }
    destruct (step_alloc op s Hal Hid Hstep) as (s1 & Hs1 & _ & Hid1 & Hn1 & _ & Hnp1).
    destruct (step_wf op s Hwf Hid Hop Hstep) as (s1' & Hs1' & Hwf1).
    rewrite Hs1 in Hs1'. injection Hs1' as <-. rewrite Hs1.
    destruct (ids_in_range_cons op ops s s1 (proj1 (proj1 Hal)) Hr Hn1 Hnp1) as [_ Hr1].
    by apply IH.
Qed.

(** The pool that the constructor built has page ids left, as long as
    [instance_index] is a [page_id_t]. *)
Lemma new_BufferPoolManagerInstance_next PAGE_SIZE pool_size ni ii disk s0 :
  new_BufferPoolManagerInstance PAGE_SIZE pool_size ni ii disk = Some s0 →
  Z.of_N ii ≤ INT32_MAX →
  next_id_ok s0 ∧ next_page_id_ s0 = Z.of_N ii ∧
  num_instances_ s0 = Z.of_N ni ∧ instance_index_ s0 = Z.of_N ii.
Proof.
  intros Hnew Hle.
  apply new_BufferPoolManagerInstance_Some in Hnew as (Hni & Hii & ->).
  unfold next_id_ok. simpl. rewrite to_int32_small by lia.
  split; [|done]. split; [lia|]. apply Z.rem_small. lia.
Qed.

(** From the constructor's state: any calls of a client that stay in the
    range of [page_id_t] return and keep the invariant. *)
Lemma run_new_wf PAGE_SIZE pool_size ni ii disk s0 ops :
  new_BufferPoolManagerInstance PAGE_SIZE pool_size ni ii disk = Some s0 →
  Forall client_ok ops →
  Z.of_N ii + Z.of_nat (count_NewPage ops) * Z.of_N ni ≤ INT32_MAX →
  ∃ s, run ops s0 = Some s ∧ wf s ∧ next_id_ok s.
Proof.
  intros Hnew Hok Hr.
  pose proof (new_BufferPoolManagerInstance_Some _ _ _ _ _ _ Hnew) as (Hni & Hii & _).
  destruct (new_BufferPoolManagerInstance_next _ _ _ _ _ _ Hnew)
    as (Hid & Hnp & Hn & Hi); [nia|].
  apply run_wf; try done.
  - by eapply new_BufferPoolManagerInstance_wf.
  - unfold ids_in_range. by rewrite Hnp, Hn.
Qed.

End Allocator.

(** C6, as amended. A pool constructed with [(num_instances,
    instance_index)]: after any calls of which [n] are NewPage calls (each
    makes one call to [AllocatePage], and nothing else does), the next
    call to [AllocatePage], the [n]-th counting from 0, returns
    [instance_index + n * num_instances], as long as this number is a
    [page_id_t], that is at most [INT32_MAX]; the id is congruent to
    [instance_index] modulo [num_instances]; and [next_page_id_] advances
    by [num_instances] in the arithmetic of [page_id_t], which is the sum
    as long as the sum is at most [INT32_MAX]. *)
Theorem AllocatePage_nth (PAGE_SIZE pool_size : nat) (num_instances instance_index : N)
    (disk : BufferPool.page_id_t → list byte)
    (s0 : BufferPool.BufferPoolManagerInstance) (ops : list BufferPool.Op) :
  BufferPool.new_BufferPoolManagerInstance PAGE_SIZE pool_size
    num_instances instance_index disk = Some s0 →
  let n := Z.of_nat (BufferPool.count_NewPage ops) in
  let id := Z.of_N instance_index + n * Z.of_N num_instances in
  id ≤ BufferPool.INT32_MAX →
  ∃ s s', BufferPool.run ops s0 = Some s ∧
    BufferPool.AllocatePage s = Some (id, s') ∧
    BufferPool.next_page_id_ s' =
      BufferPool.to_int32 (BufferPool.next_page_id_ s + Z.of_N num_instances) ∧
    (id + Z.of_N num_instances ≤ BufferPool.INT32_MAX →
     BufferPool.next_page_id_ s' = BufferPool.next_page_id_ s + Z.of_N num_instances) ∧
    id mod Z.of_N num_instances = Z.of_N instance_index.
Proof.
  intros Hnew n id Hle.
  pose proof (BufferPool.wf_alloc _
                (new_BufferPoolManagerInstance_wf _ _ _ _ _ _ Hnew)) as Hok0.
  pose proof (new_BufferPoolManagerInstance_Some _ _ _ _ _ _ Hnew) as (Hni & Hii & _).
  destruct (new_BufferPoolManagerInstance_next _ _ _ _ _ _ Hnew)
    as (Hid0 & Hnp0 & Hn0 & Hi0); [unfold id, n in Hle; nia|].
  destruct (run_alloc ops s0 Hok0 Hid0) as (s & Hrun & Hok & Hid & Hn & Hi & Hnp).
  { unfold BufferPool.ids_in_range. by rewrite Hnp0, Hn0. }
  rewrite Hnp0, Hn0 in Hnp. rewrite Hn0 in Hn.
  exists s, (BufferPool.set_next_page_id
               (BufferPool.to_int32
                  (BufferPool.next_page_id_ s + BufferPool.num_instances_ s)) s).
  split; [done|]. split; [|split; [|split]].
  - rewrite (AllocatePage_Some s (ValidatePageId_ok s Hok Hid)).
    unfold id, n. by rewrite Hnp.
  - rewrite <- Hn. by destruct s.
  - intros Hle'. rewrite <- Hn.
    replace (BufferPool.next_page_id_ (BufferPool.set_next_page_id _ s))
      with (BufferPool.to_int32
              (BufferPool.next_page_id_ s + BufferPool.num_instances_ s))
      by (by destruct s).
    apply to_int32_small. destruct Hok as (_ & _ & Hr). unfold id, n in Hle'.
    rewrite Hn, Hnp. lia.
  - unfold id. rewrite Z.mod_add by lia. apply Z.mod_small. lia.
Qed.

Lemma AllocatePage_nth_witness :
  ∃ s0 s s',
    BufferPool.new_BufferPoolManagerInstance 4 2 3 1 (λ _, []) = Some s0 ∧
    BufferPool.run [BufferPool.OpNewPage; BufferPool.OpNewPage] s0 = Some s ∧
    BufferPool.AllocatePage s = Some (1 + 2 * 3, s') ∧
    BufferPool.next_page_id_ s' = BufferPool.next_page_id_ s + 3 ∧
    (1 + 2 * 3) mod 3 = 1.
Proof.
  eexists.
  destruct (AllocatePage_nth 4 2 3 1 (λ _, []) _
              [BufferPool.OpNewPage; BufferPool.OpNewPage] eq_refl)
    as (s & s' & H1 & H2 & _ & H3 & H4).
  - vm_compute. discriminate.
  - exists s, s'. split; [reflexivity|]. split; [exact H1|].
    split; [exact H2|]. split; [|exact H4].
    apply H3. vm_compute. discriminate.
Defined.

(** C6, as stated, fails where the number is not a [page_id_t]. The
    constructor accepts [num_instances = 4000000000] and [instance_index =
    3000000000] (both are [uint32_t], and the index is below the number of
    instances); the first call to [AllocatePage] (n = 0) passes the
    assertion and returns [-1294967296], which is neither
    [instance_index + 0 * num_instances] nor congruent to [instance_index]
    modulo [num_instances]. *)
Lemma AllocatePage_first_id_wraps :
  ∃ s0 s',
    BufferPool.new_BufferPoolManagerInstance 4 1 4000000000 3000000000 (λ _, [])
      = Some s0 ∧
    BufferPool.run [] s0 = Some s0 ∧
    BufferPool.AllocatePage s0 = Some (-1294967296, s') ∧
    -1294967296 ≠ 3000000000 + 0 * 4000000000 ∧
    (-1294967296) mod 4000000000 ≠ 3000000000.
Proof.
  eexists _, _. split; [reflexivity|]. split; [reflexivity|].
  split; [vm_compute; reflexivity|]. split; [lia|]. by vm_compute.
Qed.

(** C2, as amended. In every state of the pool that satisfies the
    invariant, a call to [NewPgImp] that returns a page returns the
    freshly allocated id, and the returned frame has that page id, pin
    count 1 and a clear dirty bit, and the page table maps the new id to
    the frame. The frame's data buffer is left as it was (it is not
    zeroed). *)
Theorem NewPgImp_initialises (s s' : BufferPool.BufferPoolManagerInstance)
    (pid : BufferPool.page_id_t) (f : BufferPool.frame_id_t) :
  BufferPool.wf s →
  BufferPool.NewPgImp s = Some (Some (pid, f), s') →
  pid = BufferPool.next_page_id_ s ∧
  ∃ p p', BufferPool.pages_ s !! f = Some p ∧
          BufferPool.pages_ s' !! f = Some p' ∧
          BufferPool.page_id_ p' = pid ∧
          BufferPool.pin_count_ p' = 1 ∧
          BufferPool.is_dirty_ p' = false ∧
          BufferPool.data_ p' = BufferPool.data_ p ∧
          BufferPool.page_table_ s' !! pid = Some f.
Proof.
  intros Hwf Hnew.
  destruct (NewPgImp_wf s Hwf (NewPgImp_Some_valid s _ Hnew))
    as (res & s1 & Hnew1 & _ & _ & _ & _ & Hres).
  rewrite Hnew in Hnew1. injection Hnew1 as <- <-.
  destruct Hres as (-> & p & Hp & Hpin & Hps & Ht).
  split; [done|].
  exists p, (BufferPool.mkPage (BufferPool.data_ p) (BufferPool.next_page_id_ s) 1 false).
  split; [done|]. split; [|done].
  rewrite Hps. apply list_lookup_insert_eq. by eapply lookup_lt_Some.
Qed.

Lemma NewPgImp_initialises_witness :
  ∃ s0 s',
    BufferPool.new_BufferPoolManagerInstance 4 1 1 0 (λ _, []) = Some s0 ∧
    BufferPool.NewPgImp s0 = Some (Some (0, 0%nat), s') ∧
    0 = BufferPool.next_page_id_ s0 ∧
    ∃ p p', BufferPool.pages_ s0 !! 0%nat = Some p ∧
            BufferPool.pages_ s' !! 0%nat = Some p' ∧
            BufferPool.page_id_ p' = 0 ∧
            BufferPool.pin_count_ p' = 1 ∧
            BufferPool.is_dirty_ p' = false ∧
            BufferPool.data_ p' = BufferPool.data_ p ∧
            BufferPool.page_table_ s' !! 0 = Some 0%nat.
Proof.
  eexists _, _. split; [reflexivity|]. split; [reflexivity|].
  eapply NewPgImp_initialises.
  - apply (new_BufferPoolManagerInstance_wf 4 1 1 0 (λ _, [])). reflexivity.
  - reflexivity.
Defined.

(** C2, as stated, fails on the data buffer. A pool of one frame: NewPage
    gives page 0 in frame 0; the holder writes four non-zero bytes and
    unpins the page dirty; the next NewPage evicts page 0 and returns
    frame 0 for page 1 with the old bytes still in the buffer. *)
Lemma NewPgImp_does_not_zero_data :
  ∃ s0 s s',
    BufferPool.new_BufferPoolManagerInstance 4 1 1 0 (λ _, []) = Some s0 ∧
    BufferPool.run [BufferPool.OpNewPage;
                    BufferPool.OpWriteData 0%nat [x01; x02; x03; x04];
                    BufferPool.OpUnpinPage 0 true] s0 = Some s ∧
    BufferPool.wf s ∧
    BufferPool.NewPgImp s = Some (Some (1, 0%nat), s') ∧
    BufferPool.data_ (BufferPool.frame s' 0%nat) = [x01; x02; x03; x04] ∧
    BufferPool.data_ (BufferPool.frame s' 0%nat) ≠ replicate 4 x00.
Proof.
  destruct (run_new_wf 4 1 1 0 (λ _, []) _
              [BufferPool.OpNewPage;
                    BufferPool.OpWriteData 0%nat [x01; x02; x03; x04];
                    BufferPool.OpUnpinPage 0 true] eq_refl)
    as (s & Hrun & Hwf & _).
  { repeat constructor. }
  { vm_compute. discriminate. }
  eexists _, s, _. split; [reflexivity|]. split; [exact Hrun|].
  split; [exact Hwf|].
  vm_compute in Hrun. injection Hrun as <-.
  split; [vm_compute; reflexivity|].
  split; [reflexivity | discriminate].
Qed.

(* --------------------------------------------------------------------- *)
(** ** Locking in the update and insert executors                         *)
(* --------------------------------------------------------------------- *)

Section ExecutorLocking.
Import Executors.

(** The index loop of the insert executor makes one [InsertEntry] call
    and one write-set record per index, and touches nothing else. *)
Lemma insert_indexes_spec plan t rid (w : World) :
  calls_ (insert_indexes plan t rid w) =
    calls_ w ++
      ((λ index, CallInsertEntry (index_oid_ index) (KeyFromTuple t index) rid)
         <$> ip_table_indexes plan) ∧
  index_write_set_ (txn_ (insert_indexes plan t rid w)) =
    index_write_set_ (txn_ w) ++
      ((λ index, mkIndexWriteRecord rid (ip_table_oid plan) INSERT t [] (index_oid_ index))
         <$> ip_table_indexes plan) ∧
  state_ (txn_ (insert_indexes plan t rid w)) = state_ (txn_ w) ∧
  shared_lock_set_ (txn_ (insert_indexes plan t rid w)) = shared_lock_set_ (txn_ w) ∧
  exclusive_lock_set_ (txn_ (insert_indexes plan t rid w)) = exclusive_lock_set_ (txn_ w).
Proof.
  unfold insert_indexes. revert w.
  induction (ip_table_indexes plan) as [|index l IH]; intros w; simpl.
  - by rewrite !app_nil_r.
  - destruct (IH (with_txn (append_index_write
        (mkIndexWriteRecord rid (ip_table_oid plan) INSERT t [] (index_oid_ index)))
        (call (CallInsertEntry (index_oid_ index) (KeyFromTuple t index) rid) w)))
      as (H1 & H2 & H3 & H4 & H5).
    rewrite H1, H2, H3, H4, H5. simpl.
    by rewrite <- !(app_assoc _ [_] _).
Qed.

(** The index loop of the update executor keeps the lock sets and only
    appends to the calls. *)
Lemma update_indexes_spec plan t u rid (w : World) :
  (∃ rest, calls_ (update_indexes plan t u rid w) = calls_ w ++ rest ∧
           ∀ c, c ∈ rest →
                (∃ i k, c = CallDeleteEntry i k rid) ∨ (∃ i k, c = CallInsertEntry i k rid)) ∧
  exclusive_lock_set_ (txn_ (update_indexes plan t u rid w)) = exclusive_lock_set_ (txn_ w).
Proof.
  unfold update_indexes. revert w.
  induction (up_table_indexes plan) as [|index l IH]; intros w; simpl.
  - split; [|done]. exists []. rewrite app_nil_r. split; [done|].
    intros c Hc. by apply elem_of_nil in Hc.
  - match goal with
    | |- context [foldl ?F ?a l] => destruct (IH a) as ((rest & H1 & H2) & H3)
    end.
    split.
    + eexists (_ :: _ :: rest). rewrite H1. simpl.
      rewrite <- !(app_assoc _ [_] _). simpl. split; [done|].
      intros c Hc. apply elem_of_cons in Hc as [->|Hc]; [left; eauto|].
      apply elem_of_cons in Hc as [->|Hc]; [right; eauto|]. by apply H2.
    + rewrite H3. done.
Qed.

End ExecutorLocking.

(** C8. For the tuple that [UpdateExecutor::Next] processes: if the
    transaction holds a SHARED lock on its rid, [LockUpgrade] is called;
    otherwise, unless an EXCLUSIVE lock is held already, [LockExclusive]
    is called; when the lock call returns false, [Next] returns false and
    [UpdateTuple] is not called; and when [UpdateTuple] is called, it is
    called after the locking step, with the rid in the transaction's
    exclusive lock set. *)
Theorem UpdateExecutor_Next_locks (plan : Executors.UpdatePlan) (env : Executors.Env)
    (w : Executors.World) (dummy_tuple to_update_tuple : list Z) (emit_rid : Z * Z) :
  Executors.child_Next env = Some (dummy_tuple, emit_rid) →
  Executors.GetTuple env emit_rid = Some to_update_tuple →
  let updated_tuple :=
    Executors.GenerateUpdatedTuple (Executors.up_update_attrs plan)
      (Executors.up_col_count plan) to_update_tuple in
  let locked := (Executors.update_lock env emit_rid w).1 in
  let w1 := (Executors.update_lock env emit_rid w).2 in
  let lock_calls :=
    if Executors.IsSharedLocked emit_rid (Executors.txn_ w)
    then [Executors.CallLockUpgrade emit_rid]
    else if Executors.IsExclusiveLocked emit_rid (Executors.txn_ w) then []
         else [Executors.CallLockExclusive emit_rid] in
  Executors.calls_ w1 = Executors.calls_ w ++ lock_calls ∧
  (locked = false ↔ lock_calls ≠ [] ∧ Executors.lock_granted env = false) ∧
  (locked = false → Executors.UpdateExecutor_Next plan env w = (false, w1)) ∧
  (locked = true →
   emit_rid ∈ Executors.exclusive_lock_set_ (Executors.txn_ w1) ∧
   ∃ rest,
     Executors.calls_ (Executors.UpdateExecutor_Next plan env w).2 =
       Executors.calls_ w1 ++ Executors.CallUpdateTuple updated_tuple emit_rid :: rest ∧
     (∀ c, c ∈ rest →
           (∃ i k, c = Executors.CallDeleteEntry i k emit_rid) ∨
           (∃ i k, c = Executors.CallInsertEntry i k emit_rid)) ∧
     Executors.exclusive_lock_set_
       (Executors.txn_ (Executors.UpdateExecutor_Next plan env w).2) =
     Executors.exclusive_lock_set_ (Executors.txn_ w1)).
Proof.
  intros Hchild Hget updated_tuple locked w1 lock_calls.
  assert (Hlock :
    Executors.calls_ w1 = Executors.calls_ w ++ lock_calls ∧
    (locked = false ↔ lock_calls ≠ [] ∧ Executors.lock_granted env = false) ∧
    (locked = true → emit_rid ∈ Executors.exclusive_lock_set_ (Executors.txn_ w1))).
  { unfold locked, w1, lock_calls, Executors.update_lock.
    unfold Executors.IsSharedLocked, Executors.IsExclusiveLocked.
    case_bool_decide as Hs; [|case_bool_decide as Hx].
    - unfold Executors.LockUpgrade.
      destruct (Executors.lock_granted env); simpl.
      + split; [done|]. split; [split; [done | intros [_ ?]; done]|].
        intros _. set_solver.
      + split; [done|]. split; [split; [done|done]|done].
    - simpl. rewrite app_nil_r. split; [done|].
      split; [split; [done | intros [? _]; done]|done].
    - unfold Executors.LockExclusive.
      destruct (Executors.lock_granted env); simpl.
      + split; [done|]. split; [split; [done | intros [_ ?]; done]|].
        intros _. set_solver.
      + split; [done|]. split; [split; [done|done]|done]. }
  destruct Hlock as (Hcalls & Hfalse & Htrue).
  split; [done|]. split; [done|].
  unfold Executors.UpdateExecutor_Next. rewrite Hchild, Hget.
  fold updated_tuple.
  destruct (Executors.update_lock env emit_rid w) as [b w1'] eqn:E.
  simpl in locked, w1. subst locked w1. split.
  - intros ->. done.
  - intros ->. split; [by apply Htrue|].
    destruct (Executors.UpdateTuple env updated_tuple emit_rid); simpl.
    + destruct (update_indexes_spec plan to_update_tuple updated_tuple emit_rid
                  (Executors.call (Executors.CallUpdateTuple updated_tuple emit_rid) w1'))
        as ((rest & H1 & H2) & H3).
      exists rest. rewrite H1, H3. simpl.
      rewrite <- (app_assoc _ [_] _). done.
    + exists []. split; [done|]. split; [|done].
      intros c Hc. by apply elem_of_nil in Hc.
Qed.

Lemma UpdateExecutor_Next_locks_witness :
  let plan := Executors.mkUpdatePlan 7 2 {[ 1%nat := Executors.mkUpdateInfo Executors.Add 5 ]}
                [Executors.mkIndexInfo 3 [0%nat]] in
  let env := Executors.mkEnv (Some ([], (4, 2))) (λ _, Some [10; 20]) (λ _ _, true)
               (λ _, None) true in
  let w := Executors.mkWorld
             (Executors.mkTransaction Executors.GROWING {[ (4, 2) ]} ∅ []) [] in
  Executors.UpdateExecutor_Next plan env w =
    (true,
     Executors.mkWorld
       (Executors.mkTransaction Executors.GROWING ({[ (4, 2) ]} ∖ {[ (4, 2) ]})
          ({[ (4, 2) ]} ∪ ∅)
          [Executors.mkIndexWriteRecord (4, 2) 7 Executors.UPDATE [10; 25] [10; 20] 3])
       [Executors.CallLockUpgrade (4, 2);
        Executors.CallUpdateTuple [10; 25] (4, 2);
        Executors.CallDeleteEntry 3 [10] (4, 2);
        Executors.CallInsertEntry 3 [10] (4, 2)]) ∧
  (4, 2) ∈ Executors.exclusive_lock_set_
             (Executors.txn_ (Executors.update_lock env (4, 2) w).2).
Proof.
  intros plan env w. split; [reflexivity|].
  exact (proj1 (proj2 (proj2 (proj2
    (UpdateExecutor_Next_locks plan env w [] [10; 20] (4, 2) eq_refl eq_refl))) eq_refl)).
Defined.

(** C10. [InsertExecutor::Next] asks for an exclusive lock on the new rid
    and does not look at the answer. When there is a tuple to insert (the
    raw value at [next_insert], or the child's next tuple) and
    [InsertTuple] succeeds with a rid, then, whatever [LockExclusive]
    answers: [Next] returns true with that rid; the calls made are
    [InsertTuple], [LockExclusive] on the rid and one [InsertEntry] per
    index of the table, in order; one INSERT record per index is appended
    to the index write set. All of this is the same for both answers of
    the lock call; when the answer is false the transaction is left
    ABORTED and its exclusive lock set is as before. *)
Theorem InsertExecutor_Next_ignores_lock_answer (plan : Executors.InsertPlan)
    (env : Executors.Env) (next_insert n1 : nat) (w : Executors.World)
    (t : list Z) (rid : Z * Z) (b : bool) :
  (∃ raw, Executors.ip_raw_values plan = Some raw ∧ raw !! next_insert = Some t ∧
          n1 = S next_insert) ∨
  (∃ r0, Executors.ip_raw_values plan = None ∧
         Executors.child_Next env = Some (t, r0) ∧ n1 = next_insert) →
  Executors.InsertTuple env t = Some rid →
  let r := Executors.InsertExecutor_Next plan
             (Executors.with_lock_granted b env) next_insert w in
  r.1 = (true, n1, Some rid) ∧
  Executors.calls_ r.2 =
    Executors.calls_ w ++
    [Executors.CallInsertTuple t; Executors.CallLockExclusive rid] ++
    ((λ index, Executors.CallInsertEntry (Executors.index_oid_ index)
                 (Executors.KeyFromTuple t index) rid)
       <$> Executors.ip_table_indexes plan) ∧
  Executors.index_write_set_ (Executors.txn_ r.2) =
    Executors.index_write_set_ (Executors.txn_ w) ++
    ((λ index, Executors.mkIndexWriteRecord rid (Executors.ip_table_oid plan)
                 Executors.INSERT t [] (Executors.index_oid_ index))
       <$> Executors.ip_table_indexes plan) ∧
  (Executors.LockExclusive b rid
     (Executors.call (Executors.CallInsertTuple t) w)).1 = b ∧
  (b = false →
   Executors.state_ (Executors.txn_ r.2) = Executors.ABORTED ∧
   Executors.exclusive_lock_set_ (Executors.txn_ r.2) =
     Executors.exclusive_lock_set_ (Executors.txn_ w)).
Proof.
  intros Hsrc Hins r. unfold r, Executors.InsertExecutor_Next. simpl.
  assert (Hs : match Executors.ip_raw_values plan with
               | Some raw =>
                   if bool_decide (length raw ≤ next_insert)%nat then None
                   else (λ t, (t, S next_insert)) <$> raw !! next_insert
               | None => (λ p, (p.1, next_insert)) <$> Executors.child_Next env
               end = Some (t, n1)).
  { destruct Hsrc as [(raw & -> & Hl & ->)|(r0 & -> & -> & ->)]; [|done].
    rewrite bool_decide_eq_false_2 by (apply lookup_lt_Some in Hl; lia).
    by rewrite Hl. }
  rewrite Hs, Hins. simpl.
  pose proof (insert_indexes_spec plan t rid
    (Executors.LockExclusive b rid
       (Executors.call (Executors.CallInsertTuple t) w)).2) as (A1 & A2 & A3 & A4 & A5).
  rewrite A1, A2, A3, A5.
  split; [done|]. split; [|split; [|split]].
  - destruct b; simpl; by rewrite <- (app_assoc (Executors.calls_ w) [_] [_]),
                                  <- (app_assoc (Executors.calls_ w) _ _).
  - by destruct b.
  - by destruct b.
  - by intros ->.
Qed.

Lemma InsertExecutor_Next_ignores_lock_answer_witness :
  let plan := Executors.mkInsertPlan 7 (Some [[10; 20]]) [Executors.mkIndexInfo 3 [1%nat]] in
  let env := Executors.mkEnv None (λ _, None) (λ _ _, false) (λ _, Some (4, 2)) true in
  let w := Executors.mkWorld (Executors.mkTransaction Executors.GROWING ∅ ∅ []) [] in
  let r := Executors.InsertExecutor_Next plan (Executors.with_lock_granted false env) 0 w in
  r.1 = (true, 1%nat, Some (4, 2)) ∧
  Executors.calls_ r.2 =
    [Executors.CallInsertTuple [10; 20]; Executors.CallLockExclusive (4, 2);
     Executors.CallInsertEntry 3 [20] (4, 2)] ∧
  Executors.state_ (Executors.txn_ r.2) = Executors.ABORTED.
Proof.
  intros plan env w r.
  destruct (InsertExecutor_Next_ignores_lock_answer plan env 0 1 w [10; 20] (4, 2) false)
    as (H1 & H2 & _ & _ & H5).
  - left. exists [[10; 20]]. by split.
  - reflexivity.
  - split; [exact H1|]. split; [exact H2|]. exact (proj1 (H5 eq_refl)).
Defined.

(* ===================================================================== *)
(** * Part III: further properties of the code                            *)
(* ===================================================================== *)

(* --------------------------------------------------------------------- *)
(** ** [IsLockCompatible]                                                  *)
(* --------------------------------------------------------------------- *)

(** X1. An EXCLUSIVE request is compatible exactly when the queue is
    empty or the request at the head of the queue belongs to the same
    transaction. *)
Theorem IsLockCompatible_exclusive_iff_head
    (Q : LockManager.LockRequestQueue) (R : LockManager.LockRequest) :
  LockManager.lock_mode_ R = LockManager.EXCLUSIVE →
  (LockManager.IsLockCompatible Q R = true ↔
   LockManager.request_queue_ Q = [] ∨
   ∃ p rest, LockManager.request_queue_ Q = p :: rest ∧
             LockManager.txn_id_ p = LockManager.txn_id_ R).
Proof.
  intros HR. unfold LockManager.IsLockCompatible.
  destruct (LockManager.request_queue_ Q) as [|p rest]; simpl.
  - split; [by left | done].
  - destruct (Z.eqb_spec (LockManager.txn_id_ p) (LockManager.txn_id_ R)) as [Heq|Hne].
    + split; [|done]. intros _. right. by exists p, rest.
    + destruct (LockManager.isCompatible p R) eqn:Hc.
      * apply isCompatible_spec in Hc as (_ & _ & Hc). done.
      * split; [done|]. intros [?|(p' & rest' & [= <- <-] & ?)]; done.
Qed.

Lemma IsLockCompatible_exclusive_iff_head_witness :
  let held := LockManager.mkLockRequest 2 LockManager.SHARED true in
  let R := LockManager.mkLockRequest 1 LockManager.EXCLUSIVE false in
  let Q := LockManager.mkLockRequestQueue [held; R] (-1) in
  LockManager.IsLockCompatible Q R = false ∧
  (LockManager.IsLockCompatible Q R = true ↔
   LockManager.request_queue_ Q = [] ∨
   ∃ p rest, LockManager.request_queue_ Q = p :: rest ∧
             LockManager.txn_id_ p = LockManager.txn_id_ R).
Proof.
  intros held R Q. split; [reflexivity|].
  exact (IsLockCompatible_exclusive_iff_head Q R eq_refl).
Defined.

(** X2. A SHARED request is compatible exactly when every request that
    stands before the first request of its transaction is granted and
    SHARED. *)
Theorem IsLockCompatible_shared_iff
    (Q : LockManager.LockRequestQueue) (R : LockManager.LockRequest) :
  LockManager.lock_mode_ R = LockManager.SHARED →
  (LockManager.IsLockCompatible Q R = true ↔
   ∀ i p, LockManager.request_queue_ Q !! i = Some p →
          LockManager.no_earlier_own (LockManager.request_queue_ Q) R i →
          LockManager.txn_id_ p ≠ LockManager.txn_id_ R →
          LockManager.granted_ p = true ∧
          LockManager.lock_mode_ p = LockManager.SHARED).
Proof.
  intros HR. unfold LockManager.IsLockCompatible. rewrite scan_queue_spec.
  split.
  - intros H i p Hi Hno Hne. destruct (H i p Hi Hno) as [?|(Hg & Hm & _)]; [done|].
    split; [done|]. by destruct (LockManager.lock_mode_ p).
  - intros H i p Hi Hno.
    destruct (decide (LockManager.txn_id_ p = LockManager.txn_id_ R)) as [?|Hne];
      [by left|].
    right. destruct (H i p Hi Hno Hne) as [Hg Hm].
    split; [done|]. split; congruence.
Qed.

Lemma IsLockCompatible_shared_iff_witness :
  let held := LockManager.mkLockRequest 2 LockManager.SHARED true in
  let R := LockManager.mkLockRequest 1 LockManager.SHARED false in
  let Q := LockManager.mkLockRequestQueue [held; R] (-1) in
  LockManager.IsLockCompatible Q R = true ∧
  (LockManager.IsLockCompatible Q R = true ↔
   ∀ i p, LockManager.request_queue_ Q !! i = Some p →
          LockManager.no_earlier_own (LockManager.request_queue_ Q) R i →
          LockManager.txn_id_ p ≠ LockManager.txn_id_ R →
          LockManager.granted_ p = true ∧
          LockManager.lock_mode_ p = LockManager.SHARED).
Proof.
  intros held R Q. split; [reflexivity|].
  exact (IsLockCompatible_shared_iff Q R eq_refl).
Defined.

Lemma scan_queue_app_own pre post R R' :
  LockManager.txn_id_ R' = LockManager.txn_id_ R →
  LockManager.scan_queue (pre ++ R' :: post) R =
  LockManager.scan_queue (pre ++ [R']) R.
Proof.
  intros Heq. induction pre as [|a pre IH]; simpl.
  - by rewrite (proj2 (Z.eqb_eq _ _) Heq).
  - destruct (LockManager.txn_id_ a =? LockManager.txn_id_ R); [done|].
    by destruct (LockManager.isCompatible a R).
Qed.

(** X3. Whether a request is compatible depends only on the requests
    that stand before the first request of the examined transaction: the
    requests behind any request [R'] of that transaction (the examined
    request itself or an earlier one), and the [upgrading_] mark of the
    queue, do not change the answer. *)
Theorem IsLockCompatible_ignores_later_arrivals
    (pre post post' : list LockManager.LockRequest) (R R' : LockManager.LockRequest)
    (u u' : Z) :
  LockManager.txn_id_ R' = LockManager.txn_id_ R →
  LockManager.IsLockCompatible (LockManager.mkLockRequestQueue (pre ++ R' :: post) u) R =
  LockManager.IsLockCompatible (LockManager.mkLockRequestQueue (pre ++ R' :: post') u') R.
Proof.
  intros Heq. unfold LockManager.IsLockCompatible. simpl.
  by rewrite (scan_queue_app_own pre post R R' Heq),
             (scan_queue_app_own pre post' R R' Heq).
Qed.

Lemma IsLockCompatible_ignores_later_arrivals_witness :
  let own := LockManager.mkLockRequest 1 LockManager.SHARED true in
  let other := LockManager.mkLockRequest 2 LockManager.EXCLUSIVE false in
  let R := LockManager.mkLockRequest 1 LockManager.EXCLUSIVE false in
  LockManager.IsLockCompatible (LockManager.mkLockRequestQueue [own; other; R] 1) R =
  LockManager.IsLockCompatible (LockManager.mkLockRequestQueue [own] (-1)) R.
Proof.
  intros own other R.
  exact (IsLockCompatible_ignores_later_arrivals [] [other; R] [] R own 1 (-1) eq_refl).
Defined.

(* --------------------------------------------------------------------- *)
(** ** The buffer pool: reachable states                                  *)
(* --------------------------------------------------------------------- *)

Section FramesAndReplacer.
Import BufferPool.

Lemma shape_kept_refl (s : BPM) : shape_kept s s.
Proof. by split. Qed.

Lemma shape_kept_trans (s1 s2 s3 : BPM) :
  shape_kept s1 s2 → shape_kept s2 s3 → shape_kept s1 s3.
Proof. intros [H1 H2] [H3 H4]. split; [congruence | auto]. Qed.

Lemma shape_kept_same (s s' : BPM) :
  pages_ s' = pages_ s → replacer_ s' = replacer_ s → shape_kept s s'.
Proof. intros Hp Hr. unfold shape_kept. by rewrite Hp, Hr. Qed.

Lemma Victim_NoDup r f r' :
  Victim r = Some (f, r') → NoDup (lru_list r) → NoDup (lru_list r').
Proof.
  unfold Victim. destruct (reverse (lru_list r)) as [|g older] eqn:E; [done|].
  intros [= -> <-]. simpl.
  assert (Hl : lru_list r = reverse older ++ [f]).
  { rewrite <- (reverse_involutive (lru_list r)), E. by rewrite reverse_cons. }
  rewrite Hl. intros Hnd. by apply NoDup_app in Hnd as [? _].
Qed.

Lemma Pin_NoDup f r : NoDup (lru_list r) → NoDup (lru_list (Pin f r)).
Proof. unfold Pin. simpl. apply NoDup_filter. Qed.

Lemma Unpin_NoDup f r : NoDup (lru_list r) → NoDup (lru_list (Unpin f r)).
Proof.
  unfold Unpin. intros Hnd. case_bool_decide as Hin; [done|].
  case_bool_decide; [done|]. simpl. by apply NoDup_cons.
Qed.

Lemma find_replace_kept (s : BPM) : shape_kept s (find_replace s).2.
Proof.
  unfold find_replace.
  destruct (free_list_ s) as [|f0 rest]; [|apply shape_kept_same; by destruct s].
  destruct (Victim (replacer_ s)) as [[f0 r]|] eqn:Hv; [|apply shape_kept_refl].
  pose proof (Victim_NoDup _ _ _ Hv) as Hnd.
  case_bool_decide.
  - destruct (is_dirty_ (frame (set_replacer r s) f0));
      destruct s; bpm_simpl; split; simpl in *; rewrite ?length_alter; done.
  - destruct s; bpm_simpl; split; simpl in *; done.
Qed.

Lemma NewPgImp_kept (s s' : BPM) res :
  NewPgImp s = Some (res, s') → shape_kept s s'.
Proof.
  unfold NewPgImp. destruct (AllocatePage s) as [[pid s1]|] eqn:Ha; [|done].
  assert (H1 : shape_kept s s1).
  { unfold AllocatePage in Ha. case_match; [|done]. injection Ha as _ <-.
    apply shape_kept_same; by destruct s. }
  destruct (forallb _ (pages_ s1)); [by intros [= <- <-]|].
  pose proof (find_replace_kept s1) as H2.
  destruct (find_replace s1) as [[f|] s2]; simpl in H2; intros [= <- <-].
  - apply (shape_kept_trans s s1); [done|]. apply (shape_kept_trans s1 s2); [done|].
    destruct s2 as [ni ii np ps t fl r d lg]; bpm_simpl. split; simpl.
    + by rewrite !length_alter.
    + apply NoDup_filter.
  - by apply (shape_kept_trans s s1).
Qed.

Lemma FetchPgImp_kept page_id (s : BPM) : shape_kept s (FetchPgImp page_id s).2.
Proof.
  unfold FetchPgImp. destruct (page_table_ s !! page_id) as [f|].
  - destruct s as [ni ii np ps t fl r d lg]; bpm_simpl. split; simpl.
    + by rewrite length_alter.
    + apply NoDup_filter.
  - pose proof (find_replace_kept s) as H1.
    destruct (find_replace s) as [[f|] s1]; simpl in H1; [|done].
    apply (shape_kept_trans s s1); [done|].
    destruct (is_dirty_ (frame s1 f));
      destruct s1 as [ni ii np ps t fl r d lg]; bpm_simpl; split; simpl;
      rewrite ?length_alter; try done; apply NoDup_filter.
Qed.

Lemma UnpinPgImp_kept page_id is_dirty (s : BPM) :
  shape_kept s (UnpinPgImp page_id is_dirty s).2.
Proof.
  unfold UnpinPgImp. destruct (page_table_ s !! page_id) as [f|]; [|apply shape_kept_refl].
  set (s1 := if is_dirty then upd_frame f (set_is_dirty true) s else s).
  assert (H1 : shape_kept s s1).
  { unfold s1. destruct is_dirty; [|apply shape_kept_refl].
    destruct s; bpm_simpl. split; simpl; [by rewrite length_alter | done]. }
  clearbody s1. apply (shape_kept_trans s s1); [done|].
  destruct (pin_count_ (frame s1 f) =? 0); [apply shape_kept_refl|].
  destruct (pin_count_ (frame (upd_frame f _ s1) f) =? 0).
  - destruct s1 as [ni ii np ps t fl r d lg]; bpm_simpl. split; simpl.
    + by rewrite length_alter.
    + apply Unpin_NoDup.
  - destruct s1 as [ni ii np ps t fl r d lg]; bpm_simpl. split; simpl.
    + by rewrite length_alter.
    + done.
Qed.

Lemma DeletePgImp_kept page_id (s : BPM) : shape_kept s (DeletePgImp page_id s).2.
Proof.
  unfold DeletePgImp. destruct (page_table_ s !! page_id) as [f|]; [|apply shape_kept_refl].
  destruct (0 <? pin_count_ (frame s f)); [apply shape_kept_refl|].
  set (s1 := if is_dirty_ (frame s f) then (FlushPgImp page_id s).2 else s).
  assert (H1 : shape_kept s s1).
  { unfold s1. destruct (is_dirty_ (frame s f)); [|apply shape_kept_refl].
    destruct (FlushPgImp_fields page_id s) as (Hp & _ & _ & Hr & _).
    by apply shape_kept_same. }
  clearbody s1. apply (shape_kept_trans s s1); [done|].
  destruct s1 as [ni ii np ps t fl r d lg]; bpm_simpl. split; simpl.
  - by rewrite !length_alter.
  - done.
Qed.

Lemma step_kept op (s s' : BPM) : step op s = Some s' → shape_kept s s'.
Proof.
  destruct op; simpl.
  - destruct (NewPgImp s) as [[res s1]|] eqn:E; [|done]. simpl. intros [= <-].
    by eapply NewPgImp_kept.
  - intros [= <-]. apply FetchPgImp_kept.
  - intros [= <-]. apply UnpinPgImp_kept.
  - intros [= <-]. destruct (FlushPgImp_fields page_id s) as (Hp & _ & _ & Hr & _).
    by apply shape_kept_same.
  - intros [= <-].
    destruct (FlushAll_fold_fields (map_to_list (page_table_ s)) s)
      as (Hp & _ & _ & Hr & _).
    by apply shape_kept_same.
  - intros [= <-]. apply DeletePgImp_kept.
  - intros [= <-]. destruct s; bpm_simpl. split; simpl; [by rewrite length_alter | done].
Qed.

Lemma run_kept ops (s s' : BPM) : run ops s = Some s' → shape_kept s s'.
Proof.
  revert s. induction ops as [|op ops IH]; intros s; simpl.
  - intros [= <-]. apply shape_kept_refl.
  - destruct (step op s) as [s1|] eqn:E; [|done]. intros Hrun.
    apply (shape_kept_trans s s1); [by apply (step_kept op) | by apply IH].
Qed.

(** Under the invariant the page table is injective, and it has no more
    entries than there are frames. *)
Lemma wf_table_size (s : BPM) :
  wf s →
  (∀ pid1 pid2 f, page_table_ s !! pid1 = Some f →
                  page_table_ s !! pid2 = Some f → pid1 = pid2) ∧
  (size (page_table_ s) ≤ length (pages_ s))%nat.
Proof.
  intros Hwf.
  assert (Hinj : ∀ pid1 pid2 f, page_table_ s !! pid1 = Some f →
                   page_table_ s !! pid2 = Some f → pid1 = pid2).
  { intros pid1 pid2 f H1 H2.
    destruct (wf_table _ Hwf _ _ H1) as [(p1 & Hp1 & <-) _].
    destruct (wf_table _ Hwf _ _ H2) as [(p2 & Hp2 & <-) _].
    congruence. }
  split; [done|].
  rewrite <- length_map_to_list, <- (length_fmap snd).
  assert (Hlen : length (seq 0 (length (pages_ s))) = length (pages_ s))
    by apply length_seq.
  rewrite <- Hlen.
  apply submseteq_length, NoDup_submseteq.
  - apply NoDup_fmap_2_strong; [|apply NoDup_map_to_list].
    intros [pid1 f1] [pid2 f2] H1 H2 Hf. simpl in Hf. subst f2.
    apply elem_of_map_to_list in H1, H2. f_equal. by eapply Hinj.
  - intros f Hf. apply list_elem_of_fmap in Hf as ([pid f'] & -> & Hin).
    apply elem_of_map_to_list in Hin. simpl.
    destruct (wf_table _ Hwf _ _ Hin) as [(p & Hp & _) _].
    apply elem_of_seq. apply lookup_lt_Some in Hp. lia.
Qed.

End FramesAndReplacer.

(** X4. A pool that the constructor built keeps its invariant through
    any sequence of NewPage, FetchPage (of real page ids), UnpinPage,
    FlushPage, FlushAllPages and DeletePage calls and of writes to page
    buffers, as long as the page ids that its NewPage calls take stay in
    the range of [page_id_t], and every call returns: frames in the free
    list and in the replacer are unpinned, every page-table entry points
    to a frame of the array that carries the entry's page id and is not in
    the free list, neither the free list nor the replacer holds a frame
    twice, the sentinel is not resident, the allocator's fields hold
    values of their types, the id it hands out next is not negative and
    passes its assertion, and the pool still has [pool_size] frames. *)
Theorem constructed_pool_keeps_invariant (PAGE_SIZE pool_size : nat)
    (num_instances instance_index : N) (disk : Z → list byte)
    (s0 : BufferPool.BufferPoolManagerInstance) (ops : list BufferPool.Op) :
  BufferPool.new_BufferPoolManagerInstance PAGE_SIZE pool_size
    num_instances instance_index disk = Some s0 →
  Forall BufferPool.client_ok ops →
  Z.of_N instance_index +
    Z.of_nat (BufferPool.count_NewPage ops) * Z.of_N num_instances
    ≤ BufferPool.INT32_MAX →
  ∃ s, BufferPool.run ops s0 = Some s ∧ BufferPool.wf s ∧
       BufferPool.next_id_ok s ∧
       NoDup (BufferPool.lru_list (BufferPool.replacer_ s)) ∧
       BufferPool.pool_size_ s = pool_size.
Proof.
  intros Hnew Hok Hr.
  destruct (run_new_wf _ _ _ _ _ _ ops Hnew Hok Hr) as (s & Hrun & Hwf & Hid).
  exists s. split; [done|]. split; [done|]. split; [done|].
  destruct (run_kept ops s0 s Hrun) as [Hlen Hnd].
  apply new_BufferPoolManagerInstance_Some in Hnew as (_ & _ & ->).
  simpl in *. split.
  - apply Hnd. constructor.
  - unfold BufferPool.pool_size_. rewrite Hlen. apply length_replicate.
Qed.

Lemma constructed_pool_keeps_invariant_witness :
  ∃ s0 s,
    BufferPool.new_BufferPoolManagerInstance 4 2 1 0 (λ _, []) = Some s0 ∧
    BufferPool.run [BufferPool.OpNewPage; BufferPool.OpUnpinPage 0 true;
                    BufferPool.OpFetchPage 5; BufferPool.OpDeletePage 0] s0 = Some s ∧
    BufferPool.wf s ∧ BufferPool.next_id_ok s ∧
    NoDup (BufferPool.lru_list (BufferPool.replacer_ s)) ∧
    BufferPool.pool_size_ s = 2%nat.
Proof.
  eexists.
  destruct (constructed_pool_keeps_invariant 4 2 1 0 (λ _, []) _
              [BufferPool.OpNewPage; BufferPool.OpUnpinPage 0 true;
               BufferPool.OpFetchPage 5; BufferPool.OpDeletePage 0] eq_refl)
    as (s & Hrun & Hwf).
  { repeat constructor. discriminate. }
  { vm_compute. discriminate. }
  exists s. split; [reflexivity|]. split; [exact Hrun | exact Hwf].
Defined.

(** X5. In a pool that the constructor built, after any sequence of calls
    of a client whose page ids stay in the range of [page_id_t], no two
    resident pages share a frame, and the page table holds at most
    [pool_size] pages. *)
Theorem resident_pages_bounded (PAGE_SIZE pool_size : nat)
    (num_instances instance_index : N) (disk : Z → list byte)
    (s0 : BufferPool.BufferPoolManagerInstance) (ops : list BufferPool.Op) :
  BufferPool.new_BufferPoolManagerInstance PAGE_SIZE pool_size
    num_instances instance_index disk = Some s0 →
  Forall BufferPool.client_ok ops →
  Z.of_N instance_index +
    Z.of_nat (BufferPool.count_NewPage ops) * Z.of_N num_instances
    ≤ BufferPool.INT32_MAX →
  ∃ s, BufferPool.run ops s0 = Some s ∧
    (∀ pid1 pid2 f, BufferPool.page_table_ s !! pid1 = Some f →
                    BufferPool.page_table_ s !! pid2 = Some f → pid1 = pid2) ∧
    (size (BufferPool.page_table_ s) ≤ pool_size)%nat.
Proof.
  intros Hnew Hok Hr.
  destruct (run_new_wf _ _ _ _ _ _ ops Hnew Hok Hr) as (s & Hrun & Hwf & _).
  exists s. split; [done|].
  destruct (wf_table_size s Hwf) as [Hinj Hsize]. split; [done|].
  destruct (run_kept ops s0 s Hrun) as [Hlen _].
  apply new_BufferPoolManagerInstance_Some in Hnew as (_ & _ & ->).
  simpl in Hlen. rewrite length_replicate in Hlen. lia.
Qed.

Lemma resident_pages_bounded_witness :
  ∃ s0 s,
    BufferPool.new_BufferPoolManagerInstance 4 2 1 0 (λ _, []) = Some s0 ∧
    BufferPool.run [BufferPool.OpNewPage; BufferPool.OpNewPage;
                    BufferPool.OpUnpinPage 0 false; BufferPool.OpNewPage;
                    BufferPool.OpNewPage] s0 = Some s ∧
    size (BufferPool.page_table_ s) = 2%nat ∧
    (size (BufferPool.page_table_ s) ≤ 2)%nat.
Proof.
  eexists.
  destruct (resident_pages_bounded 4 2 1 0 (λ _, []) _
              [BufferPool.OpNewPage; BufferPool.OpNewPage;
               BufferPool.OpUnpinPage 0 false; BufferPool.OpNewPage;
               BufferPool.OpNewPage] eq_refl)
    as (s & Hrun & _ & Hsize).
  { repeat constructor. }
  { vm_compute. discriminate. }
  exists s. split; [reflexivity|]. split; [exact Hrun|]. split; [|exact Hsize].
  vm_compute in Hrun. injection Hrun as <-. vm_compute. reflexivity.
Defined.

(* --------------------------------------------------------------------- *)
(** ** FlushPage and FlushAllPages                                        *)
(* --------------------------------------------------------------------- *)

(** X6. [FlushPgImp] returns false and changes nothing when the page is
    not resident or the id is the sentinel. Otherwise it returns true and
    writes the frame's data to disk under the page id, whatever the dirty
    bit; the disk image of every other page and the whole pool state (the
    dirty bit included, which is not cleared) are as before. *)
Theorem FlushPgImp_spec (page_id : Z) (s : BufferPool.BufferPoolManagerInstance) :
  (BufferPool.page_table_ s !! page_id = None ∨ page_id = BufferPool.INVALID_PAGE_ID →
   BufferPool.FlushPgImp page_id s = (false, s)) ∧
  (∀ f p, BufferPool.page_table_ s !! page_id = Some f →
     BufferPool.pages_ s !! f = Some p →
     page_id ≠ BufferPool.INVALID_PAGE_ID →
     let s' := (BufferPool.FlushPgImp page_id s).2 in
     (BufferPool.FlushPgImp page_id s).1 = true ∧
     BufferPool.disk_ s' page_id = BufferPool.data_ p ∧
     (∀ q, q ≠ page_id → BufferPool.disk_ s' q = BufferPool.disk_ s q) ∧
     BufferPool.log_ s' = BufferPool.log_ s ++ [BufferPool.EvWritePage page_id (BufferPool.data_ p)] ∧
     BufferPool.pages_ s' = BufferPool.pages_ s ∧
     BufferPool.page_table_ s' = BufferPool.page_table_ s ∧
     BufferPool.free_list_ s' = BufferPool.free_list_ s ∧
     BufferPool.replacer_ s' = BufferPool.replacer_ s).
Proof.
  split.
  - unfold BufferPool.FlushPgImp. intros [Ht| ->].
    + by rewrite Ht.
    + destruct (BufferPool.page_table_ s !! BufferPool.INVALID_PAGE_ID); [|done].
      by rewrite bool_decide_eq_true_2.
  - intros f p Ht Hp Hvalid. unfold BufferPool.FlushPgImp. rewrite Ht.
    rewrite bool_decide_eq_false_2 by done.
    rewrite (frame_lookup s f p Hp). destruct s; bpm_simpl.
    split; [done|]. split; [by rewrite decide_True|].
    split; [|done]. intros q Hq. by rewrite decide_False.
Qed.

Lemma FlushPgImp_spec_witness :
  let p := BufferPool.mkPage [x07] 3 0 false in
  let s := BufferPool.mkBPM 1 0 4 [p] {[ 3 := 0%nat ]} []
             (BufferPool.mkLRU [0%nat] 1) (λ _, []) [] in
  BufferPool.FlushPgImp 9 s = (false, s) ∧
  (BufferPool.FlushPgImp 3 s).1 = true ∧
  BufferPool.disk_ (BufferPool.FlushPgImp 3 s).2 3 = [x07].
Proof.
  intros p s. split.
  - apply (proj1 (FlushPgImp_spec 9 s)). left. reflexivity.
  - destruct (proj2 (FlushPgImp_spec 3 s) 0%nat p eq_refl eq_refl) as (H1 & H2 & _).
    + discriminate.
    + split; [exact H1 | exact H2].
Defined.

Section FlushAll.
Import BufferPool.

Lemma FlushAll_fold_disk (l : list (Z * nat)) (s : BPM) :
  NoDup (l.*1) →
  (∀ pid f, (pid, f) ∈ l → page_id_ (frame s f) ≠ INVALID_PAGE_ID) →
  let s' := foldl (λ acc p,
                     if bool_decide (page_id_ (frame acc p.2) ≠ INVALID_PAGE_ID)
                     then WritePage p.1 (data_ (frame acc p.2)) acc else acc) s l in
  (∀ pid f, (pid, f) ∈ l → disk_ s' pid = data_ (frame s f)) ∧
  (∀ q, q ∉ l.*1 → disk_ s' q = disk_ s q).
Proof.
  revert s. induction l as [|[pid f] l IH]; intros s Hnd Hvalid; simpl.
  - split; [|done]. intros pid f Hin. by apply elem_of_nil in Hin.
  - simpl in Hnd. apply NoDup_cons in Hnd as [Hnotin Hnd].
    rewrite bool_decide_eq_true_2 by (apply (Hvalid pid f); by left).
    set (s1 := WritePage pid (data_ (frame s f)) s).
    assert (Hframe : ∀ g, frame s1 g = frame s g) by (intros g; by destruct s).
    assert (Hd1 : disk_ s1 pid = data_ (frame s f)).
    { unfold s1. destruct s; bpm_simpl. by rewrite decide_True. }
    assert (Hd2 : ∀ q, q ≠ pid → disk_ s1 q = disk_ s q).
    { intros q Hq. unfold s1. destruct s; bpm_simpl. by rewrite decide_False. }
    destruct (IH s1 Hnd) as [IH1 IH2].
    { intros pid' f' Hin. rewrite Hframe. apply (Hvalid pid' f'). by right. }
    split.
    + intros pid' f' Hin. apply elem_of_cons in Hin as [[= -> ->]|Hin].
      * by rewrite (IH2 pid Hnotin).
      * rewrite (IH1 pid' f' Hin). by rewrite Hframe.
    + intros q Hq. apply not_elem_of_cons in Hq as [Hne Hq].
      rewrite (IH2 q Hq). by apply Hd2.
Qed.

End FlushAll.

(** X7. Under the pool invariant, after [FlushAllPgsImp] the disk holds,
    for every resident page, the data of its frame; the disk image of the
    pages that are not resident, the frames (dirty bits included), the page
    table, the free list and the replacer are as before. *)
Theorem FlushAllPgsImp_writes_every_resident_page
    (s : BufferPool.BufferPoolManagerInstance) :
  BufferPool.wf s →
  let s' := BufferPool.FlushAllPgsImp s in
  (∀ pid f p, BufferPool.page_table_ s !! pid = Some f →
     BufferPool.pages_ s !! f = Some p →
     BufferPool.disk_ s' pid = BufferPool.data_ p) ∧
  (∀ q, BufferPool.page_table_ s !! q = None →
     BufferPool.disk_ s' q = BufferPool.disk_ s q) ∧
  BufferPool.pages_ s' = BufferPool.pages_ s ∧
  BufferPool.page_table_ s' = BufferPool.page_table_ s ∧
  BufferPool.free_list_ s' = BufferPool.free_list_ s ∧
  BufferPool.replacer_ s' = BufferPool.replacer_ s.
Proof.
  intros Hwf s'. unfold s', BufferPool.FlushAllPgsImp.
  destruct (FlushAll_fold_fields (map_to_list (BufferPool.page_table_ s)) s)
    as (Hp & Ht & Hf & Hr & _).
  destruct (FlushAll_fold_disk (map_to_list (BufferPool.page_table_ s)) s) as [H1 H2].
  { apply NoDup_fst_map_to_list. }
  { intros pid f Hin. apply elem_of_map_to_list in Hin.
    destruct (wf_resident s pid f Hwf Hin) as (Hvalid & p & Hpf & Hpid).
    rewrite (frame_lookup s f p Hpf). congruence. }
  split; [|split; [|done]].
  - intros pid f p Ht' Hp'.
    rewrite (H1 pid f) by (by apply elem_of_map_to_list).
    by rewrite (frame_lookup s f p Hp').
  - intros q Hq. apply H2. intros Hin.
    apply list_elem_of_fmap in Hin as ([q' f] & -> & Hin).
    apply elem_of_map_to_list in Hin. simpl in Hq. congruence.
Qed.

Lemma FlushAllPgsImp_writes_every_resident_page_witness :
  ∃ s0 s,
    BufferPool.new_BufferPoolManagerInstance 4 2 1 0 (λ _, []) = Some s0 ∧
    BufferPool.run [BufferPool.OpNewPage;
                    BufferPool.OpWriteData 0%nat [x01; x02; x03; x04];
                    BufferPool.OpUnpinPage 0 true] s0 = Some s ∧
    BufferPool.disk_ (BufferPool.FlushAllPgsImp s) 0 = [x01; x02; x03; x04].
Proof.
  destruct (run_new_wf 4 2 1 0 (λ _, []) _
              [BufferPool.OpNewPage;
                    BufferPool.OpWriteData 0%nat [x01; x02; x03; x04];
                    BufferPool.OpUnpinPage 0 true] eq_refl)
    as (s & Hrun & Hwf & _).
  { repeat constructor. }
  { vm_compute. discriminate. }
  eexists _, s. split; [reflexivity|]. split; [exact Hrun|].
  destruct (FlushAllPgsImp_writes_every_resident_page s Hwf) as (H1 & _).
  vm_compute in Hrun. injection Hrun as <-.
  apply (H1 0 0%nat (BufferPool.mkPage [x01; x02; x03; x04] 0 0 true));
    reflexivity.
Defined.

(* --------------------------------------------------------------------- *)
(** ** Fetching, evicting and unpinning                                   *)
(* --------------------------------------------------------------------- *)

Section FetchAndEvict.
Import BufferPool.

(** The three ways [find_replace] hands out a frame under the invariant:
    from the free list, an unmapped victim, or a victim whose page is
    written back when dirty and then unmapped. *)
Lemma find_replace_shape (s s' : BPM) f :
  wf s → find_replace s = (Some f, s') →
  ∃ p, pages_ s !! f = Some p ∧ pin_count_ p = 0 ∧
    ((∃ rest, free_list_ s = f :: rest ∧ s' = set_free_list rest s ∧
              ∀ pid, page_table_ s !! pid ≠ Some f) ∨
     (∃ r, free_list_ s = [] ∧ Victim (replacer_ s) = Some (f, r) ∧
        (((∀ pid, page_table_ s !! pid ≠ Some f) ∧ s' = set_replacer r s) ∨
         (page_table_ s !! page_id_ p = Some f ∧
          s' = table_erase (page_id_ p)
                 (if is_dirty_ p
                  then WritePage (page_id_ p) (data_ p) (set_replacer r s)
                  else set_replacer r s))))).
Proof.
  intros Hwf. unfold find_replace.
  destruct (free_list_ s) as [|f0 rest] eqn:Hfl.
  - destruct (Victim (replacer_ s)) as [[f0 r]|] eqn:Hv; [|done].
    pose proof Hv as Hv'.
    apply Victim_Some in Hv as (Hin & Hsub & Hcap).
    destruct (wf_lru _ Hwf f0 Hin) as (p & Hp & Hpin).
    assert (Hf1 : frame (set_replacer r s) f0 = p) by by apply frame_lookup.
    replace (page_table_ (set_replacer r s)) with (page_table_ s) by (by destruct s).
    destruct (find_resident_cases f0 (page_table_ s)) as [Hk|Hk].
    + rewrite Hk. rewrite bool_decide_eq_false_2 by (intros H; apply H; done).
      intros [= <- <-]. exists p. split; [done|]. split; [done|].
      right. exists r. split; [done|]. split; [done|]. left. split; [|done].
      intros pid Hpid. apply find_resident_found in Hpid. rewrite Hk in Hpid.
      exact (lookup_invalid_absurd _ _ (wf_valid _ Hwf) Hpid).
    + destruct (wf_table _ Hwf _ _ Hk) as [(p' & Hp' & Hpid) _].
      assert (p' = p) as -> by congruence.
      rewrite bool_decide_eq_true_2.
      2:{ intros Heq. rewrite Heq in Hk.
          exact (lookup_invalid_absurd _ _ (wf_valid _ Hwf) Hk). }
      rewrite Hf1.
      assert (Hs2 : (if is_dirty_ p
                     then upd_frame f0 (set_pin_count 0)
                            (WritePage (page_id_ p) (data_ p) (set_replacer r s))
                     else set_replacer r s) =
                    (if is_dirty_ p
                     then WritePage (page_id_ p) (data_ p) (set_replacer r s)
                     else set_replacer r s)).
      { destruct (is_dirty_ p); [|done].
        rewrite (upd_frame_as_insert _ f0 _ p) by (by destruct s).
        rewrite set_pin_count_same by done.
        destruct s; bpm_simpl. by rewrite list_insert_id. }
      rewrite Hs2. clear Hs2.
      assert (Hf2 : frame (if is_dirty_ p
                     then WritePage (page_id_ p) (data_ p) (set_replacer r s)
                     else set_replacer r s) f0 = p).
      { apply frame_lookup. by destruct (is_dirty_ p), s. }
      rewrite Hf2. intros [= <- <-]. exists p. split; [done|]. split; [done|].
      right. exists r. split; [done|]. split; [done|]. right.
      split; [|done]. by rewrite Hpid.
  - intros [= <- <-].
    destruct (wf_free _ Hwf f0) as (p & Hp & Hpin).
    { rewrite Hfl. apply elem_of_cons. by left. }
    exists p. split; [done|]. split; [done|]. left. exists rest.
    split; [done|]. split; [done|].
    intros pid Hpid. destruct (wf_table _ Hwf _ _ Hpid) as [_ Hnf]. apply Hnf.
    rewrite Hfl. apply elem_of_cons. by left.
Qed.

(** What a frame hand-out does to the disk: nothing, or one write of the
    victim's data under the victim's page id. *)
Lemma find_replace_disk (s s' : BPM) f p :
  wf s → find_replace s = (Some f, s') → pages_ s !! f = Some p →
  pages_ s' = pages_ s ∧
  (∀ q, q ≠ page_id_ p → disk_ s' q = disk_ s q) ∧
  (page_table_ s !! page_id_ p = Some f → is_dirty_ p = true →
   disk_ s' (page_id_ p) = data_ p) ∧
  (is_dirty_ p = false → ∀ q, disk_ s' q = disk_ s q).
Proof.
  intros Hwf Hfr Hp.
  destruct (find_replace_shape s s' f Hwf Hfr) as (p' & Hp' & Hpin & Hcase).
  assert (p' = p) as -> by congruence.
  destruct Hcase as [(rest & Hfl & -> & Hun)|(r & Hfl & Hv & [[Hun ->]|[Ht ->]])].
  - split; [by destruct s|]. split; [by destruct s|]. split; [|by destruct s].
    intros Ht. by destruct (Hun _ Ht).
  - split; [by destruct s|]. split; [by destruct s|]. split; [|by destruct s].
    intros Ht'. by destruct (Hun _ Ht').
  - destruct (is_dirty_ p) eqn:Hd.
    + split; [by destruct s|]. split; [|split; [|done]].
      * intros q Hq. destruct s; bpm_simpl. by rewrite decide_False.
      * intros _ _. destruct s; bpm_simpl. by rewrite decide_True.
    + split; [by destruct s|]. split; [by destruct s|]. split; [done|].
      by destruct s.
Qed.

(** A miss in [FetchPgImp] under the invariant: the frame that is handed
    out was unpinned; afterwards it holds the requested page as the disk
    has it, pinned once and clean; no other frame has changed. *)
Lemma FetchPgImp_miss (s s' : BPM) page_id f :
  wf s → page_table_ s !! page_id = None →
  FetchPgImp page_id s = (Some f, s') →
  ∃ p, pages_ s !! f = Some p ∧ pin_count_ p = 0 ∧
       pages_ s' = <[f := mkPage (disk_ s' page_id) page_id 1 false]> (pages_ s) ∧
       page_table_ s' !! page_id = Some f ∧
       (∀ q, q ≠ page_id_ p → q ≠ page_id → disk_ s' q = disk_ s q) ∧
       (is_dirty_ p = true → page_id_ p ≠ page_id →
        disk_ s' (page_id_ p) = data_ p) ∧
       (is_dirty_ p = false → ∀ q, disk_ s' q = disk_ s q).
Proof.
  intros Hwf Ht. unfold FetchPgImp. rewrite Ht.
  destruct (find_replace s) as [[f0|] s1] eqn:E; [|done].
  destruct (find_replace_shape s s1 f0 Hwf E) as (p & Hp & Hpin & _).
  destruct (find_replace_disk s s1 f0 p Hwf E Hp) as (Hps1 & Hd1 & _ & Hd3).
  assert (Hp1 : pages_ s1 !! f0 = Some p) by by rewrite Hps1.
  rewrite (frame_lookup s1 f0 p Hp1).
  assert (Hlen : (f0 < length (pages_ s1))%nat) by by eapply lookup_lt_Some.
  intros [= <- <-]. exists p. split; [done|]. split; [done|].
  rewrite <- Hps1.
  destruct (is_dirty_ p) eqn:Hd.
  - destruct s1 as [ni ii np ps t fl r d lg]; bpm_simpl.
    rewrite (alter_as_insert ps f0 _ p Hp1).
    rewrite !alter_insert_eq by done. simpl. rewrite Hpin.
    split; [done|]. split; [apply lookup_insert_eq|].
    split; [|split; [|done]].
    + intros q Hq1 Hq2. rewrite decide_False by done. by apply Hd1.
    + intros _ _. by rewrite decide_True.
  - destruct s1 as [ni ii np ps t fl r d lg]; bpm_simpl.
    rewrite (alter_as_insert ps f0 _ p Hp1).
    rewrite !alter_insert_eq by done. simpl. rewrite Hpin.
    split; [done|]. split; [apply lookup_insert_eq|].
    split; [|split; [done|]].
    + intros q Hq1 Hq2. by apply Hd1.
    + intros _ q. by apply Hd3.
Qed.

Lemma FetchPgImp_None (s s' : BPM) page_id :
  FetchPgImp page_id s = (None, s') →
  s' = s ∧ page_table_ s !! page_id = None ∧
  free_list_ s = [] ∧ Size (replacer_ s) = 0%nat.
Proof.
  unfold FetchPgImp.
  destruct (page_table_ s !! page_id) as [f|]; [done|].
  destruct (find_replace s) as [[f|] s1] eqn:E; [done|].
  intros [= <-]. pose proof (find_replace_None _ _ E) as ->.
  split; [done|]. split; [done|].
  unfold find_replace in E.
  destruct (free_list_ s) as [|f rest]; [|done].
  destruct (Victim (replacer_ s)) as [[f r]|] eqn:Hv.
  - by case_bool_decide.
  - split; [done|]. by apply Victim_None.
Qed.

End FetchAndEvict.

Section NewPageEffects.
Import BufferPool.

(** [NewPgImp] under the invariant, with what it does to the disk: the
    only write is that of a dirty resident victim. *)
Lemma NewPgImp_effects (s : BPM) :
  wf s →
  ValidatePageId (next_page_id_ s) s = true →
  ∃ res s', NewPgImp s = Some (res, s') ∧
    match res with
    | None =>
        s' = set_next_page_id (to_int32 (next_page_id_ s + num_instances_ s)) s
    | Some (pid, f) =>
        ∃ p, pages_ s !! f = Some p ∧ pin_count_ p = 0 ∧
             pages_ s' = <[f := mkPage (data_ p) pid 1 false]> (pages_ s) ∧
             (∀ q, q ≠ page_id_ p → disk_ s' q = disk_ s q) ∧
             (page_table_ s !! page_id_ p = Some f → is_dirty_ p = true →
              disk_ s' (page_id_ p) = data_ p) ∧
             (is_dirty_ p = false → ∀ q, disk_ s' q = disk_ s q)
    end.
Proof.
  intros Hwf Hvalid. pose proof (AllocatePage_wf s Hwf) as Hwf1.
  pose proof (AllocatePage_Some s Hvalid) as Ha.
  unfold NewPgImp. rewrite Ha.
  set (s1 := set_next_page_id (to_int32 (next_page_id_ s + num_instances_ s)) s) in *.
  assert (Hs1 : pages_ s1 = pages_ s ∧ page_table_ s1 = page_table_ s ∧
                disk_ s1 = disk_ s) by (by destruct s).
  destruct Hs1 as (Hs1p & Hs1t & Hs1d).
  destruct (forallb _ (pages_ s1)); [by exists None, s1|].
  destruct (find_replace s1) as [[f|] s2] eqn:E.
  2:{ apply find_replace_None in E as ->. by exists None, s1. }
  destruct (find_replace_shape s1 s2 f Hwf1 E) as (p & Hp & Hpin & _).
  destruct (find_replace_disk s1 s2 f p Hwf1 E Hp) as (Hps2 & Hd1 & Hd2 & Hd3).
  eexists _, _. split; [reflexivity|]. exists p.
  rewrite Hs1p in Hp. split; [done|]. split; [done|].
  assert (Hp2 : pages_ s2 !! f = Some p) by (by rewrite Hps2, Hs1p).
  assert (Hlen : (f < length (pages_ s2))%nat) by by eapply lookup_lt_Some.
  rewrite Hs1t, Hs1d in *. rewrite <- Hs1p, <- Hps2.
  clear E Hwf1 Ha. clearbody s1.
  destruct s2 as [ni ii np ps t fl r d lg]; bpm_simpl.
  rewrite (alter_as_insert ps f _ p Hp2).
  rewrite !alter_insert_eq by done. simpl. by rewrite Hpin.
Qed.

End NewPageEffects.

(** X8. A miss in [FetchPgImp], under the pool invariant. When a frame is
    returned, it was unpinned before the call, and afterwards it carries
    the requested page id, pin count 1, a clear dirty bit and the data the
    disk holds for that page, and the page table maps the page to it. When
    nothing is returned, the free list and the replacer are empty and the
    pool is unchanged. *)
Theorem FetchPgImp_miss_spec (s : BufferPool.BufferPoolManagerInstance) (page_id : Z) :
  BufferPool.wf s →
  BufferPool.page_table_ s !! page_id = None →
  match BufferPool.FetchPgImp page_id s with
  | (Some f, s') =>
      BufferPool.unpinned_frame s f ∧
      ∃ p', BufferPool.pages_ s' !! f = Some p' ∧
            BufferPool.page_id_ p' = page_id ∧
            BufferPool.pin_count_ p' = 1 ∧
            BufferPool.is_dirty_ p' = false ∧
            BufferPool.data_ p' = BufferPool.disk_ s' page_id ∧
            BufferPool.page_table_ s' !! page_id = Some f
  | (None, s') =>
      s' = s ∧ BufferPool.free_list_ s = [] ∧
      BufferPool.Size (BufferPool.replacer_ s) = 0%nat
  end.
Proof.
  intros Hwf Ht.
  destruct (BufferPool.FetchPgImp page_id s) as [[f|] s'] eqn:E.
  - destruct (FetchPgImp_miss s s' page_id f Hwf Ht E)
      as (p & Hp & Hpin & Hps & Htab & _).
    split; [by exists p|].
    eexists. split.
    + rewrite Hps. apply list_lookup_insert_eq. by eapply lookup_lt_Some.
    + done.
  - destruct (FetchPgImp_None s s' page_id E) as (-> & _ & ? & ?). done.
Qed.

Lemma FetchPgImp_miss_spec_witness :
  ∃ s0,
    BufferPool.new_BufferPoolManagerInstance 4 1 1 0 (λ _, [x09]) = Some s0 ∧
    BufferPool.unpinned_frame s0 0%nat ∧
    ∃ p', BufferPool.pages_ (BufferPool.FetchPgImp 5 s0).2 !! 0%nat = Some p' ∧
          BufferPool.page_id_ p' = 5 ∧
          BufferPool.pin_count_ p' = 1 ∧
          BufferPool.is_dirty_ p' = false ∧
          BufferPool.data_ p' = BufferPool.disk_ (BufferPool.FetchPgImp 5 s0).2 5 ∧
          BufferPool.page_table_ (BufferPool.FetchPgImp 5 s0).2 !! 5 = Some 0%nat.
Proof.
  eexists. split; [reflexivity|].
  exact (FetchPgImp_miss_spec _ 5
           (new_BufferPoolManagerInstance_wf 4 1 1 0 (λ _, [x09]) _ eq_refl) eq_refl).
Defined.

(** X9. A dirty page is written back before its frame is reused: under
    the pool invariant, when [NewPgImp] or a missing [FetchPgImp] hands out
    the frame of a resident page that is dirty, the disk afterwards holds
    that page's data under its page id. *)
Theorem eviction_writes_dirty_page_back (s : BufferPool.BufferPoolManagerInstance)
    (P : Z) (f : nat) (p : BufferPool.Page) :
  BufferPool.wf s →
  BufferPool.page_table_ s !! P = Some f →
  BufferPool.pages_ s !! f = Some p →
  BufferPool.is_dirty_ p = true →
  (∀ pid s', BufferPool.NewPgImp s = Some (Some (pid, f), s') →
             BufferPool.disk_ s' P = BufferPool.data_ p) ∧
  (∀ page_id s', BufferPool.page_table_ s !! page_id = None →
                 BufferPool.FetchPgImp page_id s = (Some f, s') →
                 BufferPool.disk_ s' P = BufferPool.data_ p).
Proof.
  intros Hwf Ht Hp Hd.
  destruct (wf_resident s P f Hwf Ht) as (_ & p0 & Hp0 & HP).
  assert (p0 = p) as -> by congruence.
  split.
  - intros pid s' Hnew.
    destruct (NewPgImp_effects s Hwf (NewPgImp_Some_valid s _ Hnew))
      as (res & s1 & Hnew1 & Hres).
    rewrite Hnew in Hnew1. injection Hnew1 as <- <-.
    destruct Hres as (p1 & Hp1 & _ & _ & _ & Hw & _).
    assert (p1 = p) as -> by congruence.
    rewrite <- HP. apply Hw; [by rewrite HP | done].
  - intros page_id s' Hmiss Hfetch.
    destruct (FetchPgImp_miss s s' page_id f Hwf Hmiss Hfetch)
      as (p1 & Hp1 & _ & _ & _ & _ & Hw & _).
    assert (p1 = p) as -> by congruence.
    rewrite <- HP. apply Hw; [done|]. rewrite HP. congruence.
Qed.

Lemma eviction_writes_dirty_page_back_witness :
  ∃ s0 s s',
    BufferPool.new_BufferPoolManagerInstance 4 1 1 0 (λ _, []) = Some s0 ∧
    BufferPool.run [BufferPool.OpNewPage;
                    BufferPool.OpWriteData 0%nat [x01; x02; x03; x04];
                    BufferPool.OpUnpinPage 0 true] s0 = Some s ∧
    BufferPool.FetchPgImp 7 s = (Some 0%nat, s') ∧
    BufferPool.disk_ s' 0 = [x01; x02; x03; x04].
Proof.
  destruct (run_new_wf 4 1 1 0 (λ _, []) _
              [BufferPool.OpNewPage;
                    BufferPool.OpWriteData 0%nat [x01; x02; x03; x04];
                    BufferPool.OpUnpinPage 0 true] eq_refl)
    as (s & Hrun & Hwf & _).
  { repeat constructor. }
  { vm_compute. discriminate. }
  eexists _, s, _. split; [reflexivity|]. split; [exact Hrun|].
  pose proof (eviction_writes_dirty_page_back s 0 0%nat
                (BufferPool.mkPage [x01; x02; x03; x04] 0 0 true) Hwf) as H.
  vm_compute in Hrun. injection Hrun as <-.
  destruct (H eq_refl eq_refl eq_refl) as [_ H2].
  split; [vm_compute; reflexivity|].
  apply (H2 7); [reflexivity | vm_compute; reflexivity].
Defined.

(** X10. Pinned frames are never touched by a hand-out: under the pool
    invariant, a frame whose pin count is positive is left exactly as it
    is by [NewPgImp] and by a missing [FetchPgImp], whatever they return. *)
Theorem pinned_frame_survives (s : BufferPool.BufferPoolManagerInstance)
    (g : nat) (p : BufferPool.Page) :
  BufferPool.wf s →
  BufferPool.pages_ s !! g = Some p →
  0 < BufferPool.pin_count_ p →
  (∀ res s', BufferPool.NewPgImp s = Some (res, s') →
             BufferPool.pages_ s' !! g = Some p) ∧
  (∀ page_id res s', BufferPool.page_table_ s !! page_id = None →
                     BufferPool.FetchPgImp page_id s = (res, s') →
                     BufferPool.pages_ s' !! g = Some p).
Proof.
  intros Hwf Hg Hpin. split.
  - intros res s' Hnew.
    destruct (NewPgImp_effects s Hwf (NewPgImp_Some_valid s _ Hnew))
      as (res1 & s1 & Hnew1 & Hres).
    rewrite Hnew in Hnew1. injection Hnew1 as <- <-.
    destruct res as [[pid f]|].
    + destruct Hres as (p1 & Hp1 & Hpin1 & Hps & _).
      rewrite Hps. rewrite list_lookup_insert_ne; [done|].
      intros ->. assert (p1 = p) as -> by congruence. lia.
    + rewrite Hres. by destruct s.
  - intros page_id res s' Hmiss Hfetch. destruct res as [f|].
    + destruct (FetchPgImp_miss s s' page_id f Hwf Hmiss Hfetch)
        as (p1 & Hp1 & Hpin1 & Hps & _).
      rewrite Hps. rewrite list_lookup_insert_ne; [done|].
      intros ->. assert (p1 = p) as -> by congruence. lia.
    + by destruct (FetchPgImp_None s s' page_id Hfetch) as (-> & _).
Qed.

Lemma pinned_frame_survives_witness :
  ∃ s0 s,
    BufferPool.new_BufferPoolManagerInstance 4 2 1 0 (λ _, []) = Some s0 ∧
    BufferPool.run [BufferPool.OpNewPage] s0 = Some s ∧
    BufferPool.pages_ (BufferPool.FetchPgImp 7 s).2 !! 0%nat =
      Some (BufferPool.mkPage [x00; x00; x00; x00] 0 1 false).
Proof.
  destruct (run_new_wf 4 2 1 0 (λ _, []) _
              [BufferPool.OpNewPage] eq_refl)
    as (s & Hrun & Hwf & _).
  { repeat constructor. }
  { vm_compute. discriminate. }
  eexists _, s. split; [reflexivity|]. split; [exact Hrun|].
  pose proof (pinned_frame_survives s 0%nat
                (BufferPool.mkPage [x00; x00; x00; x00] 0 1 false) Hwf) as H.
  vm_compute in Hrun. injection Hrun as <-.
  destruct (H eq_refl) as [_ H2]; [simpl; lia|].
  match goal with
  | |- context [BufferPool.FetchPgImp 7 ?S] =>
      apply (H2 7 (BufferPool.FetchPgImp 7 S).1 (BufferPool.FetchPgImp 7 S).2 eq_refl);
      by destruct (BufferPool.FetchPgImp 7 S)
  end.
Defined.

(** X11. A hit in [FetchPgImp] followed by [UnpinPgImp] with a false
    dirty flag undoes the pin: the fetch returns the page's frame with one
    more pin and no disk call, the unpin returns true, and the frames, the
    page table, the free list, the disk and the log are as before the
    fetch. *)
Theorem Fetch_hit_then_Unpin_restores (s : BufferPool.BufferPoolManagerInstance)
    (page_id : Z) (f : nat) (p : BufferPool.Page) :
  BufferPool.page_table_ s !! page_id = Some f →
  BufferPool.pages_ s !! f = Some p →
  0 ≤ BufferPool.pin_count_ p →
  let s1 := (BufferPool.FetchPgImp page_id s).2 in
  let r := BufferPool.UnpinPgImp page_id false s1 in
  (BufferPool.FetchPgImp page_id s).1 = Some f ∧
  BufferPool.pages_ s1 !! f =
    Some (BufferPool.set_pin_count (BufferPool.pin_count_ p + 1) p) ∧
  BufferPool.log_ s1 = BufferPool.log_ s ∧
  r.1 = true ∧
  BufferPool.pages_ r.2 = BufferPool.pages_ s ∧
  BufferPool.page_table_ r.2 = BufferPool.page_table_ s ∧
  BufferPool.free_list_ r.2 = BufferPool.free_list_ s ∧
  BufferPool.log_ r.2 = BufferPool.log_ s.
Proof.
  intros Ht Hp Hpin s1 r.
  assert (Hlen : (f < length (BufferPool.pages_ s))%nat) by by eapply lookup_lt_Some.
  assert (Hs1 : s1 = BufferPool.set_replacer
                       (BufferPool.Pin f (BufferPool.replacer_ s))
                       (BufferPool.set_pages
                          (<[f := BufferPool.set_pin_count (BufferPool.pin_count_ p + 1) p]>
                             (BufferPool.pages_ s)) s)).
  { unfold s1, BufferPool.FetchPgImp. rewrite Ht. simpl.
    rewrite (upd_frame_as_insert s f _ p Hp). by destruct s. }
  assert (Hf1 : BufferPool.pages_ s1 !! f =
                Some (BufferPool.set_pin_count (BufferPool.pin_count_ p + 1) p)).
  { rewrite Hs1. destruct s; bpm_simpl. by apply list_lookup_insert_eq. }
  split; [unfold BufferPool.FetchPgImp; by rewrite Ht|].
  split; [done|]. split; [rewrite Hs1; by destruct s|].
  assert (Ht1 : BufferPool.page_table_ s1 !! page_id = Some f).
  { rewrite Hs1. by destruct s. }
  unfold r, BufferPool.UnpinPgImp. rewrite Ht1.
  rewrite (frame_lookup s1 f _ Hf1). simpl.
  destruct (Z.eqb_spec (BufferPool.pin_count_ p + 1) 0) as [?|_]; [lia|].
  rewrite (upd_frame_as_insert s1 f _ _ Hf1). simpl.
  assert (Hback : BufferPool.set_pin_count (BufferPool.pin_count_ p + 1 - 1) 
                    (BufferPool.set_pin_count (BufferPool.pin_count_ p + 1) p) = p).
  { destruct p; simpl. unfold BufferPool.set_pin_count; simpl. f_equal. lia. }
  rewrite Hback.
  assert (Hps : <[f := p]> (BufferPool.pages_ s1) = BufferPool.pages_ s).
  { rewrite Hs1. destruct s; bpm_simpl.
    rewrite list_insert_insert_eq. by apply list_insert_id. }
  rewrite Hps.
  assert (Hrest : BufferPool.page_table_ s1 = BufferPool.page_table_ s ∧
                  BufferPool.free_list_ s1 = BufferPool.free_list_ s ∧
                  BufferPool.log_ s1 = BufferPool.log_ s).
  { rewrite Hs1. by destruct s. }
  destruct Hrest as (Ha & Hb & Hc).
  rewrite (frame_lookup _ f p).
  2:{ simpl. rewrite <- Hps. apply list_lookup_insert_eq.
      rewrite Hs1. destruct s; bpm_simpl. by rewrite length_insert. }
  clearbody s1. destruct (BufferPool.pin_count_ p =? 0); by destruct s1.
Qed.

Lemma Fetch_hit_then_Unpin_restores_witness :
  let p := BufferPool.mkPage [x07] 3 0 true in
  let s := BufferPool.mkBPM 1 0 4 [p] {[ 3 := 0%nat ]} []
             (BufferPool.mkLRU [0%nat] 1) (λ _, []) [] in
  (BufferPool.FetchPgImp 3 s).1 = Some 0%nat ∧
  BufferPool.pages_
    (BufferPool.UnpinPgImp 3 false (BufferPool.FetchPgImp 3 s).2).2 = [p].
Proof.
  intros p s.
  destruct (Fetch_hit_then_Unpin_restores s 3 0%nat p eq_refl eq_refl)
    as (H1 & _ & _ & _ & H2 & _).
  - simpl. lia.
  - split; [exact H1 | exact H2].
Defined.

(** X12. [UnpinPgImp] on a page that is not resident returns false and
    changes nothing. On a resident page whose pin count is not zero it
    returns true, takes one pin off, sets the dirty bit when [is_dirty] is
    true and otherwise leaves it as it is (it never clears it), and hands
    the frame to the replacer exactly when the pin count has reached zero;
    the page table, the free list, the disk and the log are as before. *)
Theorem UnpinPgImp_spec (page_id : Z) (is_dirty : bool)
    (s : BufferPool.BufferPoolManagerInstance) :
  (BufferPool.page_table_ s !! page_id = None →
   BufferPool.UnpinPgImp page_id is_dirty s = (false, s)) ∧
  (∀ f p, BufferPool.page_table_ s !! page_id = Some f →
     BufferPool.pages_ s !! f = Some p →
     BufferPool.pin_count_ p ≠ 0 →
     BufferPool.UnpinPgImp page_id is_dirty s =
       (true,
        BufferPool.mkBPM
          (BufferPool.num_instances_ s) (BufferPool.instance_index_ s)
          (BufferPool.next_page_id_ s)
          (<[f := BufferPool.mkPage (BufferPool.data_ p) (BufferPool.page_id_ p)
                    (BufferPool.pin_count_ p - 1)
                    (is_dirty || BufferPool.is_dirty_ p)]> (BufferPool.pages_ s))
          (BufferPool.page_table_ s)
          (BufferPool.free_list_ s)
          (if BufferPool.pin_count_ p - 1 =? 0
           then BufferPool.Unpin f (BufferPool.replacer_ s)
           else BufferPool.replacer_ s)
          (BufferPool.disk_ s) (BufferPool.log_ s))).
Proof.
  split.
  - intros Ht. unfold BufferPool.UnpinPgImp. by rewrite Ht.
  - intros f p Ht Hp Hpin. unfold BufferPool.UnpinPgImp. rewrite Ht.
    assert (Hlen : (f < length (BufferPool.pages_ s))%nat) by by eapply lookup_lt_Some.
    set (p1 := BufferPool.set_is_dirty (is_dirty || BufferPool.is_dirty_ p) p).
    assert (Hs1 : (if is_dirty
                   then BufferPool.upd_frame f (BufferPool.set_is_dirty true) s
                   else s) =
                  BufferPool.set_pages (<[f := p1]> (BufferPool.pages_ s)) s).
    { unfold p1. destruct is_dirty; simpl.
      - by rewrite (upd_frame_as_insert s f _ p Hp).
      - by rewrite set_is_dirty_same, list_insert_id, set_pages_same. }
    rewrite Hs1.
    assert (Hp1 : BufferPool.pages_
                    (BufferPool.set_pages (<[f := p1]> (BufferPool.pages_ s)) s) !! f =
                  Some p1).
    { destruct s; bpm_simpl. by apply list_lookup_insert_eq. }
    rewrite (frame_lookup _ f p1 Hp1).
    destruct (Z.eqb_spec (BufferPool.pin_count_ p1) 0) as [Hz|_]; [done|].
    rewrite (upd_frame_as_insert _ f _ p1 Hp1).
    rewrite (frame_lookup _ f (BufferPool.set_pin_count (BufferPool.pin_count_ p1 - 1) p1)).
    2:{ destruct s; bpm_simpl. apply list_lookup_insert_eq.
        by rewrite length_insert. }
    simpl. destruct (BufferPool.pin_count_ p - 1 =? 0);
      destruct s; bpm_simpl; by rewrite list_insert_insert_eq.
Qed.

Lemma UnpinPgImp_spec_witness :
  let p := BufferPool.mkPage [x07] 3 1 true in
  let s := BufferPool.mkBPM 1 0 4 [p] {[ 3 := 0%nat ]} []
             (BufferPool.mkLRU [] 1) (λ _, []) [] in
  BufferPool.UnpinPgImp 9 false s = (false, s) ∧
  BufferPool.UnpinPgImp 3 false s =
    (true, BufferPool.mkBPM 1 0 4 [BufferPool.mkPage [x07] 3 0 true]
             {[ 3 := 0%nat ]} [] (BufferPool.mkLRU [0%nat] 1) (λ _, []) []).
Proof.
  intros p s. split.
  - exact (proj1 (UnpinPgImp_spec 9 false s) eq_refl).
  - rewrite (proj2 (UnpinPgImp_spec 3 false s) 0%nat p eq_refl eq_refl);
      [reflexivity | discriminate].
Defined.

(* --------------------------------------------------------------------- *)
(** ** A fresh pool                                                       *)
(* --------------------------------------------------------------------- *)

Section FreshPool.
Import BufferPool Scenarios.

Lemma insert_middle_eq (pre rest : list Page) x y k :
  length pre = k → <[k := y]> (pre ++ x :: rest) = pre ++ y :: rest.
Proof.
  intros <-. induction pre as [|a pre IH]; simpl; [done|]. by rewrite IH.
Qed.

Lemma lookup_middle_eq (pre rest : list Page) x k :
  length pre = k → (pre ++ x :: rest) !! k = Some x.
Proof. intros <-. by apply list_lookup_middle. Qed.

Lemma new_pool_filled PAGE_SIZE n ni ii disk s0 :
  new_BufferPoolManagerInstance PAGE_SIZE n ni ii disk = Some s0 →
  filled PAGE_SIZE n 0 (Z.of_N ni) (Z.of_N ii) s0.
Proof.
  intros Hnew.
  pose proof (wf_alloc _ (new_BufferPoolManagerInstance_wf _ _ _ _ _ _ Hnew)) as Hok.
  apply new_BufferPoolManagerInstance_Some in Hnew as (_ & _ & ->).
  unfold filled; simpl. rewrite Nat.sub_0_r. split_and!; try done.
  f_equal. lia.
Qed.

(** The id that a pool which has only seen NewPage calls hands out next,
    while it is in the range of [page_id_t]. *)
Lemma filled_next PAGE_SIZE n k ni ii (s : BPM) :
  filled PAGE_SIZE n k ni ii s →
  ii + Z.of_nat k * ni ≤ INT32_MAX →
  next_page_id_ s = ii + Z.of_nat k * ni ∧
  ValidatePageId (next_page_id_ s) s = true.
Proof.
  intros (_ & _ & _ & Hni & Hii & Hnp & Hok) Hle.
  pose proof Hok as (Hn & Hi & _). rewrite Hni in Hn. rewrite Hni, Hii in Hi.
  assert (Hnp' : next_page_id_ s = ii + Z.of_nat k * ni).
  { rewrite Hnp. apply to_int32_small. unfold INT32_MAX in *. nia. }
  split; [done|]. apply ValidatePageId_ok; [done|].
  unfold next_id_ok. rewrite Hnp', Hni, Hii. split; [nia|].
  rewrite Z.rem_mod_nonneg by nia. rewrite Z.mod_add by lia.
  apply Z.mod_small. lia.
Qed.

(** One more NewPage on a pool that has only seen NewPage calls, while a
    frame is left. *)
Lemma NewPgImp_filled PAGE_SIZE n k ni ii (s : BPM) :
  filled PAGE_SIZE n k ni ii s → (k < n)%nat →
  ii + Z.of_nat k * ni ≤ INT32_MAX →
  ∃ s', NewPgImp s = Some (Some (ii + Z.of_nat k * ni, k), s') ∧
        filled PAGE_SIZE n (S k) ni ii s'.
Proof.
  intros Hfilled Hk Hle.
  destruct (filled_next _ _ _ _ _ _ Hfilled Hle) as [Hnext Hvalid].
  destruct Hfilled as (Hps & Hfl & Hlru & Hni & Hii & Hnp & Hok).
  assert (Hm : (n - k = S (n - S k))%nat) by lia.
  rewrite Hm in Hps, Hfl. simpl in Hps, Hfl.
  set (pre := filled_page PAGE_SIZE ni ii <$> seq 0 k) in *.
  assert (Hpre : length pre = k) by (unfold pre; by rewrite length_fmap, length_seq).
  unfold NewPgImp. rewrite (AllocatePage_Some s Hvalid).
  set (s1 := set_next_page_id (to_int32 (next_page_id_ s + num_instances_ s)) s).
  assert (Hs1 : pages_ s1 = pages_ s ∧ free_list_ s1 = free_list_ s ∧
                replacer_ s1 = replacer_ s ∧ num_instances_ s1 = num_instances_ s ∧
                instance_index_ s1 = instance_index_ s ∧
                next_page_id_ s1 = to_int32 (next_page_id_ s + num_instances_ s))
    by (by destruct s).
  destruct Hs1 as (Hs1p & Hs1f & Hs1r & Hs1n & Hs1i & Hs1np).
  assert (Hall : forallb (λ p, negb (pin_count_ p =? 0)) (pages_ s1) = false).
  { rewrite Hs1p, Hps, forallb_app. simpl. apply andb_false_r. }
  rewrite Hall.
  assert (Hfr : find_replace s1 = (Some k, set_free_list (seq (S k) (n - S k)) s1)).
  { unfold find_replace. by rewrite Hs1f, Hfl. }
  rewrite Hfr. eexists. split; [by rewrite Hnext|].
  assert (Hok' : alloc_ok s1).
  { destruct Hok as (? & ? & ?). unfold alloc_ok. rewrite Hs1n, Hs1i, Hs1np.
    split; [done|]. split; [done|]. apply to_int32_range. }
  rewrite Hps in Hs1p. rewrite <- Hs1r in Hlru.
  rewrite Hni in Hs1n, Hs1np. rewrite Hii in Hs1i. rewrite Hnext in Hs1np.
  replace (ii + Z.of_nat k * ni + ni) with (ii + Z.of_nat (S k) * ni) in Hs1np by lia.
  clear Hfr Hall Hs1f Hs1r Hps Hfl Hni Hii Hnp Hok Hvalid. clearbody s1.
  clear Hnext. clear s.
  destruct s1 as [ni1 ii1 np1 ps1 t1 fl1 r1 d1 lg1].
  simpl in *. subst ps1 ni1 ii1 np1.
  unfold filled. bpm_simpl. split_and!; try done.
  - rewrite (alter_as_insert
               (pre ++ new_Page PAGE_SIZE :: replicate (n - S k) (new_Page PAGE_SIZE))
               k _ (new_Page PAGE_SIZE))
      by (by apply lookup_middle_eq).
    rewrite !alter_insert_eq
      by (rewrite length_app; simpl; lia).
    rewrite (insert_middle_eq pre _ _ _ k Hpre).
    rewrite seq_S, fmap_app. simpl. rewrite <- app_assoc. simpl.
    done.
  - unfold Pin; simpl. by rewrite Hlru.
Qed.

Lemma run_NewPage_filled PAGE_SIZE n j k ni ii (s : BPM) :
  filled PAGE_SIZE n j ni ii s → (j + k ≤ n)%nat →
  ii + Z.of_nat (j + k) * ni ≤ INT32_MAX →
  ∃ s', run (replicate k OpNewPage) s = Some s' ∧
        filled PAGE_SIZE n (j + k) ni ii s'.
Proof.
  revert j s. induction k as [|k IH]; intros j s Hf Hjk Hle; simpl.
  - exists s. by rewrite Nat.add_0_r.
  - pose proof Hf as (_ & _ & _ & Hni & _ & _ & ((Hn & _) & _)). rewrite Hni in Hn.
    destruct (NewPgImp_filled _ _ _ _ _ _ Hf) as (s1 & -> & Hf1); [lia|nia|].
    simpl. replace (j + S k)%nat with (S j + k)%nat in * by lia.
    destruct (IH (S j) s1 Hf1) as (s' & Hrun & Hf'); [lia|done|].
    by exists s'.
Qed.

Lemma filled_all_pinned PAGE_SIZE n ni ii (s : BPM) :
  filled PAGE_SIZE n n ni ii s → all_pinned s.
Proof.
  intros (Hps & _). rewrite Nat.sub_diag, app_nil_r in Hps.
  intros f p Hp. rewrite Hps in Hp.
  apply list_lookup_fmap_Some in Hp as (i & -> & _). simpl. lia.
Qed.

End FreshPool.

(** X13. On a freshly constructed pool of [pool_size] frames, successive
    NewPage calls fill the frames in order: as long as
    [instance_index + k * num_instances] is at most [INT32_MAX], the call
    after [k] earlier ones returns frame [k] with that page id when
    [k < pool_size], and the call after [pool_size] earlier ones returns
    no page. *)
Theorem fresh_pool_NewPage_sequence (PAGE_SIZE pool_size : nat)
    (num_instances instance_index : N) (disk : Z → list byte)
    (s0 : BufferPool.BufferPoolManagerInstance) (k : nat) :
  BufferPool.new_BufferPoolManagerInstance PAGE_SIZE pool_size
    num_instances instance_index disk = Some s0 →
  (k ≤ pool_size)%nat →
  Z.of_N instance_index + Z.of_nat k * Z.of_N num_instances ≤ BufferPool.INT32_MAX →
  ∃ s, BufferPool.run (replicate k BufferPool.OpNewPage) s0 = Some s ∧
    ((k < pool_size)%nat →
     ∃ s', BufferPool.NewPgImp s =
             Some (Some (Z.of_N instance_index + Z.of_nat k * Z.of_N num_instances, k), s')) ∧
    (k = pool_size → ∃ s', BufferPool.NewPgImp s = Some (None, s')).
Proof.
  intros Hnew Hk Hle.
  pose proof (new_pool_filled _ _ _ _ _ _ Hnew) as Hf0.
  destruct (run_NewPage_filled _ _ 0 k _ _ _ Hf0) as (s & Hrun & Hf); [lia|done|].
  simpl in Hf. exists s. split; [done|]. split.
  - intros Hlt. destruct (NewPgImp_filled _ _ _ _ _ _ Hf Hlt Hle) as (s' & Hs' & _).
    by exists s'.
  - intros ->. eexists. apply NewPgImp_all_pinned.
    + by eapply filled_all_pinned.
    + by destruct (filled_next _ _ _ _ _ _ Hf Hle).
Qed.

Lemma fresh_pool_NewPage_sequence_witness :
  ∃ s0 s,
    BufferPool.new_BufferPoolManagerInstance 4 2 3 1 (λ _, []) = Some s0 ∧
    BufferPool.run (replicate 2 BufferPool.OpNewPage) s0 = Some s ∧
    ∃ s', BufferPool.NewPgImp s = Some (None, s').
Proof.
  eexists.
  destruct (fresh_pool_NewPage_sequence 4 2 3 1 (λ _, []) _ 2 eq_refl)
    as (s & Hrun & _ & Hnone); [lia | vm_compute; discriminate |].
  exists s. split; [reflexivity|]. split; [exact Hrun|]. exact (Hnone eq_refl).
Defined.

(** X14. Under the pool invariant (so the resident page has a real page
    id, not the sentinel), a missing [FetchPgImp] that finds the free list
    empty and evicts a dirty resident page writes that page to disk
    twice, once in [find_replace] and once more in [FetchPgImp] itself
    (the dirty bit is still set there), erases its page-table entry
    twice, and then reads the requested page. *)
Theorem FetchPgImp_writes_dirty_victim_twice
    (s : BufferPool.BufferPoolManagerInstance) (page_id P : Z) (f : nat)
    (r : BufferPool.LRUReplacer) (p : BufferPool.Page) :
  BufferPool.wf s →
  BufferPool.page_table_ s !! page_id = None →
  BufferPool.free_list_ s = [] →
  BufferPool.Victim (BufferPool.replacer_ s) = Some (f, r) →
  BufferPool.page_table_ s !! P = Some f →
  BufferPool.pages_ s !! f = Some p →
  BufferPool.is_dirty_ p = true →
  (BufferPool.FetchPgImp page_id s).1 = Some f ∧
  BufferPool.log_ (BufferPool.FetchPgImp page_id s).2 =
    BufferPool.log_ s ++
    [BufferPool.EvWritePage P (BufferPool.data_ p); BufferPool.EvTableErase P;
     BufferPool.EvWritePage P (BufferPool.data_ p); BufferPool.EvTableErase P;
     BufferPool.EvReadPage page_id].
Proof.
  intros Hwf Hmiss Hfl Hv Ht Hp Hd.
  destruct (wf_resident s P f Hwf Ht) as (_ & p0 & Hp0 & HP).
  assert (p0 = p) as -> by congruence.
  destruct (BufferPool.find_replace s) as [[f'|] s1] eqn:E.
  2:{ unfold BufferPool.find_replace in E. rewrite Hfl, Hv in E.
      by case_bool_decide. }
  destruct (find_replace_shape s s1 f' Hwf E) as (p' & Hp' & _ & Hcase).
  destruct Hcase as [(rest & Hfl' & _)|(r' & _ & Hv' & Hcase)]; [congruence|].
  rewrite Hv in Hv'. injection Hv' as <- <-.
  assert (p' = p) as -> by congruence.
  destruct Hcase as [[Hun _]|[_ Hs1]]; [by destruct (Hun P)|].
  rewrite Hd, HP in Hs1.
  unfold BufferPool.FetchPgImp. rewrite Hmiss, E.
  assert (Hp1 : BufferPool.pages_ s1 !! f = Some p).
  { rewrite Hs1. by destruct s. }
  rewrite (frame_lookup s1 f p Hp1), Hd, HP. split; [done|].
  rewrite Hs1. destruct s as [ni ii np ps t fl rr d lg]; bpm_simpl.
  rewrite <- (app_assoc lg [_] [_]), <- (app_assoc lg _ [_]),
    <- (app_assoc lg _ [_]), <- (app_assoc lg _ [_]). done.
Qed.

Lemma FetchPgImp_writes_dirty_victim_twice_witness :
  ∃ s0 s,
    BufferPool.new_BufferPoolManagerInstance 4 1 1 0 (λ _, []) = Some s0 ∧
    BufferPool.run [BufferPool.OpNewPage; BufferPool.OpUnpinPage 0 true] s0 = Some s ∧
    BufferPool.log_ (BufferPool.FetchPgImp 7 s).2 =
      [BufferPool.EvWritePage 0 [x00; x00; x00; x00]; BufferPool.EvTableErase 0;
       BufferPool.EvWritePage 0 [x00; x00; x00; x00]; BufferPool.EvTableErase 0;
       BufferPool.EvReadPage 7].
Proof.
  destruct (run_new_wf 4 1 1 0 (λ _, []) _
              [BufferPool.OpNewPage; BufferPool.OpUnpinPage 0 true] eq_refl)
    as (s & Hrun & Hwf & _).
  { repeat constructor. }
  { vm_compute. discriminate. }
  eexists _, s. split; [reflexivity|]. split; [exact Hrun|].
  pose proof (FetchPgImp_writes_dirty_victim_twice s 7 0 0%nat
                (BufferPool.mkLRU [] 1)
                (BufferPool.mkPage [x00; x00; x00; x00] 0 0 true) Hwf) as H.
  vm_compute in Hrun. injection Hrun as <-.
  exact (proj2 (H eq_refl eq_refl eq_refl eq_refl eq_refl eq_refl)).
Defined.

(* --------------------------------------------------------------------- *)
(** ** The executors: index maintenance and raw inserts                   *)
(* --------------------------------------------------------------------- *)

Section ExecutorEffects.
Import Executors Scenarios.

Lemma update_indexes_exact plan t u rid (w : World) :
  calls_ (update_indexes plan t u rid w) =
    calls_ w ++
      flat_map (λ index,
                  [CallDeleteEntry (index_oid_ index) (KeyFromTuple t index) rid;
                   CallInsertEntry (index_oid_ index) (KeyFromTuple u index) rid])
               (up_table_indexes plan) ∧
  index_write_set_ (txn_ (update_indexes plan t u rid w)) =
    index_write_set_ (txn_ w) ++
      ((λ index, mkIndexWriteRecord rid (up_table_oid plan) UPDATE u t (index_oid_ index))
         <$> up_table_indexes plan) ∧
  state_ (txn_ (update_indexes plan t u rid w)) = state_ (txn_ w) ∧
  shared_lock_set_ (txn_ (update_indexes plan t u rid w)) = shared_lock_set_ (txn_ w) ∧
  exclusive_lock_set_ (txn_ (update_indexes plan t u rid w)) = exclusive_lock_set_ (txn_ w).
Proof.
  unfold update_indexes. revert w.
  induction (up_table_indexes plan) as [|index l IH]; intros w; simpl.
  - by rewrite !app_nil_r.
  - match goal with
    | |- context [foldl ?F ?a l] => destruct (IH a) as (H1 & H2 & H3 & H4 & H5)
    end.
    rewrite H1, H2, H3, H4, H5. simpl.
    rewrite <- (app_assoc (calls_ w) [_] [_]).
    rewrite <- (app_assoc (calls_ w) _ (flat_map _ l)).
    by rewrite <- (app_assoc (index_write_set_ (txn_ w)) [_] _).
Qed.



Lemma LockExclusive_calls b rid (w : World) :
  calls_ (LockExclusive b rid w).2 = calls_ w ++ [CallLockExclusive rid] ∧
  index_write_set_ (txn_ (LockExclusive b rid w).2) = index_write_set_ (txn_ w).
Proof. by destruct b. Qed.





End ExecutorEffects.

(** X15. [UpdateExecutor::Next] after the locking step has succeeded.
    When [UpdateTuple] succeeds, [Next] returns true and, for every index
    of the table in order, deletes the key of the old tuple, inserts the
    key of the updated tuple, and appends one UPDATE record (updated
    tuple, old tuple) to the index write set. When [UpdateTuple] fails,
    [Next] returns false with no index call and no write record, and the
    lock taken in the locking step is not released. *)
Theorem UpdateExecutor_Next_index_maintenance (plan : Executors.UpdatePlan)
    (env : Executors.Env) (w : Executors.World)
    (dummy_tuple to_update_tuple : list Z) (emit_rid : Z * Z) :
  Executors.child_Next env = Some (dummy_tuple, emit_rid) →
  Executors.GetTuple env emit_rid = Some to_update_tuple →
  (Executors.update_lock env emit_rid w).1 = true →
  let updated_tuple :=
    Executors.GenerateUpdatedTuple (Executors.up_update_attrs plan)
      (Executors.up_col_count plan) to_update_tuple in
  let w1 := (Executors.update_lock env emit_rid w).2 in
  let r := Executors.UpdateExecutor_Next plan env w in
  r.1 = Executors.UpdateTuple env updated_tuple emit_rid ∧
  Executors.calls_ r.2 =
    Executors.calls_ w1 ++
    Executors.CallUpdateTuple updated_tuple emit_rid ::
    (if Executors.UpdateTuple env updated_tuple emit_rid
     then flat_map
            (λ index,
               [Executors.CallDeleteEntry (Executors.index_oid_ index)
                  (Executors.KeyFromTuple to_update_tuple index) emit_rid;
                Executors.CallInsertEntry (Executors.index_oid_ index)
                  (Executors.KeyFromTuple updated_tuple index) emit_rid])
            (Executors.up_table_indexes plan)
     else []) ∧
  Executors.index_write_set_ (Executors.txn_ r.2) =
    Executors.index_write_set_ (Executors.txn_ w1) ++
    (if Executors.UpdateTuple env updated_tuple emit_rid
     then (λ index, Executors.mkIndexWriteRecord emit_rid (Executors.up_table_oid plan)
                      Executors.UPDATE updated_tuple to_update_tuple
                      (Executors.index_oid_ index))
            <$> Executors.up_table_indexes plan
     else []) ∧
  Executors.exclusive_lock_set_ (Executors.txn_ r.2) =
    Executors.exclusive_lock_set_ (Executors.txn_ w1) ∧
  Executors.state_ (Executors.txn_ r.2) = Executors.state_ (Executors.txn_ w1).
Proof.
  intros Hchild Hget Hlock updated_tuple w1 r.
  unfold r, Executors.UpdateExecutor_Next. rewrite Hchild, Hget.
  fold updated_tuple. unfold w1.
  destruct (Executors.update_lock env emit_rid w) as [b w1'].
  simpl in Hlock. subst b. simpl.
  destruct (Executors.UpdateTuple env updated_tuple emit_rid); simpl.
  - destruct (update_indexes_exact plan to_update_tuple updated_tuple emit_rid
                (Executors.call (Executors.CallUpdateTuple updated_tuple emit_rid) w1'))
      as (H1 & H2 & H3 & _ & H5).
    rewrite H1, H2, H3, H5. simpl.
    by rewrite <- (app_assoc (Executors.calls_ w1') [_] _).
  - by rewrite app_nil_r.
Qed.

Lemma UpdateExecutor_Next_index_maintenance_witness :
  let plan := Executors.mkUpdatePlan 7 2 {[ 1%nat := Executors.mkUpdateInfo Executors.Add 5 ]}
                [Executors.mkIndexInfo 3 [1%nat]] in
  let env := Executors.mkEnv (Some ([], (4, 2))) (λ _, Some [10; 20]) (λ _ _, true)
               (λ _, None) true in
  let w := Executors.mkWorld
             (Executors.mkTransaction Executors.GROWING ∅ {[ (4, 2) ]} []) [] in
  (Executors.UpdateExecutor_Next plan env w).1 = true ∧
  Executors.calls_ (Executors.UpdateExecutor_Next plan env w).2 =
    [Executors.CallUpdateTuple [10; 25] (4, 2);
     Executors.CallDeleteEntry 3 [20] (4, 2);
     Executors.CallInsertEntry 3 [25] (4, 2)].
Proof.
  intros plan env w.
  destruct (UpdateExecutor_Next_index_maintenance plan env w [] [10; 20] (4, 2)
              eq_refl eq_refl eq_refl) as (H1 & H2 & _).
  split; [exact H1 | exact H2].
Defined.



(** X17. [InsertExecutor::Next] fed by a child executor. With no tuple
    from the child it returns false and calls nothing. When [InsertTuple]
    fails it returns false with no lock request and no index call. When
    [InsertTuple] succeeds it returns true with the new rid, requests the
    exclusive lock on it, and then, for every index of the table in order,
    inserts the tuple's key and appends one INSERT record with an empty
    old tuple to the index write set. *)
Theorem InsertExecutor_Next_from_child (plan : Executors.InsertPlan)
    (env : Executors.Env) (next_insert : nat) (w : Executors.World) :
  Executors.ip_raw_values plan = None →
  (Executors.child_Next env = None →
   Executors.InsertExecutor_Next plan env next_insert w = (false, next_insert, None, w)) ∧
  (∀ t r0, Executors.child_Next env = Some (t, r0) →
     (Executors.InsertTuple env t = None →
      Executors.InsertExecutor_Next plan env next_insert w =
        (false, next_insert, None, Executors.call (Executors.CallInsertTuple t) w)) ∧
     (∀ rid, Executors.InsertTuple env t = Some rid →
        let r := Executors.InsertExecutor_Next plan env next_insert w in
        r.1 = (true, next_insert, Some rid) ∧
        Executors.calls_ r.2 =
          Executors.calls_ w ++
          [Executors.CallInsertTuple t; Executors.CallLockExclusive rid] ++
          ((λ index, Executors.CallInsertEntry (Executors.index_oid_ index)
                       (Executors.KeyFromTuple t index) rid)
             <$> Executors.ip_table_indexes plan) ∧
        Executors.index_write_set_ (Executors.txn_ r.2) =
          Executors.index_write_set_ (Executors.txn_ w) ++
          ((λ index, Executors.mkIndexWriteRecord rid (Executors.ip_table_oid plan)
                       Executors.INSERT t [] (Executors.index_oid_ index))
             <$> Executors.ip_table_indexes plan))).
Proof.
  intros Hraw. unfold Executors.InsertExecutor_Next. rewrite Hraw. split.
  - intros ->. done.
  - intros t r0 ->. cbn [fmap option_fmap option_map fst]. split.
    + intros ->. done.
    + intros rid ->. cbv zeta. cbn [fst snd]. split; [done|].
      destruct (insert_indexes_spec plan t rid
                  (Executors.LockExclusive (Executors.lock_granted env) rid
                     (Executors.call (Executors.CallInsertTuple t) w)).2)
        as (H1 & H2 & _).
      destruct (LockExclusive_calls (Executors.lock_granted env) rid
                  (Executors.call (Executors.CallInsertTuple t) w)) as [H3 H4].
      rewrite H1, H2, H3, H4. cbn [Executors.calls_ Executors.call Executors.txn_].
      split; [|done].
      rewrite <- (app_assoc (Executors.calls_ w) [_] [_]).
      by rewrite <- (app_assoc (Executors.calls_ w) _ _).
Qed.

Lemma InsertExecutor_Next_from_child_witness :
  let plan := Executors.mkInsertPlan 7 None [Executors.mkIndexInfo 3 [1%nat]] in
  let env := Executors.mkEnv (Some ([10; 20], (0, 0))) (λ _, None) (λ _ _, false)
               (λ _, Some (4, 2)) true in
  let w := Executors.mkWorld (Executors.mkTransaction Executors.GROWING ∅ ∅ []) [] in
  (Executors.InsertExecutor_Next plan env 0 w).1 = (true, 0%nat, Some (4, 2)) ∧
  Executors.calls_ (Executors.InsertExecutor_Next plan env 0 w).2 =
    [Executors.CallInsertTuple [10; 20]; Executors.CallLockExclusive (4, 2);
     Executors.CallInsertEntry 3 [20] (4, 2)].
Proof.
  intros plan env w.
  destruct (proj2 (proj2 (InsertExecutor_Next_from_child plan env 0 w eq_refl)
                     [10; 20] (0, 0) eq_refl) (4, 2) eq_refl) as (H1 & H2 & _).
  split; [exact H1 | exact H2].
Defined.

(** X18. [GenerateUpdatedTuple] builds a tuple of [col_count] values: a
    column that the plan does not update keeps the value of the source
    tuple, a column with a [Set] update gets the update value, and with no
    update at all a tuple of [col_count] values is returned as it is. *)
Theorem GenerateUpdatedTuple_columns (update_attrs : gmap nat Executors.UpdateInfo)
    (col_count : nat) (src_tuple : list Z) :
  let res := Executors.GenerateUpdatedTuple update_attrs col_count src_tuple in
  length res = col_count ∧
  (∀ idx v, update_attrs !! idx = None → src_tuple !! idx = Some v →
            (idx < col_count)%nat → res !! idx = Some v) ∧
  (∀ idx val, update_attrs !! idx = Some (Executors.mkUpdateInfo Executors.Set_ val) →
              (idx < col_count)%nat → res !! idx = Some val) ∧
  (update_attrs = ∅ → length src_tuple = col_count → res = src_tuple).
Proof.
  intros res. unfold res, Executors.GenerateUpdatedTuple.
  split; [by rewrite length_fmap, length_seq|].
  split; [|split].
  - intros idx v Hnone Hv Hlt. rewrite list_lookup_fmap, lookup_seq_lt by done.
    simpl. rewrite Hnone. f_equal. by apply list_lookup_total_correct.
  - intros idx val Hsome Hlt. rewrite list_lookup_fmap, lookup_seq_lt by done.
    simpl. by rewrite Hsome.
  - intros -> Hlen. apply list_eq. intros idx.
    rewrite list_lookup_fmap.
    destruct (decide (idx < col_count)%nat) as [Hlt|Hge].
    + rewrite lookup_seq_lt by done. simpl. rewrite lookup_empty.
      destruct (lookup_lt_is_Some_2 src_tuple idx) as [v Hv]; [lia|].
      rewrite Hv. f_equal. by apply list_lookup_total_correct.
    + rewrite lookup_seq_ge by lia. simpl.
      symmetry. apply lookup_ge_None. lia.
Qed.
